(** * Text layout support of Ren'Py: a shallow embedding of
      [renpy/text/textsupport.pyx] and the properties of its passes.

    Conventions of the embedding.
    - A Python [unicode] string is the list of its code points ([Z]).
    - A Python list of [Glyph] objects is a [list Glyph]; a glyph is
      identified with its position in the list, so a reference to a glyph
      kept across iterations ([split_g], [glyphs[space_pos]]) is an index
      into the list and a write through it is an update at that index.
      The lists are taken to hold pairwise distinct objects.
    - C [int] fields are [Z] (no overflow is modelled), C [float] fields are
      exact rationals [Q] (no rounding, infinities or NaN are modelled), and
      the cast [<int>] is truncation toward zero.
    - A raised exception is the [Raise] case of [result]. *)

From Stdlib Require Import ZArith QArith Qround Lia Lqa.
From stdpp Require Import base list.

(** ** Data model *)

Inductive split_t := SPLIT_NONE | SPLIT_BEFORE | SPLIT_INSTEAD | SPLIT_IGNORE.
Inductive ruby_t := RUBY_NONE | RUBY_BOTTOM | RUBY_TOP | RUBY_ALT.

#[global] Instance split_t_eq_dec : EqDecision split_t.
Proof. solve_decision. Defined.
#[global] Instance ruby_t_eq_dec : EqDecision ruby_t.
Proof. solve_decision. Defined.

Record Glyph := mkGlyph {
  x : Z;
  y : Z;
  delta_x_adjustment : Z;
  character : Z;
  variation : Z;
  split : split_t;
  ruby : ruby_t;
  ascent : Z;
  descent : Z;
  line_spacing : Z;
  width : Q;
  advance : Q;
  time : Q;
  hyperlink : Z;
  rtl : bool;
  duration : Q;
  index : Z
}.

Definition set_split (v : split_t) (g : Glyph) : Glyph :=
  mkGlyph (x g) (y g) (delta_x_adjustment g) (character g) (variation g) v
    (ruby g) (ascent g) (descent g) (line_spacing g) (width g) (advance g)
    (time g) (hyperlink g) (rtl g) (duration g) (index g).

Definition set_x (v : Z) (g : Glyph) : Glyph :=
  mkGlyph v (y g) (delta_x_adjustment g) (character g) (variation g) (split g)
    (ruby g) (ascent g) (descent g) (line_spacing g) (width g) (advance g)
    (time g) (hyperlink g) (rtl g) (duration g) (index g).

Definition set_time (v : Q) (g : Glyph) : Glyph :=
  mkGlyph (x g) (y g) (delta_x_adjustment g) (character g) (variation g)
    (split g) (ruby g) (ascent g) (descent g) (line_spacing g) (width g)
    (advance g) v (hyperlink g) (rtl g) (duration g) (index g).

Definition set_duration (v : Q) (g : Glyph) : Glyph :=
  mkGlyph (x g) (y g) (delta_x_adjustment g) (character g) (variation g)
    (split g) (ruby g) (ascent g) (descent g) (line_spacing g) (width g)
    (advance g) (time g) (hyperlink g) (rtl g) v (index g).

Definition set_rtl (v : bool) (g : Glyph) : Glyph :=
  mkGlyph (x g) (y g) (delta_x_adjustment g) (character g) (variation g)
    (split g) (ruby g) (ascent g) (descent g) (line_spacing g) (width g)
    (advance g) (time g) (hyperlink g) v (duration g) (index g).

Record Line := mkLine {
  line_y : Z;
  baseline : Z;
  height : Z;
  glyphs : list Glyph;
  max_time : Q;
  eop : bool
}.

Definition set_max_time (v : Q) (l : Line) : Line :=
  mkLine (line_y l) (baseline l) (height l) (glyphs l) v (eop l).

Definition set_glyphs (v : list Glyph) (l : Line) : Line :=
  mkLine (line_y l) (baseline l) (height l) v (max_time l) (eop l).

(** [g.ruby == RUBY_TOP] or [g.ruby == RUBY_ALT]: the glyphs every pass
    over a line skips. *)
Definition ruby_skipped (g : Glyph) : bool :=
  bool_decide (ruby g = RUBY_TOP) || bool_decide (ruby g = RUBY_ALT).

Definition MAX_WIDTH : Z := 8192.

(** The C cast [<int>] of a float: truncation toward zero. *)
Definition c_int (q : Q) : Z := Z.quot (Qnum q) (Zpos (Qden q)).

(** A Python [unicode] string. *)
Abbreviation unicode := (list Z).

(** Outcome of a call that may raise. *)
Inductive result (E A : Type) :=
  | Ok (a : A)
  | Raise (e : E).
Arguments Ok {E A} a.
Arguments Raise {E A} e.

(** ** Tokenizer *)

Module Tokenizer.

Definition TEXT : Z := 1.
Definition TAG : Z := 2.
Definition PARAGRAPH : Z := 3.
Definition DISPLAYABLE : Z := 4.

Abbreviation token := (Z * unicode)%type.

(** The code points the tokenizer looks at. *)
Definition NEWLINE : Z := 10.
Definition LBRACE : Z := 123.
Definition RBRACE : Z := 125.
Definition VBAR : Z := 124.
Definition LENT_OPEN : Z := 12304.   (* U+3010 *)
Definition LENT_CLOSE : Z := 12305.  (* U+3011 *)
Definition FULLWIDTH_VBAR : Z := 65372. (* U+FF5C *)

Definition str_rb : unicode := [114; 98]%Z.
Definition str_end_rb : unicode := [47; 114; 98]%Z.
Definition str_rt : unicode := [114; 116]%Z.
Definition str_end_rt : unicode := [47; 114; 116]%Z.

(** [c in s] for a one-character [c]. *)
Definition contains (c : Z) (s : unicode) : bool := bool_decide (c ∈ s).

(** [if buf:] *)
Definition nonempty (s : unicode) : bool :=
  match s with [] => false | _ => true end.

Inductive lent_state := L_TEXT_STATE | L_LEFT_STATE | L_RIGHT_STATE.

Definition lent_step (st : lent_state * unicode * list token) (c : Z)
  : lent_state * unicode * list token :=
  let '(state, buf, rv) := st in
  match state with
  | L_TEXT_STATE =>
      if (c =? LENT_OPEN)%Z then
        (L_LEFT_STATE, [], if nonempty buf then rv ++ [(TEXT, buf)] else rv)
      else (L_TEXT_STATE, buf ++ [c], rv)
  | L_LEFT_STATE =>
      if (c =? LENT_OPEN)%Z && negb (nonempty buf) then
        (L_TEXT_STATE, buf ++ [c], rv)
      else if (c =? LENT_CLOSE)%Z then
        (L_TEXT_STATE, [], rv ++ [(TEXT, LENT_OPEN :: buf ++ [LENT_CLOSE])])
      else if (c =? FULLWIDTH_VBAR)%Z || (c =? VBAR)%Z then
        (L_RIGHT_STATE, [], rv ++ [(TAG, str_rb); (TEXT, buf); (TAG, str_end_rb)])
      else (L_LEFT_STATE, buf ++ [c], rv)
  | L_RIGHT_STATE =>
      if (c =? LENT_CLOSE)%Z then
        (L_TEXT_STATE, [], rv ++ [(TAG, str_rt); (TEXT, buf); (TAG, str_end_rt)])
      else (L_RIGHT_STATE, buf ++ [c], rv)
  end.

Definition lenticular_bracket_ruby (s : unicode) : list token :=
  let '(state, buf, rv) := fold_left lent_step s (L_TEXT_STATE, [], []) in
  if nonempty buf then
    match state with
    | L_TEXT_STATE => rv ++ [(TEXT, buf)]
    | L_LEFT_STATE => rv ++ [(TEXT, LENT_OPEN :: buf)]
    | L_RIGHT_STATE => rv ++ [(TAG, str_rt); (TEXT, buf); (TAG, str_end_rt)]
    end
  else rv.

Inductive tok_state := TEXT_STATE | LEFT_BRACE_STATE | TAG_STATE.

(** The two exceptions of [tokenize], each carrying the offending input. *)
Inductive markup_error :=
  | Empty_text_tag (s : unicode)
  | Open_text_tag (s : unicode).

Section Tokenize.

(** [renpy.config.lenticular_bracket_ruby] *)
Variable config_lenticular_bracket_ruby : bool.

(** The closure [finish_text], with the [buf] and [rv] it captures. *)
Definition finish_text (buf : unicode) (rv : list token) : list token :=
  if contains LENT_OPEN buf && config_lenticular_bracket_ruby
  then rv ++ lenticular_bracket_ruby buf
  else rv ++ [(TEXT, buf)].

(** One iteration of [for c in s]; [None] when the iteration raises
    "Empty text tag". *)
Definition tok_step (st : tok_state * unicode * list token) (c : Z)
  : option (tok_state * unicode * list token) :=
  let '(state, buf, rv) := st in
  match state with
  | TEXT_STATE =>
      if (c =? NEWLINE)%Z then
        let rv := if nonempty buf then finish_text buf rv else rv in
        Some (TEXT_STATE, [], rv ++ [(PARAGRAPH, [])])
      else if (c =? LBRACE)%Z then Some (LEFT_BRACE_STATE, buf, rv)
      else Some (TEXT_STATE, buf ++ [c], rv)
  | LEFT_BRACE_STATE =>
      if (c =? LBRACE)%Z then Some (TEXT_STATE, buf ++ [c], rv)
      else if (c =? RBRACE)%Z then None
      else
        let rv := if nonempty buf then finish_text buf rv else rv in
        Some (TAG_STATE, [c], rv)
  | TAG_STATE =>
      if (c =? RBRACE)%Z then Some (TEXT_STATE, [], rv ++ [(TAG, buf)])
      else Some (TAG_STATE, buf ++ [c], rv)
  end.

Fixpoint tok_loop (cs : unicode) (st : tok_state * unicode * list token)
  : option (tok_state * unicode * list token) :=
  match cs with
  | [] => Some st
  | c :: cs' =>
      match tok_step st c with
      | None => None
      | Some st' => tok_loop cs' st'
      end
  end.

Definition tokenize (s : unicode) : result markup_error (list token) :=
  if negb (nonempty s) then Ok []
  else if negb (contains LBRACE s) && negb (contains NEWLINE s)
          && negb (contains LENT_OPEN s)
  then Ok [(TEXT, s)]
  else
    match tok_loop s (TEXT_STATE, [], []) with
    | None => Raise (Empty_text_tag s)
    | Some (state, buf, rv) =>
        match state with
        | TEXT_STATE => Ok (if nonempty buf then finish_text buf rv else rv)
        | _ => Raise (Open_text_tag s)
        end
    end.

End Tokenize.

(** *** Markup as the specification describes it

    A string is [complete] when it is a sequence of literal characters,
    doubled-brace escapes and closed, non-empty tags. *)
Inductive complete : unicode → Prop :=
  | complete_nil : complete []
  | complete_char c r :
      c ≠ LBRACE → complete r → complete (c :: r)
  | complete_escape r :
      complete r → complete (LBRACE :: LBRACE :: r)
  | complete_tag c body r :
      c ≠ LBRACE → c ≠ RBRACE → RBRACE ∉ body → complete r →
      complete (LBRACE :: c :: body ++ RBRACE :: r).

(** The input contains an empty tag: after complete markup comes "{}". *)
Definition has_empty_tag (s : unicode) : Prop :=
  ∃ p r, complete p ∧ s = p ++ LBRACE :: RBRACE :: r.

(** The input contains a tag that is opened and never closed: after complete
    markup comes a brace that does not start an escape, and no closing brace
    follows it before the end of the input. *)
Definition has_unclosed_tag (s : unicode) : Prop :=
  ∃ p b, complete p ∧ s = p ++ LBRACE :: b ∧ (RBRACE ∉ b) ∧ (head b ≠ Some LBRACE).

End Tokenizer.

(** ** Break classifier (Unicode-tailored)

    [linebreak.pxi], which [textsupport.pyx] includes, declares the break
    classes [BC_*], the four per-profile class tables and the pair table
    [break_rules]; [annotate_unicode] takes them here as a parameter. *)

Record LinebreakPxi := mkLinebreakPxi {
  BC_XX : Z; BC_SP : Z; BC_CM : Z; BC_CB : Z; BC_WJ : Z; BC_GL : Z;
  BC_CL : Z; BC_CP : Z; BC_AL : Z; BC_ID : Z;
  BC_H2 : Z; BC_H3 : Z; BC_JL : Z; BC_JV : Z; BC_JT : Z;
  BC_PITCH : Z;
  break_western : Z → Z;
  break_cjk_loose : Z → Z;
  break_cjk_normal : Z → Z;
  break_cjk_strict : Z → Z;
  break_rules : Z → Z
}.

Module Classifier.

Section AnnotateUnicode.

Variable T : LinebreakPxi.

(** The content of the process-wide array [break_tailor] at the time of the
    call ([BC_XX] wherever [language_tailor] has not written). *)
Variable break_tailor : Z → Z.

Variable no_ideographs : bool.
Variable cjk : Z.

Definition break_classes : Z → Z :=
  if (cjk =? 0)%Z then break_western T
  else if (cjk =? 1)%Z then break_cjk_loose T
  else if (cjk =? 2)%Z then break_cjk_normal T
  else if (cjk =? 3)%Z then break_cjk_strict T
  else break_western T.

(** The class [new_type] the loop works with for a character [c], once the
    [no_ideographs] demotion, the normalisation to [BC_AL] and the
    tailoring have been applied. *)
Definition effective_class (c : Z) : Z :=
  let '(new_type, tailor_type) :=
    if (131072 <=? c)%Z && (c <=? 196607)%Z then (BC_ID T, BC_XX T)
    else if (c >? 65535)%Z then (BC_AL T, BC_XX T)
    else (break_classes c, break_tailor c) in
  let new_type :=
    if no_ideographs &&
       ((new_type =? BC_H2 T)%Z || (new_type =? BC_H3 T)%Z ||
        (new_type =? BC_ID T)%Z || (new_type =? BC_JL T)%Z ||
        (new_type =? BC_JV T)%Z || (new_type =? BC_JT T)%Z)
    then BC_AL T else new_type in
  let new_type :=
    if (new_type >=? BC_PITCH T)%Z && negb (new_type =? BC_SP T)%Z
       && negb (new_type =? BC_CB T)%Z
    then BC_AL T else new_type in
  if negb (tailor_type =? BC_XX T)%Z then tailor_type else new_type.

Definition PERCENT : Z := 37.    (* b"%" *)
Definition UNDERSCORE : Z := 95. (* b"_" *)

(** One iteration of [for pos in range(1, len_glyphs)], on the state
    [(glyphs, old_type, space_pos)]. *)
Definition annotate_step (st : list Glyph * Z * nat) (pos : nat)
  : list Glyph * Z * nat :=
  let '(gs, old_type, space_pos) := st in
  match gs !! pos with
  | None => st
  | Some g =>
      let new_type := effective_class (character g) in
      if (new_type =? BC_SP T)%Z then
        (alter (set_split SPLIT_NONE) pos gs, old_type, pos)
      else if (new_type =? BC_CM T)%Z then
        (alter (set_split SPLIT_NONE) pos gs, old_type, space_pos)
      else if (new_type =? BC_CB T)%Z then
        (alter (set_split
                  (if (old_type =? BC_WJ T)%Z || (old_type =? BC_GL T)%Z
                   then SPLIT_NONE else SPLIT_BEFORE)) pos gs,
         old_type, space_pos)
      else if (old_type =? BC_CB T)%Z then
        (alter (set_split
                  (if (new_type =? BC_WJ T)%Z || (new_type =? BC_GL T)%Z
                   then SPLIT_NONE else SPLIT_BEFORE)) pos gs,
         old_type, space_pos)
      else if (new_type =? BC_CL T)%Z || (new_type =? BC_CP T)%Z then
        (alter (set_split SPLIT_IGNORE) pos gs, old_type, space_pos)
      else
        let bc := break_rules T (old_type * BC_PITCH T + new_type)%Z in
        let gs :=
          if (bc =? PERCENT)%Z then
            let gs :=
              if negb (space_pos =? 0)
              then alter (set_split SPLIT_INSTEAD) space_pos gs else gs in
            alter (set_split SPLIT_NONE) pos gs
          else if (bc =? UNDERSCORE)%Z then
            if negb (space_pos =? 0)
            then alter (set_split SPLIT_NONE) pos
                   (alter (set_split SPLIT_INSTEAD) space_pos gs)
            else alter (set_split SPLIT_BEFORE) pos gs
          else alter (set_split SPLIT_NONE) pos gs in
        (gs, new_type, 0)
  end.

(** One iteration of the closing [for g in glyphs], on the state
    [(glyphs, old_g)]; [old_g] is the position of the previous glyph. *)
Definition ruby_step (st : list Glyph * nat) (pos : nat) : list Glyph * nat :=
  let '(gs, old_g) := st in
  match gs !! pos, gs !! old_g with
  | Some g, Some og =>
      let gs :=
        if (character g =? 0)%Z
        then alter (set_split SPLIT_BEFORE) pos gs else gs in
      let gs :=
        if ruby_skipped g then alter (set_split SPLIT_NONE) pos gs
        else if bool_decide (ruby g = RUBY_BOTTOM)
                && bool_decide (ruby og = RUBY_BOTTOM)
        then alter (set_split SPLIT_NONE) pos gs
        else gs in
      (gs, pos)
  | _, _ => st
  end.

Definition annotate_unicode (glyphs : list Glyph) : list Glyph :=
  match glyphs with
  | [] => []
  | _ =>
      let len_glyphs := length glyphs in
      let '(gs, _, _) :=
        fold_left annotate_step (seq 1 (len_glyphs - 1))
          (glyphs, BC_WJ T, 0) in
      let gs := alter (set_split SPLIT_NONE) 0 gs in
      fst (fold_left ruby_step (seq 0 len_glyphs) (gs, 0))
  end.

(** The effective class of the glyph is space or combining mark. *)
Definition deferring (g : Glyph) : Prop :=
  effective_class (character g) = BC_SP T
  ∨ effective_class (character g) = BC_CM T.

(** The deferring glyphs at the positions from [a] up to [b] carry no
    split-before. *)
Definition deferred_between (a b : nat) (gs : list Glyph) : Prop :=
  ∀ i g, a ≤ i < b → gs !! i = Some g → deferring g →
    split g = SPLIT_NONE ∨ split g = SPLIT_INSTEAD.

(** No deferring glyph of a character other than 0 carries a
    split-before. *)
Definition deferred_chars (gs : list Glyph) : Prop :=
  ∀ i g, gs !! i = Some g → deferring g → character g ≠ 0%Z →
    split g = SPLIT_NONE ∨ split g = SPLIT_INSTEAD.

End AnnotateUnicode.

(** Equal up to the split. *)
Definition resplit (g g' : Glyph) : Prop := ∃ v, g' = set_split v g.

(** A small instance of the tables, for running the classifier: the class
    numbering follows the pair table of UAX #14, the class table maps the
    C0 controls U+0000..U+0008 to CM, U+0020 to SP, the two ASCII closing
    brackets to CP and CL and everything else to AL, and the pair table
    allows an indirect break everywhere. *)
Definition sample_pxi : LinebreakPxi :=
  let classes := fun c : Z =>
    if (c <=? 8)%Z then 21%Z
    else if (c =? 32)%Z then 33%Z
    else if (c =? 41)%Z then 2%Z
    else if (c =? 125)%Z then 1%Z
    else 12%Z in
  {| BC_XX := 36; BC_SP := 33; BC_CM := 21; BC_CB := 31; BC_WJ := 22;
     BC_GL := 4; BC_CL := 1; BC_CP := 2; BC_AL := 12; BC_ID := 14;
     BC_H2 := 23; BC_H3 := 24; BC_JL := 25; BC_JV := 26; BC_JT := 27;
     BC_PITCH := 29;
     break_western := classes; break_cjk_loose := classes;
     break_cjk_normal := classes; break_cjk_strict := classes;
     break_rules := fun _ => 37%Z |}.

End Classifier.

(** ** Greedy line breaker *)

Module Greedy.

Definition Qgt_bool (a b : Q) : bool := negb (Qle_bool a b).

Record greedy_state := mkGreedy {
  st_glyphs : list Glyph;
  st_width : Q;
  st_split_g : option nat;
  st_x : Q;
  st_splitx : Q;
  st_ignored : Q
}.

(** [if split_g is not None: split_g.split = SPLIT_NONE] *)
Definition demote (split_g : option nat) (gs : list Glyph) : list Glyph :=
  match split_g with
  | Some p => alter (set_split SPLIT_NONE) p gs
  | None => gs
  end.

(** One iteration of [for g in glyphs]; [i] is the position of [g]. *)
Definition greedy_step (rest_width : Q) (st : greedy_state) (i : nat)
  : greedy_state :=
  match st_glyphs st !! i with
  | None => st
  | Some g =>
      if ruby_skipped g then st
      else if bool_decide (split g = SPLIT_IGNORE) then
        mkGreedy (st_glyphs st) (st_width st) (st_split_g st) (st_x st)
          (st_splitx st) (st_ignored st + advance g)
      else
        let commit := Qgt_bool (st_x st) (st_width st)
                      && bool_decide (is_Some (st_split_g st)) in
        let x0 := if commit then st_splitx st else st_x st in
        let split_g0 := if commit then None else st_split_g st in
        let width0 := if commit then rest_width else st_width st in
        let x1 := (x0 + (advance g + st_ignored st))%Q in
        let splitx1 := (st_splitx st + (advance g + st_ignored st))%Q in
        match split g with
        | SPLIT_INSTEAD =>
            mkGreedy (demote split_g0 (st_glyphs st)) width0 (Some i) x1 0 0
        | SPLIT_BEFORE =>
            mkGreedy (demote split_g0 (st_glyphs st)) width0 (Some i) x1
              (advance g) 0
        | _ =>
            mkGreedy (st_glyphs st) width0 split_g0 x1 splitx1 0
        end
  end.

Definition greedy_init (glyphs : list Glyph) (first_width : Z) : greedy_state :=
  mkGreedy glyphs (inject_Z first_width) None 0 0 0.

Definition greedy_loop (glyphs : list Glyph) (first_width rest_width : Z)
  : greedy_state :=
  fold_left (greedy_step (inject_Z rest_width)) (seq 0 (length glyphs))
    (greedy_init glyphs first_width).

Definition linebreak_greedy (glyphs : list Glyph) (first_width rest_width : Z)
  : list Glyph :=
  let st := greedy_loop glyphs first_width rest_width in
  let split_g := if Qgt_bool (st_x st) (st_width st) then None
                 else st_split_g st in
  demote split_g (st_glyphs st).

(** A glyph after the breaker: untouched, or with its split taken away. *)
Definition kept_or_demoted (g g' : Glyph) : Prop :=
  g' = g ∨ g' = set_split SPLIT_NONE g.

End Greedy.

(** ** Line lists and the passes that ignore width *)

Module Breaks.

Definition linebreak_nobreak (glyphs : list Glyph) : list Glyph :=
  map (set_split SPLIT_NONE) glyphs.

(** [chr] raises [ValueError] outside the range of code points. *)
Inductive value_error := chr_arg_not_in_range (c : Z).

Definition chr (c : Z) : result value_error unicode :=
  if (0 <=? c)%Z && (c <=? 1114111)%Z then Ok [c]
  else Raise (chr_arg_not_in_range c).

Definition valid_code_point (g : Glyph) : Prop :=
  (0 ≤ character g ≤ 1114111)%Z.

(** The loop of [linebreak_list] on the state [(rv, line)]. *)
Fixpoint linebreak_list_loop (gs : list Glyph) (rv : list unicode)
    (line : unicode) : result value_error (list unicode * unicode) :=
  match gs with
  | [] => Ok (rv, line)
  | g :: gs' =>
      match split g with
      | SPLIT_INSTEAD => linebreak_list_loop gs' (rv ++ [line]) []
      | SPLIT_BEFORE =>
          match chr (character g) with
          | Ok s => linebreak_list_loop gs' (rv ++ [line]) s
          | Raise e => Raise e
          end
      | _ =>
          match chr (character g) with
          | Ok s => linebreak_list_loop gs' rv (line ++ s)
          | Raise e => Raise e
          end
      end
  end.

Definition linebreak_list (glyphs : list Glyph)
  : result value_error (list unicode) :=
  match linebreak_list_loop glyphs [] [] with
  | Ok (rv, line) => Ok (match line with [] => rv | _ => rv ++ [line] end)
  | Raise e => Raise e
  end.

(** The loop of [reverse_lines] on the state [(rv, block)]. *)
Definition reverse_step (st : list Glyph * list Glyph) (g : Glyph)
  : list Glyph * list Glyph :=
  let '(rv, block) := st in
  if bool_decide (split g = SPLIT_INSTEAD)
  then (rv ++ reverse block ++ [g], [])
  else (rv, block ++ [set_rtl true g]).

Definition reverse_lines (glyphs : list Glyph) : list Glyph :=
  let '(rv, block) := fold_left reverse_step glyphs ([], []) in
  rv ++ reverse block.

(** A glyph list cut at its split-instead markers: the blocks that end in a
    marker, each with its marker, and the block after the last marker. *)
Definition join_blocks (blocks : list (list Glyph * Glyph))
    (last : list Glyph) : list Glyph :=
  concat (map (λ bm, fst bm ++ [snd bm]) blocks) ++ last.

(** A block after [reverse_lines]: reversed and marked right-to-left, its
    marker untouched. *)
Definition mark_rtl (bm : list Glyph * Glyph) : list Glyph * Glyph :=
  (reverse (map (set_rtl true) bm.1), bm.2).

Definition no_marker (b : list Glyph) : Prop :=
  Forall (λ g, split g ≠ SPLIT_INSTEAD) b.

(** The lines of a glyph list as [linebreak_list] delimits them, keeping
    the elements instead of their characters: a split-instead element ends
    the line and is dropped, a split-before element ends the line and starts
    the next one. [cls] reads the split of an element. *)
Section Segmentation.

Context {A : Type} (cls : A → split_t).

Definition seg_step (st : list (list A) * list A) (a : A)
  : list (list A) * list A :=
  match cls a with
  | SPLIT_INSTEAD => (st.1 ++ [st.2], [])
  | SPLIT_BEFORE => (st.1 ++ [st.2], [a])
  | _ => (st.1, st.2 ++ [a])
  end.

Definition seg_close (st : list (list A) * list A) : list (list A) :=
  match st.2 with
  | [] => st.1
  | _ => st.1 ++ [st.2]
  end.

Definition seg_lines (l : list A) : list (list A) :=
  seg_close (fold_left seg_step l ([], [])).

End Segmentation.

(** What a glyph adds to the width of its line: ruby-top and alt-ruby glyphs
    add nothing. *)
Definition glyph_advance (g : Glyph) : Q :=
  if ruby_skipped g then 0%Q else advance g.

Definition line_advance (l : list Glyph) : Q :=
  fold_right (λ g s, (glyph_advance g + s)%Q) 0%Q l.

(** Glyphs that may hang at the end of a line without being counted. *)
Definition hanging (g : Glyph) : bool :=
  ruby_skipped g || bool_decide (split g = SPLIT_IGNORE).

(** A line without the hanging glyphs at its end. *)
Fixpoint drop_hanging (l : list Glyph) : list Glyph :=
  match l with
  | [] => []
  | g :: r =>
      match drop_hanging r with
      | [] => if hanging g then [] else [g]
      | r' => g :: r'
      end
  end.

(** The width budget of the [k]-th line. *)
Definition budget (first_width rest_width : Z) (k : nat) : Q :=
  match k with
  | O => inject_Z first_width
  | S _ => inject_Z rest_width
  end.

Definition is_candidate (s : split_t) : bool :=
  match s with
  | SPLIT_BEFORE | SPLIT_INSTEAD => true
  | _ => false
  end.

(** A glyph before and after the breaker: it carried a split opportunity
    and the breaker took it away. *)
Definition demoted (p : Glyph * Glyph) : bool :=
  is_candidate (split p.1) && bool_decide (split p.2 = SPLIT_NONE).

(** The classifiers leave no split on ruby-top and alt-ruby glyphs. *)
Definition classified (glyphs : list Glyph) : Prop :=
  Forall (λ g, ruby_skipped g = true → split g = SPLIT_NONE) glyphs.

(** A line without its last glyph. *)
Definition but_last (l : list Glyph) : list Glyph := take (length l - 1) l.

End Breaks.

(** ** The bookkeeping of the greedy breaker

    The breaker is followed on the list of pairs (glyph before the pass,
    glyph after the pass) of the positions it has visited. *)

Module Fit.

Import Greedy Breaks.

Abbreviation pair_split := (λ p : Glyph * Glyph, split p.2).

(** [x] is the width of the line up to its last counted glyph and [ign]
    the width deferred by the ignored glyphs after it. *)
Definition Acc (l : list Glyph) (x ign : Q) : Prop :=
  (x == line_advance (drop_hanging l))%Q ∧ (x + ign == line_advance l)%Q.

(** What one glyph does to [(x, ignored)]. *)
Definition acc_step (g : Glyph) (xi : Q * Q) : Q * Q :=
  if ruby_skipped g then xi
  else if bool_decide (split g = SPLIT_IGNORE) then (xi.1, (xi.2 + advance g)%Q)
  else ((xi.1 + (advance g + xi.2))%Q, 0%Q).

(** Line width only looks at the advance of a glyph and at whether it
    hangs. *)
Definition same_profile (g g' : Glyph) : Prop :=
  hanging g = hanging g' ∧ glyph_advance g = glyph_advance g'.

(** A line fits when it holds no demoted candidate or its counted width
    is within the budget. *)
Definition good_line (W : Q) (L : list (Glyph * Glyph)) : Prop :=
  (∃ p, p ∈ L ∧ demoted p = true) →
  (line_advance (drop_hanging L.*2) <= W)%Q.

(** Processed glyphs that were never split opportunities. *)
Definition plain (p : Glyph * Glyph) : Prop :=
  p.1 = p.2 ∧ is_candidate (split p.2) = false.

(** The pending candidate. *)
Definition pending (p : Glyph * Glyph) : Prop :=
  p.1 = p.2 ∧ is_candidate (split p.2) = true ∧ ruby_skipped p.2 = false.

(** The line that starts at a candidate once it is taken. *)
Definition new_line (pg : Glyph * Glyph) (Y : list (Glyph * Glyph))
  : list (Glyph * Glyph) :=
  match split pg.2 with
  | SPLIT_INSTEAD => Y
  | _ => pg :: Y
  end.

Definition demote_pair (pg : Glyph * Glyph) : Glyph * Glyph :=
  (pg.1, set_split SPLIT_NONE pg.2).

Section Ghost.

Variables first_width rest_width : Z.

Definition good_lines (Ls : list (list (Glyph * Glyph))) : Prop :=
∀ k L, Ls !! k = Some L → good_line (budget first_width rest_width k) L.

(** The processed prefix ends in an open line of budget [W]. *)
Definition Closed (ps : list (Glyph * Glyph)) (W x ign : Q) : Prop :=
∃ Ls A, fold_left (seg_step pair_split) ps ([], []) = (Ls, A)
  ∧ good_lines Ls ∧ W = budget first_width rest_width (length Ls)
  ∧ good_line W A ∧ Acc A.*2 x ign.

(** The same, and the open line holds no demoted candidate. *)
Definition GNone (ps : list (Glyph * Glyph)) (W x ign : Q) : Prop :=
∃ Ls A, fold_left (seg_step pair_split) ps ([], []) = (Ls, A)
  ∧ good_lines Ls ∧ W = budget first_width rest_width (length Ls)
  ∧ Forall (λ p, demoted p = false) A ∧ Acc A.*2 x ign.

(** A candidate at position [p] is pending. *)
Definition GSome (ps : list (Glyph * Glyph)) (p : nat) (W x splitx ign : Q)
: Prop :=
∃ X pg Y Ls A,
  ps = X ++ pg :: Y ∧ length X = p ∧ pending pg ∧ Forall plain Y
  ∧ fold_left (seg_step pair_split) X ([], []) = (Ls, A)
  ∧ good_lines Ls ∧ W = budget first_width rest_width (length Ls)
  ∧ good_line W A
  ∧ Acc (A ++ pg :: Y).*2 x ign
  ∧ Acc (new_line pg Y).*2 splitx ign.

(** The state after the glyphs before position [i]. *)
Definition Inv (glyphs : list Glyph) (i : nat) (st : greedy_state) : Prop :=
length (st_glyphs st) = length glyphs
∧ drop i (st_glyphs st) = drop i glyphs
∧ ∃ ps, ps.*1 = take i glyphs ∧ ps.*2 = take i (st_glyphs st)
    ∧ match st_split_g st with
      | None => GNone ps (st_width st) (st_x st) (st_ignored st)
      | Some p =>
          GSome ps p (st_width st) (st_x st) (st_splitx st) (st_ignored st)
      end.

End Ghost.

End Fit.

(** ** Timing *)

Module Timing.

(** The loop of [assign_times]: the glyphs with their times, and the final
    value of [t]. *)
Fixpoint assign_times_loop (tpg : Q) (t : Q) (gs : list Glyph)
  : Q * list Glyph :=
  match gs with
  | [] => (t, [])
  | g :: gs' =>
      if ruby_skipped g then
        let '(t', r) := assign_times_loop tpg t gs' in
        (t', set_time (-1)%Q g :: r)
      else
        let t := (t + tpg)%Q in
        let '(t', r) := assign_times_loop tpg t gs' in
        (t', set_duration tpg (set_time t g) :: r)
  end.

Definition assign_times (t gps : Q) (glyphs : list Glyph) : Q * list Glyph :=
  let tpg := if Qeq_bool gps 0 then 0%Q else (1 / gps)%Q in
  assign_times_loop tpg t glyphs.

(** [for g in line.glyphs: if g.time > max_time: max_time = g.time] *)
Definition max_time_step (max_time : Q) (g : Glyph) : Q :=
  if Greedy.Qgt_bool (time g) max_time then time g else max_time.

(** The loop of [max_times]: the lines with their [max_time], and the final
    value of [max_time]. *)
Fixpoint max_times_loop (max_time : Q) (l : list Line) : Q * list Line :=
  match l with
  | [] => (max_time, [])
  | line :: l' =>
      let max_time := fold_left max_time_step (glyphs line) max_time in
      let '(m, r) := max_times_loop max_time l' in
      (m, set_max_time max_time line :: r)
  end.

Definition max_times (l : list Line) : Q * list Line := max_times_loop 0%Q l.

(** The number of glyphs of a list that take a reveal time. *)
Definition timed_count (gs : list Glyph) : nat :=
  length (filter (λ g, ruby_skipped g = false) gs).

Definition nat_Q (n : nat) : Q := inject_Z (Z.of_nat n).

End Timing.

(** ** Alignment and justification *)

Module Align.

Definition SPACE : Z := 32.

(** The first loop over a line: [(spaces, max_x)]. *)
Definition measure_step (st : Z * Z) (g : Glyph) : Z * Z :=
  if ruby_skipped g then st
  else ((if (character g =? SPACE)%Z then st.1 + 1 else st.1)%Z,
        c_int (inject_Z (x g) + width g)).

Definition measure (gs : list Glyph) : Z * Z :=
  fold_left measure_step gs (0%Z, 0%Z).

(** The justification loop, threading [justify_offset]. *)
Fixpoint justify_loop (justify_per_space justify_offset : Q)
    (gs : list Glyph) : list Glyph :=
  match gs with
  | [] => []
  | g :: gs' =>
      if ruby_skipped g then
        g :: justify_loop justify_per_space justify_offset gs'
      else
        let justify_offset :=
          if (character g =? SPACE)%Z
          then (justify_offset + justify_per_space)%Q else justify_offset in
        set_x (x g + c_int justify_offset) g
          :: justify_loop justify_per_space justify_offset gs'
  end.

(** The alignment loop. *)
Definition shift_loop (offset : Z) (gs : list Glyph) : list Glyph :=
  map (λ g, if ruby_skipped g then g else set_x (x g + offset) g) gs.

(** The body of [for l in lines]. *)
Definition align_line (width : Z) (text_align : Q) (justify : bool)
    (l : Line) : Line :=
  let '(spaces, max_x) := measure (glyphs l) in
  if (max_x >=? MAX_WIDTH)%Z then l
  else if justify && negb (spaces =? 0)%Z && negb (eop l) then
    let justify_per_space :=
      (1 * inject_Z (width - max_x) / inject_Z spaces)%Q in
    set_glyphs (justify_loop justify_per_space (1 # 2) (glyphs l)) l
  else
    let offset := c_int (inject_Z (width - max_x) * text_align) in
    set_glyphs (shift_loop offset (glyphs l)) l.

Definition align_and_justify (lines : list Line) (width : Z)
    (text_align : Q) (justify : bool) : list Line :=
  if negb justify && Qeq_bool text_align 0 then lines
  else map (align_line width text_align justify) lines.

(** Not a space that justification counts. *)
Definition not_counted_space (g : Glyph) : Prop :=
  ruby_skipped g = true ∨ character g ≠ SPACE.

(** [S + 0.5] truncated toward zero, for an integer [S]. *)
Definition round_slack (S : Z) : Z := if (0 <=? S)%Z then S else (S + 1)%Z.

Definition shift_glyph (d : Z) (g : Glyph) : Glyph :=
  if ruby_skipped g then g else set_x (x g + d) g.

End Align.

(** ** Sample glyphs and lines *)

Module Samples.

(** A glyph as [__cinit__] leaves it, with the fields the shaper fills. *)
Definition glyph (c : Z) (s : split_t) (r : ruby_t) (adv : Q) : Glyph :=
  mkGlyph 0 0 0 c 0 s r 0 0 0 adv adv 0 0 false (-1) 0.

Definition letter (c : Z) : Glyph := glyph c SPLIT_NONE RUBY_NONE 1.
Definition space : Glyph := glyph 32 SPLIT_INSTEAD RUBY_NONE 1.
Definition closer : Glyph := glyph 41 SPLIT_IGNORE RUBY_NONE 1.

(** "a b c" *)
Definition a_b_c : list Glyph := [letter 97; space; letter 98; space; letter 99].

(** "a b)) c" *)
Definition a_b_closers_c : list Glyph :=
  [letter 97; space; letter 98; closer; closer; space; letter 99].

(** A placed glyph of ink width [w] at [gx], revealed at [t]. *)
Definition placed (c : Z) (r : ruby_t) (gx : Z) (w : Q) (t : Q) : Glyph :=
  mkGlyph gx 0 0 c 0 SPLIT_NONE r 0 0 0 w w t 0 false (-1) 0.

Definition line_of (gs : list Glyph) : Line := mkLine 0 0 0 gs 0 false.

(** "a b" placed at 0, 10 and 15, with a ruby-top glyph after it. *)
Definition placed_a_b : list Glyph :=
  [placed 97 RUBY_NONE 0 10 0; placed 32 RUBY_NONE 10 5 0;
   placed 98 RUBY_NONE 15 10 0; placed 12354 RUBY_TOP 15 5 0].

(** The table [break_tailor] before any call of [language_tailor]. *)
Definition untailored : Z → Z := λ _, BC_XX Classifier.sample_pxi.

End Samples.

(** ** Markup written back

    The inverse of the tokenizer when lenticular ruby is off: text with its
    braces doubled, a tag between braces, a paragraph break as a newline. *)

Module Unparse.

Import Tokenizer.

Fixpoint escape_braces (s : unicode) : unicode :=
  match s with
  | [] => []
  | c :: r =>
      if (c =? LBRACE)%Z then LBRACE :: LBRACE :: escape_braces r
      else c :: escape_braces r
  end.

Definition unparse_token (t : token) : unicode :=
  if (t.1 =? TEXT)%Z then escape_braces t.2
  else if (t.1 =? TAG)%Z then LBRACE :: t.2 ++ [RBRACE]
  else [NEWLINE].

Definition unparse (toks : list token) : unicode :=
  concat (map unparse_token toks).

(** What the scanner has read and not yet emitted. *)
Definition pending_text (state : tok_state) (buf : unicode) : unicode :=
  match state with
  | TEXT_STATE => escape_braces buf
  | LEFT_BRACE_STATE => escape_braces buf ++ [LBRACE]
  | TAG_STATE => LBRACE :: buf
  end.

(** The entries the tokenizer produces when lenticular ruby is off: a
    non-empty text run without newline, a non-empty tag body that starts
    with no brace and holds no closing brace, or a paragraph break. *)
Definition well_shaped (t : token) : Prop :=
  (t.1 = TEXT ∧ t.2 ≠ [] ∧ (NEWLINE ∉ t.2))
  ∨ (t.1 = TAG ∧ (RBRACE ∉ t.2)
     ∧ ∃ c r, t.2 = c :: r ∧ c ≠ LBRACE ∧ c ≠ RBRACE)
  ∨ t = (PARAGRAPH, []).

(** What the scanner keeps true of its buffer. *)
Definition buffer_ok (state : tok_state) (buf : unicode) : Prop :=
  match state with
  | TAG_STATE =>
      (RBRACE ∉ buf) ∧ ∃ c r, buf = c :: r ∧ c ≠ LBRACE ∧ c ≠ RBRACE
  | _ => NEWLINE ∉ buf
  end.

(** A base text of lenticular ruby: it holds no closing bracket and no
    bar, and does not start with an opening bracket. *)
Definition ruby_base (base : unicode) : Prop :=
  (LENT_CLOSE ∉ base) ∧ (FULLWIDTH_VBAR ∉ base) ∧ (VBAR ∉ base)
  ∧ (head base ≠ Some LENT_OPEN).

(** [rv0] put before the entries of a scanner state. *)
Definition lent_prepend (rv0 : list token)
    (st : lent_state * unicode * list token)
  : lent_state * unicode * list token :=
  (st.1.1, st.1.2, rv0 ++ st.2).

(** The entries of a ruby group. *)
Definition ruby_group (base reading : unicode) : list token :=
  [(TAG, str_rb); (TEXT, base); (TAG, str_end_rb);
   (TAG, str_rt); (TEXT, reading); (TAG, str_end_rt)].

(** A text run, when it is not empty. *)
Definition text_run (s : unicode) : list token :=
  if nonempty s then [(TEXT, s)] else [].

End Unparse.

(** ** The Western and the anywhere classifiers *)

Module Simple.

Definition ZWSP : Z := 8203. (* U+200B *)

(** The body of [for g in glyphs] of [annotate_western]. *)
Definition western_glyph (g : Glyph) : Glyph :=
  if bool_decide (ruby g ≠ RUBY_NONE) then g
  else if (character g =? 0)%Z then set_split SPLIT_BEFORE g
  else if (character g =? 32)%Z || (character g =? ZWSP)%Z
  then set_split SPLIT_INSTEAD g
  else set_split SPLIT_NONE g.

Definition annotate_western (glyphs : list Glyph) : list Glyph :=
  map western_glyph glyphs.

(** The body of [for g in glyphs] of [annotate_anywhere]. *)
Definition anywhere_glyph (g : Glyph) : Glyph :=
  if bool_decide (ruby g ≠ RUBY_NONE) then g
  else if (character g =? 32)%Z || (character g =? ZWSP)%Z
  then set_split SPLIT_INSTEAD g
  else set_split SPLIT_BEFORE g.

Definition annotate_anywhere (glyphs : list Glyph) : list Glyph :=
  map anywhere_glyph glyphs.

End Simple.

(** ** What the closing loop of [annotate_unicode] settles *)

Module Ruby.

(** The split of a ruby glyph after the classifier: none on ruby-top and
    alt-ruby glyphs, none on a ruby-bottom glyph whose predecessor [og] is
    ruby-bottom. *)
Definition ruby_settled (og g : Glyph) : Prop :=
  (ruby_skipped g = true → split g = SPLIT_NONE)
  ∧ (ruby g = RUBY_BOTTOM → ruby og = RUBY_BOTTOM → split g = SPLIT_NONE).

(** The glyphs before position [k] are settled, each against the glyph
    before it and the first against itself. *)
Definition settled_before (k : nat) (gs : list Glyph) : Prop :=
  ∀ i g og, i < k → gs !! i = Some g → gs !! (pred i) = Some og →
    ruby_settled og g.

End Ruby.

(** ** Copying splits and reading lines back *)

Module Copy.

Inductive index_error := list_index_out_of_range.

(** One iteration of [for i in range(len(dest))] of [copy_splits]. *)
Definition copy_step (source : list Glyph)
    (acc : result index_error (list Glyph)) (i : nat)
  : result index_error (list Glyph) :=
  match acc with
  | Raise e => Raise e
  | Ok dest =>
      match source !! i, dest !! i with
      | Some s, Some d => Ok (<[i := set_split (split s) d]> dest)
      | _, _ => Raise list_index_out_of_range
      end
  end.

Definition copy_splits (source dest : list Glyph)
  : result index_error (list Glyph) :=
  fold_left (copy_step source) (seq 0 (length dest)) (Ok dest).

(** The characters of the glyphs that are not split-instead markers. *)
Definition kept_characters (gs : list Glyph) : unicode :=
  map character (filter (λ g, split g ≠ SPLIT_INSTEAD) gs).

(** Nothing but the right-to-left flag of the glyphs that are not markers
    is changed. *)
Definition flag_rtl (g : Glyph) : Glyph :=
  if bool_decide (split g = SPLIT_INSTEAD) then g else set_rtl true g.

(** A block of text between two markers: no split-instead and no
    split-before in it. *)
Definition unbroken (b : list Glyph) : Prop :=
  Forall (λ g, Breaks.is_candidate (split g) = false) b.

(** [dest] with the splits of [source], position by position. *)
Definition with_splits (source dest : list Glyph) : list Glyph :=
  zip_with (λ s d, set_split (split s) d) source dest.

(** The breaker state while the whole text fits the first line. *)
Definition Fits (glyphs : list Glyph) (first_width : Z) (i : nat)
    (st : Greedy.greedy_state) : Prop :=
  Greedy.st_width st = inject_Z first_width
  ∧ (Greedy.st_x st + Greedy.st_ignored st
     == Breaks.line_advance (take i glyphs))%Q
  ∧ (0 <= Greedy.st_ignored st)%Q
  ∧ length (Greedy.st_glyphs st) = length glyphs
  ∧ drop i (Greedy.st_glyphs st) = drop i glyphs
  ∧ (∀ p, Greedy.st_split_g st = Some p → p < i)
  ∧ (∀ j g, Greedy.st_glyphs st !! j = Some g → j < i →
       ruby_skipped g = false → Breaks.is_candidate (split g) = true →
       Greedy.st_split_g st = Some j).

End Copy.

(** ** Glyph indices *)

Module Indexing.

(** The field [index] of a glyph is a C [short]: storing a value outside
    its range raises [OverflowError]. *)
Inductive overflow_error := value_too_large_to_convert_to_short.

Definition fits_short (z : Z) : bool := (-32768 <=? z)%Z && (z <=? 32767)%Z.

Definition set_index (v : Z) (g : Glyph) : Glyph :=
  mkGlyph (x g) (y g) (delta_x_adjustment g) (character g) (variation g)
    (split g) (ruby g) (ascent g) (descent g) (line_spacing g) (width g)
    (advance g) (time g) (hyperlink g) (rtl g) (duration g) v.

(** [g.time != -1] *)
Definition timed (g : Glyph) : bool := negb (Qeq_bool (time g) (-1)).

(** [assign_index]: the value returned and the glyphs with their indices. *)
Fixpoint assign_index (index : Z) (glyphs : list Glyph)
  : result overflow_error (Z * list Glyph) :=
  match glyphs with
  | [] => Ok (index, [])
  | g :: glyphs' =>
      if timed g then
        if fits_short index then
          match assign_index (index + 1) glyphs' with
          | Ok (i, r) => Ok (i, set_index index g :: r)
          | Raise e => Raise e
          end
        else Raise value_too_large_to_convert_to_short
      else
        match assign_index index glyphs' with
        | Ok (i, r) => Ok (i, g :: r)
        | Raise e => Raise e
        end
  end.

(** The number of glyphs of a list that [assign_index] numbers. *)
Definition indexed_count (gs : list Glyph) : Z :=
  Z.of_nat (length (filter (λ g, timed g = true) gs)).

End Indexing.

(** ** What alignment may change *)

Module Moves.

(** [g'] is [g] moved horizontally, and is [g] itself when [g] is a
    ruby-top or alt-ruby glyph. *)
Definition moved (g g' : Glyph) : Prop :=
  g' = set_x (x g') g ∧ (ruby_skipped g = true → g' = g).

(** [l'] is [l] with some of its glyphs moved horizontally. *)
Definition realigned (l l' : Line) : Prop :=
  l' = set_glyphs (glyphs l') l ∧ Forall2 moved (glyphs l) (glyphs l').

(** A space that justification counts. *)
Definition counted_space (g : Glyph) : bool :=
  negb (ruby_skipped g) && (character g =? Align.SPACE)%Z.

Definition spaces_in (gs : list Glyph) : Z :=
  Z.of_nat (length (filter (λ g, counted_space g = true) gs)).

End Moves.

(** ** Horizontal placement *)

Module Horizontal.

Definition set_advance (v : Q) (g : Glyph) : Glyph :=
  mkGlyph (x g) (y g) (delta_x_adjustment g) (character g) (variation g)
    (split g) (ruby g) (ascent g) (descent g) (line_spacing g) (width g)
    v (time g) (hyperlink g) (rtl g) (duration g) (index g).

Record place_state := mkPlace {
  pl_glyphs : list Glyph;
  pl_x : Q;
  pl_maxx : Q;
  pl_old_g : option nat
}.

(** [if g.split != SPLIT_NONE and old_g: old_g.advance = old_g.width] *)
Definition end_of_line (s : split_t) (old_g : option nat) (gs : list Glyph)
  : list Glyph :=
  match old_g with
  | Some j =>
      if bool_decide (s ≠ SPLIT_NONE)
      then alter (λ o, set_advance (width o) o) j gs else gs
  | None => gs
  end.

(** One iteration of [for g in glyphs]; [i] is the position of [g]. *)
Definition place_step (start_x rest_indent : Q) (st : place_state) (i : nat)
  : place_state :=
  match pl_glyphs st !! i with
  | None => st
  | Some g =>
      if ruby_skipped g then st
      else
        let g := if bool_decide (split g = SPLIT_IGNORE)
                 then set_split SPLIT_NONE g else g in
        let gs := end_of_line (split g) (pl_old_g st) (pl_glyphs st) in
        if bool_decide (split g = SPLIT_INSTEAD) then
          mkPlace (<[i := g]> gs) (start_x + rest_indent) (pl_maxx st)
            (pl_old_g st)
        else
          let x0 := if bool_decide (split g = SPLIT_BEFORE)
                    then (start_x + rest_indent)%Q else pl_x st in
          let g := set_x (c_int (x0 + (1 # 2))) g in
          let maxx := pl_maxx st in
          let maxx := if Greedy.Qgt_bool (x0 + width g) maxx
                      then (x0 + width g)%Q else maxx in
          let maxx := if Greedy.Qgt_bool (x0 + advance g) maxx
                      then (x0 + advance g)%Q else maxx in
          let x1 := (x0 + advance g)%Q in
          let x1 := if Greedy.Qgt_bool x1 (inject_Z MAX_WIDTH)
                    then inject_Z MAX_WIDTH else x1 in
          mkPlace (<[i := g]> gs) x1 maxx (Some i)
  end.

Definition place_init (glyphs : list Glyph) (start_x first_indent : Q)
  : place_state :=
  mkPlace glyphs (start_x + first_indent) 0 None.

Definition place_loop (glyphs : list Glyph)
    (start_x first_indent rest_indent : Q) : place_state :=
  fold_left (place_step start_x rest_indent) (seq 0 (length glyphs))
    (place_init glyphs start_x first_indent).

(** [place_horizontal]: the value returned and the glyphs as it leaves
    them. *)
Definition place_horizontal (glyphs : list Glyph)
    (start_x first_indent rest_indent : Q) : Q * list Glyph :=
  match glyphs with
  | [] => (0%Q, [])
  | _ =>
      let st := place_loop glyphs start_x first_indent rest_indent in
      (pl_maxx st, pl_glyphs st)
  end.

(** The split of a glyph once [SPLIT_IGNORE] is cleared. *)
Definition cleared (s : split_t) : split_t :=
  match s with SPLIT_IGNORE => SPLIT_NONE | _ => s end.

(** A glyph that takes room on its line: neither ruby-top, alt-ruby nor a
    split-instead marker. *)
Definition takes_room (g : Glyph) : bool :=
  negb (ruby_skipped g) && negb (bool_decide (split g = SPLIT_INSTEAD)).

(** What the pass may do to a glyph: nothing to a ruby-top or alt-ruby one;
    to another, clear [SPLIT_IGNORE], set [x], and replace the advance by
    the width. *)
Definition laid_out (g g' : Glyph) : Prop :=
  if ruby_skipped g then g' = g
  else g' = set_advance (advance g') (set_x (x g') (set_split (split g') g))
       ∧ split g' = cleared (split g)
       ∧ (advance g' = advance g ∨ advance g' = width g).

(** A glyph an iteration of the loop does not visit: left as it is, or its
    advance replaced by its width. *)
Definition trimmed (g g' : Glyph) : Prop :=
  g' = g ∨ g' = set_advance (width g) g.

(** The state before the iteration at position [k]: the glyphs before [k]
    are laid out, the others are as they were, and [old_g] is the last
    glyph before [k] that takes room. *)
Definition Placing (glyphs : list Glyph) (k : nat) (st : place_state) : Prop :=
  length (pl_glyphs st) = length glyphs
  ∧ (∀ i g, glyphs !! i = Some g →
       ∃ g', pl_glyphs st !! i = Some g'
         ∧ if bool_decide (i < k) then laid_out g g' else g' = g)
  ∧ match pl_old_g st with
    | Some j =>
        j < k
        ∧ (∃ gj, glyphs !! j = Some gj ∧ takes_room gj = true)
        ∧ ∀ m gm, j < m < k → glyphs !! m = Some gm → takes_room gm = false
    | None => ∀ m gm, m < k → glyphs !! m = Some gm → takes_room gm = false
    end.

(** With it: the pen is not negative, and the width found so far covers
    the glyphs placed so far, up to the rounding of their positions. *)
Definition Covering (k : nat) (st : place_state) : Prop :=
  (0 <= pl_x st)%Q ∧ (0 <= pl_maxx st)%Q
  ∧ ∀ i g', i < k → pl_glyphs st !! i = Some g' → takes_room g' = true →
      (0 <= x g')%Z
      ∧ (inject_Z (x g') + width g' <= pl_maxx st + (1 # 2))%Q.

(** With it: the pen is not beyond the maximum width, and neither is a
    glyph placed so far. *)
Definition Bounded (k : nat) (st : place_state) : Prop :=
  (pl_x st <= inject_Z MAX_WIDTH)%Q
  ∧ ∀ i g', i < k → pl_glyphs st !! i = Some g' → takes_room g' = true →
      (x g' <= MAX_WIDTH)%Z.

End Horizontal.

(** ** Vertical placement *)

Module Vertical.

Definition set_y (v : Z) (g : Glyph) : Glyph :=
  mkGlyph (x g) v (delta_x_adjustment g) (character g) (variation g)
    (split g) (ruby g) (ascent g) (descent g) (line_spacing g) (width g)
    (advance g) (time g) (hyperlink g) (rtl g) (duration g) (index g).

Definition set_ascent (v : Z) (g : Glyph) : Glyph :=
  mkGlyph (x g) (y g) (delta_x_adjustment g) (character g) (variation g)
    (split g) (ruby g) v (descent g) (line_spacing g) (width g)
    (advance g) (time g) (hyperlink g) (rtl g) (duration g) (index g).

Definition set_eop (v : bool) (l : Line) : Line :=
  mkLine (line_y l) (baseline l) (height l) (glyphs l) (max_time l) v.

Record vertical_state := mkVertical {
  vt_glyphs : list Glyph;
  vt_y : Z;
  vt_sol : nat;
  vt_ascent : Z;
  vt_line_spacing : Z;
  vt_rv : list Line;
  vt_broke : bool
}.

(** The body of the first [for i in range(sol, pos)], on the glyphs and
    [has_ruby]. *)
Definition settle_step (y0 asc : Z) (acc : list Glyph * bool) (i : nat)
  : list Glyph * bool :=
  match acc.1 !! i with
  | None => acc
  | Some gg =>
      if ruby_skipped gg then (acc.1, true)
      else if (ascent gg =? 0)%Z
      then (<[i := set_ascent asc (set_y y0 gg)]> acc.1, acc.2)
      else (<[i := set_y (y0 + asc) gg]> acc.1, acc.2)
  end.

(** The body of the second [for i in range(sol, pos)]. *)
Definition lift_step (ruby_line_leading : Z) (gs : list Glyph) (i : nat)
  : list Glyph :=
  match gs !! i with
  | None => gs
  | Some gg =>
      if ruby_skipped gg then gs
      else <[i := set_y (y gg + ruby_line_leading) gg]> gs
  end.

(** The block [if end_line:] up to [line_spacing = 0], at position [pos]. *)
Definition end_line (spacing leading ruby_line_leading : Z) (pos : nat)
    (st : vertical_state) : vertical_state :=
  let range := seq (vt_sol st) (pos - vt_sol st) in
  let '(gs, has_ruby) :=
    fold_left (settle_step (vt_y st) (vt_ascent st)) range
      (vt_glyphs st, false) in
  let line_leading :=
    if has_ruby then (leading + ruby_line_leading)%Z else leading in
  let y1 := if has_ruby then (vt_y st + ruby_line_leading)%Z else vt_y st in
  let gs := if has_ruby then fold_left (lift_step ruby_line_leading) range gs
            else gs in
  let l := mkLine (y1 - line_leading) (y1 + vt_ascent st)
             (line_leading + vt_line_spacing st + spacing)
             (take (pos - vt_sol st) (drop (vt_sol st) gs)) 0 false in
  mkVertical gs (y1 + vt_line_spacing st + spacing + leading) pos 0 0
    (vt_rv st ++ [l]) (vt_broke st).

(** One iteration of [while True] with [pos < len_glyphs]: every such
    iteration that does not leave the loop adds one to [pos]. *)
Definition vertical_step (spacing leading ruby_line_leading : Z)
    (len_glyphs : nat) (st : vertical_state) (pos : nat) : vertical_state :=
  if vt_broke st then st
  else
    match vt_glyphs st !! pos with
    | None => st
    | Some g =>
        let st1 := if bool_decide (split g ≠ SPLIT_NONE)
                   then end_line spacing leading ruby_line_leading pos st
                   else st in
        match vt_glyphs st1 !! pos with
        | None => st1
        | Some g =>
            if bool_decide (split g ≠ SPLIT_NONE)
               && bool_decide (split g = SPLIT_INSTEAD)
            then
              mkVertical (vt_glyphs st1) (vt_y st1) (S (vt_sol st1))
                (vt_ascent st1) (vt_line_spacing st1) (vt_rv st1)
                (len_glyphs <=? S pos)
            else
              mkVertical (vt_glyphs st1) (vt_y st1) (vt_sol st1)
                (if (vt_ascent st1 <? ascent g)%Z
                 then ascent g else vt_ascent st1)
                (if (vt_line_spacing st1 <? line_spacing g)%Z
                 then line_spacing g else vt_line_spacing st1)
                (vt_rv st1) false
        end
    end.

(** [rv[-1]] raises [IndexError] on an empty list. *)
Inductive index_error := list_index_out_of_range.

(** [rv[-1].eop = True] *)
Definition mark_eop (rv : list Line) : result index_error (list Line) :=
  match rv with
  | [] => Raise list_index_out_of_range
  | _ => Ok (alter (set_eop true) (length rv - 1) rv)
  end.

(** [place_vertical]: the glyphs as it leaves them, the lines and the [y]
    it returns. The last iteration of [while True] is at
    [pos = len_glyphs], unless the loop was left at a split-instead glyph
    that is the last glyph; it ends the line and leaves the loop. *)
Definition place_vertical (glyphs : list Glyph)
    (y0 spacing leading ruby_line_leading : Z)
  : result index_error (list Glyph * list Line * Z) :=
  match glyphs with
  | [] => Ok ([], [], y0)
  | _ =>
      let len_glyphs := length glyphs in
      let st :=
        fold_left (vertical_step spacing leading ruby_line_leading len_glyphs)
          (seq 0 len_glyphs)
          (mkVertical glyphs (y0 + leading) 0 0 0 [] false) in
      let st := if vt_broke st then st
                else end_line spacing leading ruby_line_leading len_glyphs st in
      match mark_eop (vt_rv st) with
      | Ok rv => Ok (vt_glyphs st, rv, (vt_y st - leading)%Z)
      | Raise e => Raise e
      end
  end.

(** Lines stacked from [top] down to [bottom] without gap or overlap. *)
Fixpoint stacked (top : Z) (ls : list Line) (bottom : Z) : Prop :=
  match ls with
  | [] => top = bottom
  | l :: ls' => line_y l = top ∧ stacked (top + height l)%Z ls' bottom
  end.

(** What the two loops over a line do to one of its glyphs. *)
Definition settle_glyph (y0 asc : Z) (gg : Glyph) : Glyph :=
  if ruby_skipped gg then gg
  else if (ascent gg =? 0)%Z then set_ascent asc (set_y y0 gg)
  else set_y (y0 + asc) gg.

Definition lift_glyph (ruby_line_leading : Z) (gg : Glyph) : Glyph :=
  if ruby_skipped gg then gg else set_y (y gg + ruby_line_leading) gg.

(** What [end_line] does to a glyph of the line it ends at [pos]. *)
Definition line_glyph (ruby_line_leading : Z) (st : vertical_state)
    (pos : nat) (g : Glyph) : Glyph :=
  let has_ruby :=
    existsb ruby_skipped
      (take (pos - vt_sol st) (drop (vt_sol st) (vt_glyphs st))) in
  let g := settle_glyph (vt_y st) (vt_ascent st) g in
  if has_ruby then lift_glyph ruby_line_leading g else g.

(** [g'] is [g] but for [y] and [ascent]. *)
Definition replaced (g g' : Glyph) : Prop :=
  g' = set_ascent (ascent g') (set_y (y g') g).

(** A glyph of the line [l] that is neither ruby-top nor alt-ruby is on the
    baseline of [l], or hangs from the top of the text of [l] by the ascent
    it was given. *)
Definition on_baseline (l : Line) (g : Glyph) : Prop :=
  ruby_skipped g = false →
  y g = baseline l ∨ (y g + ascent g)%Z = baseline l.

(** The lines made so far are stacked from [y0] down to the top of the
    line being made, none of them ends a paragraph, and the loop was left
    only after a line was made. *)
Definition Stacking (y0 leading : Z) (st : vertical_state) : Prop :=
  stacked y0 (vt_rv st) (vt_y st - leading)
  ∧ Forall (λ l, eop l = false) (vt_rv st)
  ∧ (vt_broke st = true → vt_rv st ≠ []).

(** The state before the iteration at position [k]: the lines made so far
    hold the glyphs before [sol] that are not split-instead markers, the
    line being made holds no marker, and only [y] and [ascent] of a glyph
    have been written. *)
Definition Lining (input : list Glyph) (k : nat) (st : vertical_state)
  : Prop :=
  length (vt_glyphs st) = length input
  ∧ vt_sol st ≤ k
  ∧ Forall2 replaced input (vt_glyphs st)
  ∧ concat (map glyphs (vt_rv st))
    = filter (λ g, split g ≠ SPLIT_INSTEAD)
        (take (vt_sol st) (vt_glyphs st))
  ∧ Forall (λ g, split g ≠ SPLIT_INSTEAD)
      (take (k - vt_sol st) (drop (vt_sol st) (vt_glyphs st)))
  ∧ Forall (λ l, Forall (on_baseline l) (glyphs l)) (vt_rv st)
  ∧ (vt_broke st = true → vt_sol st = length input).

End Vertical.

(** ** Hyperlink areas *)

Module Links.

(** The tuple [(hyperlink, x, y, w, h, valid_st)]. *)
Record area := mkArea {
  area_hyperlink : Z;
  area_x : Z;
  area_y : Z;
  area_w : Z;
  area_h : Z;
  area_st : Q
}.

Record link_state := mkLink {
  lk_hyperlink : Z;
  lk_time : Q;
  lk_max_x : Z;
  lk_min_x : Z;
  lk_rv : list area
}.

(** [rv.append((hyperlink, min_x, line.y, max_x - min_x, line.height,
    hyperlink_time))] *)
Definition emit (line : Line) (st : link_state) : list area :=
  lk_rv st
  ++ [mkArea (lk_hyperlink st) (lk_min_x st) (line_y line)
        (lk_max_x st - lk_min_x st) (height line) (lk_time st)].

(** One iteration of [while pos < len_gl], at the glyph [g]. *)
Definition area_step (line : Line) (st : link_state) (g : Glyph)
  : link_state :=
  let st :=
    if negb (lk_hyperlink st =? 0)%Z
       && negb (hyperlink g =? lk_hyperlink st)%Z
    then mkLink 0 86400 0 1000000 (emit line st) else st in
  if negb (hyperlink g =? 0)%Z then
    let min_x := if (x g <? lk_min_x st)%Z then x g else lk_min_x st in
    let max_x :=
      if Greedy.Qgt_bool (inject_Z (x g) + width g) (inject_Z (lk_max_x st))
      then (x g + c_int (width g))%Z else lk_max_x st in
    let t := if Greedy.Qgt_bool (time g) (lk_time st)
             then lk_time st else time g in
    mkLink (hyperlink g) t max_x min_x (lk_rv st)
  else
    mkLink (hyperlink g) (lk_time st) (lk_max_x st) (lk_min_x st) (lk_rv st).

(** The body of [for line in l]. *)
Definition line_areas (rv : list area) (line : Line) : list area :=
  let st := fold_left (area_step line) (glyphs line)
              (mkLink 0 86400 0 1000000 rv) in
  if negb (lk_hyperlink st =? 0)%Z then emit line st else lk_rv st.

Definition hyperlink_areas (l : list Line) : list area :=
  fold_left line_areas l [].

(** The runs of equal hyperlinks in the hyperlinks of the glyphs of a line,
    the run of [current] being open: one entry for each run that is not of
    0. *)
Fixpoint link_runs (current : Z) (hs : list Z) : list Z :=
  match hs with
  | [] => if (current =? 0)%Z then [] else [current]
  | h :: hs' =>
      (if negb (current =? 0)%Z && negb (h =? current)%Z
       then [current] else [])
      ++ link_runs h hs'
  end.

(** An area as to its hyperlink and the line it is on. *)
Definition area_of (line : Line) (h : Z) : Z * Z * Z :=
  (h, line_y line, height line).

Definition area_place (a : area) : Z * Z * Z :=
  (area_hyperlink a, area_y a, area_h a).

(** The glyph [g] lies in the area [a] and is shown no sooner. *)
Definition covered (a : area) (g : Glyph) : Prop :=
  (area_x a <= x g)%Z
  ∧ (x g + c_int (width g) <= area_x a + area_w a)%Z
  ∧ (area_st a <= time g)%Q.

(** The state while a line of glyphs of one hyperlink [h] is read, [seen]
    being the glyphs read. *)
Definition Linked (h : Z) (rv : list area) (seen : list Glyph)
    (st : link_state) : Prop :=
  lk_rv st = rv
  ∧ lk_hyperlink st = (if seen is [] then 0%Z else h)
  ∧ Forall (λ g, (lk_min_x st <= x g)%Z
                 ∧ (x g + c_int (width g) <= lk_max_x st)%Z
                 ∧ (lk_time st <= time g)%Q) seen.

End Links.

(** * Properties *)

Section TokenizerFacts.

Import Tokenizer.

Variable cfg : bool.

(** "a{b}b{/b}c" *)
Example tokenize_tags :
  tokenize cfg [97; 123; 98; 125; 98; 123; 47; 98; 125; 99]%Z
  = Ok [(TEXT, [97]); (TAG, [98]); (TEXT, [98]); (TAG, [47; 98]);
        (TEXT, [99])]%Z.
Proof. reflexivity. Qed.

(** "a", newline, "b" *)
Example tokenize_paragraph :
  tokenize cfg [97; 10; 98]%Z
  = Ok [(TEXT, [97]%Z); (PARAGRAPH, []); (TEXT, [98]%Z)].
Proof. reflexivity. Qed.

(** "{{x}" is the literal text "{x}". *)
Example tokenize_escape :
  tokenize cfg [123; 123; 120; 125]%Z = Ok [(TEXT, [123; 120; 125]%Z)].
Proof. reflexivity. Qed.

(** "{}" and "a{b" *)
Example tokenize_defects :
  tokenize cfg [123; 125]%Z = Raise (Empty_text_tag [123; 125]%Z)
  ∧ tokenize cfg [97; 123; 98]%Z = Raise (Open_text_tag [97; 123; 98]%Z).
Proof. split; reflexivity. Qed.

Lemma nonempty_true (s : unicode) : nonempty s = true ↔ s ≠ [].
Proof. destruct s; simpl; split; congruence. Qed.

Lemma contains_false (c : Z) (s : unicode) : contains c s = false ↔ c ∉ s.
Proof. unfold contains. apply bool_decide_eq_false. Qed.

Lemma contains_true (c : Z) (s : unicode) : contains c s = true ↔ c ∈ s.
Proof. unfold contains. apply bool_decide_eq_true. Qed.

Lemma tok_loop_app (a b : unicode) st :
  tok_loop cfg (a ++ b) st =
  match tok_loop cfg a st with
  | None => None
  | Some st' => tok_loop cfg b st'
  end.
Proof.
  revert st. induction a as [|c a IH]; intros st; simpl; [done|].
  destruct (tok_step cfg st c); [apply IH | done].
Qed.

(** Inside a tag every character but the closing brace is kept. *)
Lemma tok_loop_tag_body (body buf : unicode) rv :
  RBRACE ∉ body →
  tok_loop cfg body (TAG_STATE, buf, rv) = Some (TAG_STATE, buf ++ body, rv).
Proof.
  revert buf. induction body as [|c body IH]; intros buf Hnot; simpl.
  - by rewrite app_nil_r.
  - apply not_elem_of_cons in Hnot as [Hc Hbody].
    destruct (Z.eqb_spec c RBRACE) as [->|_]; [done|].
    rewrite IH by done. by rewrite <- app_assoc.
Qed.

(** Complete markup brings the scanner back to the text state. *)
Lemma tok_loop_complete (p : unicode) :
  complete p → ∀ buf rv, ∃ buf' rv',
    tok_loop cfg p (TEXT_STATE, buf, rv) = Some (TEXT_STATE, buf', rv').
Proof.
  induction 1 as [|c r Hc _ IH|r _ IH|c body r Hc1 Hc2 Hbody _ IH];
    intros buf rv.
  - by exists buf, rv.
  - simpl. destruct (Z.eqb_spec c NEWLINE) as [_|_]; [apply IH|].
    destruct (Z.eqb_spec c LBRACE) as [?|_]; [done | apply IH].
  - simpl. apply IH.
  - cbn [tok_loop tok_step]. change (LBRACE =? NEWLINE)%Z with false.
    change (LBRACE =? LBRACE)%Z with true. cbn match. unfold tok_step.
    destruct (Z.eqb_spec c LBRACE) as [?|_]; [done|].
    destruct (Z.eqb_spec c RBRACE) as [?|_]; [done|].
    rewrite tok_loop_app, tok_loop_tag_body by done.
    cbn [tok_loop tok_step]. change (RBRACE =? RBRACE)%Z with true.
    cbn match. apply IH.
Qed.

Lemma tok_loop_empty_tag (r buf : unicode) rv :
  tok_loop cfg (LBRACE :: RBRACE :: r) (TEXT_STATE, buf, rv) = None.
Proof. reflexivity. Qed.

Lemma tok_loop_unclosed (b buf : unicode) rv :
  RBRACE ∉ b → head b ≠ Some LBRACE →
  ∃ st buf' rv',
    tok_loop cfg (LBRACE :: b) (TEXT_STATE, buf, rv) = Some (st, buf', rv')
    ∧ st ≠ TEXT_STATE.
Proof.
  intros Hnot Hhead. destruct b as [|c b].
  - by exists LEFT_BRACE_STATE, buf, rv.
  - apply not_elem_of_cons in Hnot as [Hc Hb].
    cbn [tok_loop tok_step]. change (LBRACE =? NEWLINE)%Z with false.
    change (LBRACE =? LBRACE)%Z with true. cbn match. unfold tok_step.
    destruct (Z.eqb_spec c LBRACE) as [->|_]; [by destruct Hhead|].
    destruct (Z.eqb_spec c RBRACE) as [?|_]; [done|].
    rewrite tok_loop_tag_body by done. eauto.
Qed.

Lemma complete_app (p q : unicode) :
  complete p → complete q → complete (p ++ q).
Proof.
  intros Hp Hq. induction Hp as [|c r Hc _ IH|r _ IH|c body r ? ? ? _ IH].
  - done.
  - simpl. by constructor.
  - simpl. by constructor.
  - replace ((LBRACE :: c :: body ++ RBRACE :: r) ++ q)
      with (LBRACE :: c :: body ++ RBRACE :: (r ++ q)).
    + by constructor.
    + simpl. by rewrite <- app_assoc.
Qed.

Lemma complete_no_brace (s : unicode) : LBRACE ∉ s → complete s.
Proof.
  induction s as [|c s IH]; intros Hnot; [constructor|].
  apply not_elem_of_cons in Hnot as [? ?]. constructor; auto.
Qed.

Lemma markup_cases_prepend (p r : unicode) :
  complete p →
  complete r ∨ has_empty_tag r ∨ has_unclosed_tag r →
  complete (p ++ r) ∨ has_empty_tag (p ++ r) ∨ has_unclosed_tag (p ++ r).
Proof.
  intros Hp [Hr|[(q & t & Hq & ->)|(q & b & Hq & -> & Hb & Hh)]].
  - left. by apply complete_app.
  - right; left. exists (p ++ q), t. split; [by apply complete_app|].
    by rewrite <- app_assoc.
  - right; right. exists (p ++ q), b. split; [by apply complete_app|].
    by rewrite <- app_assoc.
Qed.

(** Every string is complete markup, or shows one of the two defects. *)
Lemma markup_cases (s : unicode) :
  complete s ∨ has_empty_tag s ∨ has_unclosed_tag s.
Proof.
  remember (length s) as n eqn:Hn. revert s Hn.
  induction n as [n IH] using lt_wf_ind. intros s ->.
  destruct s as [|c r]; [left; constructor|].
  destruct (decide (c = LBRACE)) as [->|Hc].
  2:{ apply (markup_cases_prepend [c] r).
      - constructor; [done | constructor].
      - apply (IH (length r)); simpl; [lia | done]. }
  destruct r as [|d r].
  { right; right. exists [], [].
    split; [constructor|]. split; [done|]. split; [apply not_elem_of_nil|done]. }
  destruct (decide (d = LBRACE)) as [->|Hd1].
  { apply (markup_cases_prepend [LBRACE; LBRACE] r).
    - apply complete_escape, complete_nil.
    - apply (IH (length r)); simpl; [lia | done]. }
  destruct (decide (d = RBRACE)) as [->|Hd2].
  { right; left. exists [], r. split; [constructor | done]. }
  destruct (decide (RBRACE ∈ r)) as [Hin|Hnot].
  - apply list_elem_of_split_l in Hin as (body & r2 & -> & Hbody).
    replace (LBRACE :: d :: body ++ RBRACE :: r2)
      with ((LBRACE :: d :: body ++ [RBRACE]) ++ r2)
      by (simpl; by rewrite <- app_assoc).
    apply markup_cases_prepend.
    + apply (complete_tag d body []); try done. constructor.
    + apply (IH (length r2)); [|done].
      simpl. rewrite length_app. simpl. lia.
  - right; right. exists [], (d :: r).
    split; [constructor|]. split; [done|].
    split; [by apply not_elem_of_cons|]. simpl. congruence.
Qed.

(** C3 (amended). For every non-empty string that contains none of the
    characters '{', newline and the opening lenticular bracket, [tokenize]
    returns exactly one entry, [(TEXT, s)], whose text is the input. *)
Theorem tokenize_plain_text (s : unicode) :
  s ≠ [] → LBRACE ∉ s → NEWLINE ∉ s → LENT_OPEN ∉ s →
  tokenize cfg s = Ok [(TEXT, s)].
Proof.
  intros Hne H1 H2 H3. unfold tokenize.
  apply nonempty_true in Hne. rewrite Hne.
  apply contains_false in H1, H2, H3. by rewrite H1, H2, H3.
Qed.

Lemma tokenize_raises_iff_loop (s : unicode) :
  (∃ e, tokenize cfg s = Raise e) ↔
  (LBRACE ∈ s ∧
   ∀ buf rv, tok_loop cfg s (TEXT_STATE, [], []) ≠ Some (TEXT_STATE, buf, rv)).
Proof.
  unfold tokenize. destruct (nonempty s) eqn:Hne.
  2:{ destruct s; [|done]. simpl. split; [intros [e He]; done|].
      intros [Hin _]. by apply elem_of_nil in Hin. }
  cbn [negb].
  destruct (contains LBRACE s) eqn:HL.
  2:{ apply contains_false in HL. split.
      - intros [e He].
        destruct (contains NEWLINE s), (contains LENT_OPEN s);
          cbn [negb andb] in He; try done.
        all: exfalso.
        all: destruct (tok_loop_complete s (complete_no_brace s HL) [] [])
          as (b & r & Hl).
        all: rewrite Hl in He; by destruct (nonempty b).
      - by intros [Hin _]. }
  apply contains_true in HL. cbn [negb andb].
  destruct (tok_loop cfg s (TEXT_STATE, [], [])) as [[[st b] r]|] eqn:Hl.
  - destruct st.
    + split; [intros [e He]; done|]. intros [_ Hno]. by destruct (Hno b r).
    + split; [|eauto]. intros _. split; [done|]. congruence.
    + split; [|eauto]. intros _. split; [done|]. congruence.
  - split; [|eauto]. intros _. split; [done|]. congruence.
Qed.

(** C4. [tokenize] raises a markup error if and only if the input contains a
    tag that is opened with '{' and never closed by '}' before the end of the
    input, or contains an empty tag "{}"; on every other input it returns
    normally, and the empty input yields the empty sequence. *)
Theorem tokenize_raises_iff (s : unicode) :
  ((∃ e, tokenize cfg s = Raise e) ↔ has_unclosed_tag s ∨ has_empty_tag s)
  ∧ (¬ (has_unclosed_tag s ∨ has_empty_tag s) →
     ∃ toks, tokenize cfg s = Ok toks)
  ∧ tokenize cfg [] = Ok [].
Proof.
  assert (Hiff : (∃ e, tokenize cfg s = Raise e)
                 ↔ has_unclosed_tag s ∨ has_empty_tag s).
  { rewrite tokenize_raises_iff_loop. split.
    - intros [_ Hloop].
      destruct (markup_cases s) as [Hc|[He|Hu]]; [|by right|by left].
      destruct (tok_loop_complete s Hc [] []) as (b & r & Hl).
      by destruct (Hloop b r).
    - intros [(p & b & Hp & -> & Hb & Hh)|(p & r & Hp & ->)].
      + split; [apply elem_of_app; right; constructor|].
        intros buf rv. rewrite tok_loop_app.
        destruct (tok_loop_complete p Hp [] []) as (b1 & r1 & ->).
        destruct (tok_loop_unclosed b b1 r1 Hb Hh) as (st & b2 & r2 & -> & Hst).
        congruence.
      + split; [apply elem_of_app; right; constructor|].
        intros buf rv. rewrite tok_loop_app.
        destruct (tok_loop_complete p Hp [] []) as (b1 & r1 & ->).
        by rewrite tok_loop_empty_tag. }
  split; [done|]. split; [|done].
  intros Hnot. destruct (tokenize cfg s) as [toks|e] eqn:Ht; [eauto|].
  destruct Hnot. apply Hiff. eauto.
Qed.

End TokenizerFacts.

(** The empty string contains none of the three characters and yields no
    entry at all. *)
Lemma tokenize_empty_counterexample :
  Tokenizer.contains Tokenizer.LBRACE [] = false
  ∧ Tokenizer.contains Tokenizer.NEWLINE [] = false
  ∧ Tokenizer.contains Tokenizer.LENT_OPEN [] = false
  ∧ Tokenizer.tokenize false [] = Ok []
  ∧ Tokenizer.tokenize false [] ≠ Ok [(Tokenizer.TEXT, [])].
Proof. split_and!; try reflexivity. discriminate. Qed.

Lemma tokenize_plain_text_witness :
  Tokenizer.tokenize false [104; 105]%Z
  = Ok [(Tokenizer.TEXT, [104; 105]%Z)].
Proof.
apply tokenize_plain_text; [discriminate|..]; apply contains_false; reflexivity.
Defined.

Lemma tokenize_raises_iff_witness :
  ∃ e, Tokenizer.tokenize false [97; 123; 98]%Z = Raise e.
Proof.
apply (proj2 (proj1 (tokenize_raises_iff false [97; 123; 98]%Z))).
left. exists [97]%Z, [98]%Z. split_and!.
- apply Tokenizer.complete_char; [discriminate|constructor].
- reflexivity.
- apply contains_false. reflexivity.
- discriminate.
Defined.


Section BreaksFacts.

Import Breaks.

Lemma chr_valid (g : Glyph) :
  valid_code_point g → chr (character g) = Ok [character g].
Proof.
  intros [H1 H2]. unfold chr.
  destruct (Z.leb_spec 0 (character g)); [|lia].
  destruct (Z.leb_spec (character g) 1114111); [done|lia].
Qed.

Lemma linebreak_list_loop_nobreak (gs : list Glyph) rv line :
  Forall valid_code_point gs →
  linebreak_list_loop (linebreak_nobreak gs) rv line
  = Ok (rv, line ++ concat (map (λ g, [character g]) gs)).
Proof.
  intros Hvalid. revert line.
  induction Hvalid as [|g gs Hg _ IH]; intros line; simpl.
  - by rewrite app_nil_r.
  - rewrite (chr_valid g Hg), IH. by rewrite <- app_assoc.
Qed.

(** C6 (amended). For every non-empty glyph list whose characters are code
    points, [linebreak_nobreak] followed by [linebreak_list] returns a
    single-element list whose element is the concatenation of the
    characters of all the glyphs. *)
Theorem nobreak_list_single_line (gs : list Glyph) :
  gs ≠ [] → Forall valid_code_point gs →
  linebreak_list (linebreak_nobreak gs)
  = Ok [concat (map (λ g, [character g]) gs)].
Proof.
  intros Hne Hvalid. unfold linebreak_list.
  rewrite linebreak_list_loop_nobreak by done.
  destruct gs as [|g gs]; [done|]. reflexivity.
Qed.

Lemma join_blocks_snoc blocks b m :
  join_blocks (blocks ++ [(b, m)]) [] = join_blocks blocks (b ++ [m]).
Proof.
  unfold join_blocks. rewrite map_app, concat_app. simpl.
  by rewrite !app_nil_r.
Qed.

Lemma join_blocks_last blocks last g :
  join_blocks blocks (last ++ [g]) = join_blocks blocks last ++ [g].
Proof. unfold join_blocks. by rewrite app_assoc. Qed.

Lemma reverse_lines_fold (gs : list Glyph) :
  ∃ blocks last,
    gs = join_blocks blocks last
    ∧ Forall (λ bm, no_marker bm.1 ∧ split bm.2 = SPLIT_INSTEAD) blocks
    ∧ no_marker last
    ∧ fold_left reverse_step gs ([], [])
      = (join_blocks (map mark_rtl blocks) [], map (set_rtl true) last).
Proof.
  induction gs as [|g gs IH] using rev_ind.
  - exists [], []. repeat split; constructor.
  - destruct IH as (blocks & last & -> & Hblocks & Hlast & Hfold).
    rewrite fold_left_app, Hfold. cbn [fold_left]. unfold reverse_step.
    case_bool_decide as Hg.
    + exists (blocks ++ [(last, g)]), []. split; [|split; [|split]].
      * by rewrite join_blocks_snoc, join_blocks_last.
      * apply Forall_app. split; [done|]. by constructor.
      * constructor.
      * rewrite map_app.
        change (map mark_rtl [(last, g)])
          with [(reverse (map (set_rtl true) last), g)].
        rewrite join_blocks_snoc. unfold join_blocks.
        by rewrite !app_nil_r.
    + exists blocks, (last ++ [g]). split; [|split; [|split]].
      * by rewrite join_blocks_last.
      * done.
      * apply Forall_app. split; [done|]. by constructor.
      * by rewrite map_app.
Qed.

(** C8. Every glyph list is a sequence of blocks, each closed by a
    split-instead marker, followed by a last block without marker, and
    [reverse_lines] returns the blocks in their original order, each with
    its glyphs reversed and flagged right-to-left and with its marker,
    untouched, still at its end. *)
Theorem reverse_lines_blocks (gs : list Glyph) :
  ∃ blocks last,
    gs = join_blocks blocks last
    ∧ Forall (λ bm, no_marker bm.1 ∧ split bm.2 = SPLIT_INSTEAD) blocks
    ∧ no_marker last
    ∧ reverse_lines gs
      = join_blocks (map mark_rtl blocks) (reverse (map (set_rtl true) last)).
Proof.
  destruct (reverse_lines_fold gs) as (blocks & last & Hgs & Hb & Hl & Hfold).
  exists blocks, last. repeat split; try done.
  unfold reverse_lines. rewrite Hfold. unfold join_blocks.
  by rewrite app_nil_r.
Qed.

End BreaksFacts.

(** The empty glyph list gives no line at all, and a glyph outside the range
    of code points makes [chr] raise. *)
Lemma nobreak_list_empty_counterexample :
  Breaks.linebreak_list (Breaks.linebreak_nobreak []) = Ok []
  ∧ Breaks.linebreak_list (Breaks.linebreak_nobreak [])
    ≠ Ok [concat (map (λ g, [character g]) [])]
  ∧ Breaks.linebreak_list (Breaks.linebreak_nobreak [Samples.letter 1114112])
    = Raise (Breaks.chr_arg_not_in_range 1114112).
Proof. split_and!; [reflexivity | discriminate | reflexivity]. Qed.

Lemma nobreak_list_single_line_witness :
  Breaks.linebreak_list (Breaks.linebreak_nobreak Samples.a_b_c)
  = Ok [[97; 32; 98; 32; 99]%Z].
Proof.
apply (nobreak_list_single_line Samples.a_b_c); [discriminate|].
repeat constructor; unfold Breaks.valid_code_point; simpl; lia.
Defined.


Section TimingFacts.

Import Timing.

Lemma nat_Q_S (n : nat) : (nat_Q (S n) == nat_Q n + 1)%Q.
Proof.
  unfold nat_Q. rewrite Nat2Z.inj_succ. unfold Z.succ.
  by rewrite inject_Z_plus.
Qed.

Lemma timed_count_cons (g : Glyph) (gs : list Glyph) :
  timed_count (g :: gs)
  = if ruby_skipped g then timed_count gs else S (timed_count gs).
Proof.
  unfold timed_count. rewrite filter_cons.
  destruct (ruby_skipped g); by case_decide.
Qed.

Lemma assign_times_loop_length tpg t gs :
  length (assign_times_loop tpg t gs).2 = length gs.
Proof.
  revert t. induction gs as [|g gs IH]; intros t; simpl; [done|].
  destruct (ruby_skipped g).
  - specialize (IH t). destruct (assign_times_loop tpg t gs). simpl in *. lia.
  - specialize (IH (t + tpg)%Q).
    destruct (assign_times_loop tpg (t + tpg) gs). simpl in *. lia.
Qed.

Lemma assign_times_loop_final tpg t gs :
  ((assign_times_loop tpg t gs).1 == t + nat_Q (timed_count gs) * tpg)%Q.
Proof.
  revert t. induction gs as [|g gs IH]; intros t.
  - cbn [assign_times_loop fst]. change (nat_Q (timed_count [])) with 0%Q. ring.
  - cbn [assign_times_loop]. rewrite timed_count_cons. destruct (ruby_skipped g).
    + specialize (IH t). destruct (assign_times_loop tpg t gs). done.
    + specialize (IH (t + tpg)%Q).
      destruct (assign_times_loop tpg (t + tpg) gs). cbn [fst] in *.
      rewrite IH, nat_Q_S. ring.
Qed.

Lemma assign_times_loop_lookup tpg t gs i g :
  gs !! i = Some g →
  ∃ g', (assign_times_loop tpg t gs).2 !! i = Some g'
    ∧ ruby g' = ruby g
    ∧ if ruby_skipped g then time g' = (-1)%Q
      else (time g' == t + nat_Q (timed_count (take (S i) gs)) * tpg)%Q.
Proof.
  revert t i. induction gs as [|g0 gs IH]; intros t i Hi; [done|].
  destruct i as [|i].
  - simpl in Hi. injection Hi as ->. simpl.
    destruct (ruby_skipped g) eqn:Hr.
    + destruct (assign_times_loop tpg t gs). simpl.
      eexists. split; [done|]. split; done.
    + destruct (assign_times_loop tpg (t + tpg) gs). simpl.
      eexists. split; [done|]. split; [done|].
      cbn [take]. rewrite take_0, timed_count_cons, Hr.
      change (nat_Q (S (timed_count []))) with 1%Q.
      change (time (set_duration tpg (set_time (t + tpg) g))) with (t + tpg)%Q.
      ring.
  - simpl in Hi. cbn [assign_times_loop].
    destruct (ruby_skipped g0) eqn:Hr0.
    + destruct (IH t i Hi) as (g' & Hg' & Hruby & Htime).
      destruct (assign_times_loop tpg t gs). cbn [snd] in *.
      exists g'. split; [done|]. split; [done|].
      destruct (ruby_skipped g); [done|].
      change (take (S (S i)) (g0 :: gs)) with (g0 :: take (S i) gs).
      by rewrite timed_count_cons, Hr0.
    + destruct (IH (t + tpg)%Q i Hi) as (g' & Hg' & Hruby & Htime).
      destruct (assign_times_loop tpg (t + tpg) gs). cbn [snd] in *.
      exists g'. split; [done|]. split; [done|].
      destruct (ruby_skipped g); [done|].
      change (take (S (S i)) (g0 :: gs)) with (g0 :: take (S i) gs).
      rewrite timed_count_cons, Hr0, Htime, nat_Q_S. ring.
Qed.

Lemma timed_count_take_lt (gs : list Glyph) i j g :
  i < j → gs !! j = Some g → ruby_skipped g = false →
  timed_count (take (S i) gs) < timed_count (take (S j) gs).
Proof.
  intros Hij Hj Hr.
  assert (Hsplit : take (S j) gs = take (S i) gs ++ drop (S i) (take (S j) gs)).
  { rewrite <- (take_drop (S i) (take (S j) gs)) at 1.
    rewrite take_take. by replace (S i `min` S j) with (S i) by lia. }
  rewrite Hsplit. unfold timed_count. rewrite filter_app, length_app.
  assert (Hin : g ∈ drop (S i) (take (S j) gs)).
  { apply list_elem_of_lookup. exists (j - S i).
    rewrite lookup_drop, lookup_take_lt by lia.
    by replace (S i + (j - S i)) with j by lia. }
  assert (0 < length (filter (λ g, ruby_skipped g = false)
                        (drop (S i) (take (S j) gs)))); [|lia].
  assert (Hin' : g ∈ filter (λ g, ruby_skipped g = false)
                        (drop (S i) (take (S j) gs)))
    by by apply list_elem_of_filter.
  destruct (filter _ _); [by apply elem_of_nil in Hin'|simpl; lia].
Qed.


Lemma max_time_fold_spec (ts : list Glyph) (m : Q) :
  let r := fold_left max_time_step ts m in
  (m <= r)%Q ∧ (∀ g, g ∈ ts → (time g <= r)%Q)
  ∧ (r = m ∨ ∃ g, g ∈ ts ∧ r = time g).
Proof.
  revert m. induction ts as [|g ts IH]; intros m; simpl.
  - split; [lra|]. split; [|by left]. intros g Hg. by apply elem_of_nil in Hg.
  - destruct (IH (max_time_step m g)) as (H1 & H2 & H3).
    assert (Hstep : (m <= max_time_step m g)%Q ∧ (time g <= max_time_step m g)%Q
                    ∧ (max_time_step m g = m ∨ max_time_step m g = time g)).
    { unfold max_time_step, Greedy.Qgt_bool.
      destruct (Qle_bool (time g) m) eqn:Hle; simpl.
      - apply Qle_bool_iff in Hle. repeat split; try lra. by left.
      - assert (¬ (time g <= m)%Q) by (rewrite <- Qle_bool_iff; congruence).
        repeat split; try lra. by right. }
    destruct Hstep as (S1 & S2 & S3).
    split; [lra|]. split.
    + intros g' Hg'. apply elem_of_cons in Hg' as [->|Hg']; [lra|by apply H2].
    + destruct H3 as [H3|(g' & Hg' & H3)].
      * destruct S3 as [S3|S3]; [left; congruence|].
        right. exists g. split; [constructor|congruence].
      * right. exists g'. split; [by constructor|done].
Qed.

Lemma max_times_loop_lookup (l : list Line) (m : Q) i line :
  l !! i = Some line →
  (max_times_loop m l).2 !! i
  = Some (set_max_time
            (fold_left max_time_step
               (concat (map glyphs (take (S i) l))) m) line).
Proof.
  revert m i. induction l as [|l0 l IH]; intros m i Hi; [done|].
  cbn [max_times_loop].
  destruct (max_times_loop (fold_left max_time_step (glyphs l0) m) l)
    as [m' r] eqn:Hloop.
  destruct i as [|i].
  - simpl in Hi. injection Hi as ->. simpl. by rewrite app_nil_r.
  - simpl in Hi. simpl. rewrite fold_left_app.
    specialize (IH (fold_left max_time_step (glyphs l0) m) i Hi).
    by rewrite Hloop in IH.
Qed.

(** C2 (amended). After [max_times], the [max_time] of a line is the
    largest of 0 and the reveal times of the glyphs of that line and of all
    the lines before it: it is at least 0 and at least each of these times,
    and it is 0 or one of them. The glyphs of the line are unchanged. *)
Theorem max_times_running_maximum (l : list Line) i line :
  l !! i = Some line →
  ∃ line', (max_times l).2 !! i = Some line'
    ∧ glyphs line' = glyphs line
    ∧ (0 <= max_time line')%Q
    ∧ (∀ g, g ∈ concat (map glyphs (take (S i) l)) →
         (time g <= max_time line')%Q)
    ∧ (max_time line' = 0%Q
       ∨ ∃ g, g ∈ concat (map glyphs (take (S i) l))
              ∧ max_time line' = time g).
Proof.
  intros Hi. unfold max_times.
  rewrite (max_times_loop_lookup l 0 i line Hi).
  eexists. split; [done|]. split; [done|]. simpl.
  apply max_time_fold_spec.
Qed.

End TimingFacts.


(** The second line keeps the maximum of the first, and a line of ruby-top
    glyphs, whose times are -1, gets 0. *)
Lemma max_times_cumulative_counterexample :
  max_time <$> (Timing.max_times
                  [Samples.line_of [Samples.placed 97 RUBY_NONE 0 10 5];
                   Samples.line_of [Samples.placed 98 RUBY_NONE 0 10 3]]).2 !! 1
  = Some 5%Q
  ∧ ¬ (5 == 3)%Q
  ∧ max_time <$> (Timing.max_times
                    [Samples.line_of [Samples.placed 12354 RUBY_TOP 0 5 (-1)]]).2
                 !! 0
    = Some 0%Q
  ∧ ¬ (0 == -1)%Q.
Proof. split_and!; try reflexivity; discriminate. Qed.

Lemma max_times_running_maximum_witness :
  ∃ line',
    (Timing.max_times
       [Samples.line_of [Samples.placed 97 RUBY_NONE 0 10 5];
        Samples.line_of [Samples.placed 98 RUBY_NONE 0 10 3]]).2 !! 1
    = Some line'
    ∧ (0 <= max_time line')%Q.
Proof.
destruct (max_times_running_maximum
            [Samples.line_of [Samples.placed 97 RUBY_NONE 0 10 5];
             Samples.line_of [Samples.placed 98 RUBY_NONE 0 10 3]] 1
            (Samples.line_of [Samples.placed 98 RUBY_NONE 0 10 3]) eq_refl)
  as (line' & H1 & _ & H2 & _).
exists line'. split; assumption.
Defined.


Section AlignFacts.

Import Align.

Lemma set_x_same (g : Glyph) : set_x (x g + 0) g = g.
Proof. destruct g. unfold set_x. simpl. f_equal. lia. Qed.

Lemma measure_step_spaces (gs : list Glyph) (st : Z * Z) :
  Forall not_counted_space gs →
  (fold_left measure_step gs st).1 = st.1.
Proof.
  intros H. revert st. induction H as [|g gs Hg _ IH]; intros st; [done|].
  simpl. rewrite IH. unfold measure_step.
  destruct Hg as [->|Hg]; [done|].
  destruct (ruby_skipped g); [done|]. simpl.
  by destruct (Z.eqb_spec (character g) SPACE).
Qed.

Lemma measure_one_space (pre post : list Glyph) (sp : Glyph) :
  Forall not_counted_space pre → Forall not_counted_space post →
  ruby_skipped sp = false → character sp = SPACE →
  (measure (pre ++ sp :: post)).1 = 1%Z.
Proof.
  intros Hpre Hpost Hr Hc. unfold measure.
  rewrite fold_left_app. cbn [fold_left].
  rewrite measure_step_spaces by done.
  unfold measure_step at 1. rewrite Hr, Hc. cbn [fst].
  rewrite measure_step_spaces by done. done.
Qed.

Lemma c_int_half : c_int (1 # 2) = 0%Z.
Proof. reflexivity. Qed.

Lemma c_int_slack (S : Z) :
  c_int ((1 # 2) + 1 * inject_Z S / inject_Z 1) = round_slack S.
Proof.
  unfold c_int, round_slack. 
  replace (Qnum ((1 # 2) + 1 * inject_Z S / inject_Z 1)) with (2 * S + 1)%Z
    by (simpl; lia).
  change (Z.pos (Qden ((1 # 2) + 1 * inject_Z S / inject_Z 1))) with 2%Z.
  destruct (Z.leb_spec 0 S); Z.to_euclidean_division_equations; lia.
Qed.

Lemma justify_loop_before jps (gs : list Glyph) :
  Forall not_counted_space gs →
  ∀ rest, justify_loop jps (1 # 2) (gs ++ rest)
          = gs ++ justify_loop jps (1 # 2) rest.
Proof.
  intros H rest. induction H as [|g gs Hg _ IH]; [done|].
  simpl. destruct (ruby_skipped g) eqn:Hr; [by rewrite IH|].
  destruct Hg as [?|Hg]; [congruence|].
  destruct (Z.eqb_spec (character g) SPACE); [congruence|].
  by rewrite c_int_half, set_x_same, IH.
Qed.

Lemma justify_loop_after jps off (gs : list Glyph) :
  Forall not_counted_space gs →
  justify_loop jps off gs = map (shift_glyph (c_int off)) gs.
Proof.
  intros H. induction H as [|g gs Hg _ IH]; [done|].
  simpl. unfold shift_glyph at 1.
  destruct (ruby_skipped g) eqn:Hr; [by rewrite IH|].
  destruct Hg as [?|Hg]; [congruence|].
  destruct (Z.eqb_spec (character g) SPACE); [congruence|by rewrite IH].
Qed.

Lemma justify_loop_space jps off (sp : Glyph) (gs : list Glyph) :
  ruby_skipped sp = false → character sp = SPACE →
  justify_loop jps off (sp :: gs)
  = set_x (x sp + c_int (off + jps)) sp :: justify_loop jps (off + jps) gs.
Proof. intros Hr Hc. simpl. by rewrite Hr, Hc. Qed.


End AlignFacts.




Section GreedyFrame.

Import Greedy.

(** "a b c" in a width of 3 breaks at the second space only. *)
Example greedy_a_b_c :
  map split (linebreak_greedy Samples.a_b_c 3 3)
  = [SPLIT_NONE; SPLIT_NONE; SPLIT_NONE; SPLIT_INSTEAD; SPLIT_NONE].
Proof. reflexivity. Qed.

(** "a b)) c" in a width of 3 breaks after the closing brackets. *)
Example greedy_a_b_closers_c :
  map split (linebreak_greedy Samples.a_b_closers_c 3 3)
  = [SPLIT_NONE; SPLIT_NONE; SPLIT_NONE; SPLIT_IGNORE; SPLIT_IGNORE;
     SPLIT_INSTEAD; SPLIT_NONE].
Proof. reflexivity. Qed.

Lemma kept_or_demoted_demote g g' :
  kept_or_demoted g g' → kept_or_demoted g (set_split SPLIT_NONE g').
Proof. intros [->| ->]; by right. Qed.

Lemma demote_frame (glyphs gs : list Glyph) (split_g : option nat) :
  Forall2 kept_or_demoted glyphs gs →
  Forall2 kept_or_demoted glyphs (demote split_g gs).
Proof.
  intros H. destruct split_g as [p|]; [|done]. simpl.
  apply Forall2_alter_r; [done|].
  intros g g' _ _. apply kept_or_demoted_demote.
Qed.

Lemma greedy_step_frame (glyphs : list Glyph) rw st i :
  Forall2 kept_or_demoted glyphs (st_glyphs st) →
  Forall2 kept_or_demoted glyphs (st_glyphs (greedy_step rw st i)).
Proof.
  intros H. unfold greedy_step.
  destruct (st_glyphs st !! i) as [g|]; [|done].
  destruct (ruby_skipped g); [done|].
  case_bool_decide; [done|].
  destruct (split g); cbn [st_glyphs]; try done; by apply demote_frame.
Qed.

Lemma greedy_fold_frame (glyphs : list Glyph) rw (idx : list nat) st :
  Forall2 kept_or_demoted glyphs (st_glyphs st) →
  Forall2 kept_or_demoted glyphs
    (st_glyphs (fold_left (greedy_step rw) idx st)).
Proof.
  revert st. induction idx as [|i idx IH]; intros st H; [done|].
  simpl. by apply IH, greedy_step_frame.
Qed.

(** C10. For every glyph list and every pair of width budgets,
    [linebreak_greedy] returns a list of the same length in the same order
    in which every glyph is the glyph it was, or that glyph with its split
    set to [SPLIT_NONE] and every other field unchanged. *)
Theorem linebreak_greedy_frame (glyphs : list Glyph)
    (first_width rest_width : Z) :
  Forall2 kept_or_demoted glyphs
    (linebreak_greedy glyphs first_width rest_width).
Proof.
  unfold linebreak_greedy. apply demote_frame.
  unfold greedy_loop. apply greedy_fold_frame. simpl.
  apply Forall2_same_length_lookup. split; [done|].
  intros i g g' H1 H2. left. congruence.
Qed.

End GreedyFrame.

Section ClassifierFacts.

Import Classifier.

(** "a b)) c" under the sample tables, whatever the splits were: the spaces
    become the split points and the closing brackets are ignored. *)
Example annotate_a_b_closers_c :
  map split
    (annotate_unicode sample_pxi Samples.untailored false 0
       (map (set_split SPLIT_BEFORE) Samples.a_b_closers_c))
  = [SPLIT_NONE; SPLIT_INSTEAD; SPLIT_NONE; SPLIT_IGNORE; SPLIT_IGNORE;
     SPLIT_INSTEAD; SPLIT_NONE].
Proof. reflexivity. Qed.

Variable T : LinebreakPxi.
Variable break_tailor : Z → Z.
Variable no_ideographs : bool.
Variable cjk : Z.

Abbreviation cls := (effective_class T break_tailor no_ideographs cjk).
Abbreviation step := (annotate_step T break_tailor no_ideographs cjk).
Abbreviation deferring := (Classifier.deferring T break_tailor no_ideographs cjk).
Abbreviation deferred_between :=
  (Classifier.deferred_between T break_tailor no_ideographs cjk).
Abbreviation deferred_chars :=
  (Classifier.deferred_chars T break_tailor no_ideographs cjk).

Lemma resplit_refl g : resplit g g.
Proof. exists (split g). by destruct g. Qed.

Lemma resplit_set g g' v : resplit g g' → resplit g (set_split v g').
Proof. intros [w ->]. by exists v. Qed.

Lemma resplit_character g g' : resplit g g' → character g' = character g.
Proof. by intros [v ->]. Qed.

Lemma resplit_alter (glyphs gs : list Glyph) v j :
  Forall2 resplit glyphs gs →
  Forall2 resplit glyphs (alter (set_split v) j gs).
Proof.
  intros H. apply Forall2_alter_r; [done|].
  intros g g' _ _. apply resplit_set.
Qed.

Lemma lookup_alter_split (gs : list Glyph) v j i g' :
  alter (set_split v) j gs !! i = Some g' →
  ∃ g0, gs !! i = Some g0 ∧ character g' = character g0
    ∧ (i = j → split g' = v) ∧ (i ≠ j → g' = g0).
Proof.
  intros H. destruct (decide (j = i)) as [->|Hne].
  - rewrite list_lookup_alter_eq in H.
    destruct (gs !! i) as [g0|]; simpl in H; [|done].
    injection H as <-. exists g0. by repeat split.
  - rewrite list_lookup_alter_ne in H by done.
    exists g'. by repeat split.
Qed.

Lemma deferred_alter a b (gs : list Glyph) v j :
  deferred_between a b gs →
  v = SPLIT_NONE ∨ v = SPLIT_INSTEAD ∨ b ≤ j →
  deferred_between a b (alter (set_split v) j gs).
Proof.
  intros Hinv Hv i g' Hi Hlook Hdef.
  apply lookup_alter_split in Hlook as (g0 & Hg0 & Hch & Heq & Hne).
  destruct (decide (i = j)) as [->|Hij].
  - rewrite (Heq eq_refl).
    destruct Hv as [->|[->|?]]; [by left|by right|lia].
  - rewrite (Hne Hij). apply (Hinv i g0 Hi Hg0).
    rewrite (Hne Hij) in Hdef. done.
Qed.

Lemma deferred_extend a b (gs : list Glyph) :
  deferred_between a b gs →
  (∀ g, gs !! b = Some g → deferring g → (split g = SPLIT_NONE ∨ split g = SPLIT_INSTEAD)) →
  deferred_between a (S b) gs.
Proof.
  intros Hinv Hb i g Hi Hlook Hdef.
  destruct (decide (i = b)) as [->|?]; [by apply Hb|].
  apply (Hinv i g); [lia|done..].
Qed.

Lemma annotate_step_deferred (gs : list Glyph) old_type space_pos pos :
  deferred_between 1 pos gs →
  deferred_between 1 (S pos) (step (gs, old_type, space_pos) pos).1.1.
Proof.
  intros Hinv. unfold annotate_step.
  destruct (gs !! pos) as [g|] eqn:Hg.
  2:{ apply deferred_extend; [done|]. cbn [fst]. intros g. by rewrite Hg. }
  assert (Hnone : ∀ gs', deferred_between 1 pos gs' →
            deferred_between 1 (S pos) (alter (set_split SPLIT_NONE) pos gs')).
  { intros gs' H'. apply deferred_extend; [apply deferred_alter; auto|].
    intros g' Hl _. apply lookup_alter_split in Hl as (_ & _ & _ & Heq & _).
    left. by apply Heq. }
  assert (Hvac : ∀ gs' v, deferred_between 1 pos gs' →
            Forall2 resplit gs gs' → ¬ deferring g →
            deferred_between 1 (S pos) (alter (set_split v) pos gs')).
  { intros gs' v H' Hre Hnd.
    apply deferred_extend; [apply deferred_alter; auto|].
    intros g' Hl Hdef. destruct Hnd.
    apply lookup_alter_split in Hl as (g0 & Hg0 & Hch & _ & _).
    destruct (Forall2_lookup_r _ _ _ _ _ Hre Hg0) as (g1 & Hg1 & Hre1).
    rewrite Hg in Hg1. injection Hg1 as <-.
    unfold deferring in *. by rewrite <- (resplit_character _ _ Hre1), <- Hch. }
  assert (Hrefl : Forall2 resplit gs gs).
  { apply Forall2_same_length_lookup. split; [done|].
    intros i a b Ha Hb. rewrite Ha in Hb. injection Hb as <-.
    apply resplit_refl. }
  destruct (Z.eqb_spec (cls (character g)) (BC_SP T)) as [_|Hsp];
    [by apply Hnone|].
  destruct (Z.eqb_spec (cls (character g)) (BC_CM T)) as [_|Hcm];
    [by apply Hnone|].
  assert (Hnd : ¬ deferring g) by (by intros [?|?]).
  assert (Hsp_ok : deferred_between 1 pos
                     (alter (set_split SPLIT_INSTEAD) space_pos gs))
    by (apply deferred_alter; auto).
  assert (Hsp_re : Forall2 resplit gs
                     (alter (set_split SPLIT_INSTEAD) space_pos gs))
    by by apply resplit_alter.
  repeat (match goal with
          | |- context [if ?b then _ else _] => destruct b
          end; cbn [fst]; try by apply Hvac).
Qed.

Lemma annotate_step_resplit (glyphs gs : list Glyph) old_type space_pos pos :
  Forall2 resplit glyphs gs →
  Forall2 resplit glyphs (step (gs, old_type, space_pos) pos).1.1.
Proof.
  intros H. unfold annotate_step.
  destruct (gs !! pos) as [g|]; [|done].
  repeat (match goal with
          | |- context [if ?b then _ else _] => destruct b
          end; cbn [fst]; try by repeat apply resplit_alter).
Qed.

Lemma annotate_fold_deferred (n a : nat) st :
  deferred_between 1 a st.1.1 →
  deferred_between 1 (a + n) (fold_left step (seq a n) st).1.1.
Proof.
  revert a st. induction n as [|n IH]; intros a [[gs old_type] space_pos] H.
  - by rewrite Nat.add_0_r.
  - cbn [seq fold_left]. replace (a + S n) with (S a + n) by lia.
    apply IH. destruct (step (gs, old_type, space_pos) a) as [[gs' o'] s'] eqn:E.
    pose proof (annotate_step_deferred gs old_type space_pos a H) as H'.
    by rewrite E in H'.
Qed.

Lemma annotate_fold_resplit (glyphs : list Glyph) (idx : list nat) st :
  Forall2 resplit glyphs st.1.1 →
  Forall2 resplit glyphs (fold_left step idx st).1.1.
Proof.
  revert st. induction idx as [|i idx IH]; intros [[gs o] s] H; [done|].
  cbn [fold_left]. apply IH.
  pose proof (annotate_step_resplit glyphs gs o s i H) as H'.
  by destruct (step (gs, o, s) i) as [[gs' o'] s'].
Qed.

Lemma deferred_chars_alter (gs : list Glyph) v j :
  deferred_chars gs →
  v = SPLIT_NONE ∨ (∀ g, gs !! j = Some g → character g = 0%Z) →
  deferred_chars (alter (set_split v) j gs).
Proof.
  intros Hinv Hv i g' Hlook Hdef Hch.
  apply lookup_alter_split in Hlook as (g0 & Hg0 & Hch0 & Heq & Hne).
  destruct (decide (i = j)) as [->|Hij].
  - destruct Hv as [->|Hz]; [left; by apply Heq|].
    destruct Hch. rewrite Hch0. by apply Hz.
  - rewrite (Hne Hij) in *. by apply (Hinv i g0).
Qed.

Lemma ruby_step_deferred (gs : list Glyph) old_g pos :
  deferred_chars gs → deferred_chars (ruby_step (gs, old_g) pos).1.
Proof.
  intros H. unfold ruby_step.
  destruct (gs !! pos) as [g|] eqn:Hg; [|done].
  destruct (gs !! old_g) as [og|]; [|done].
  assert (H1 : deferred_chars
                 (if (character g =? 0)%Z
                  then alter (set_split SPLIT_BEFORE) pos gs else gs)).
  { destruct (Z.eqb_spec (character g) 0); [|done].
    apply deferred_chars_alter; [done|]. right. intros g'. congruence. }
  cbn [fst].
  repeat (match goal with
          | |- context [if ?b then _ else _] => destruct b
          end; try (apply deferred_chars_alter; [done|by left]); try done).
Qed.

Lemma ruby_step_resplit (glyphs gs : list Glyph) old_g pos :
  Forall2 resplit glyphs gs →
  Forall2 resplit glyphs (ruby_step (gs, old_g) pos).1.
Proof.
  intros H. unfold ruby_step.
  destruct (gs !! pos) as [g|]; [|done].
  destruct (gs !! old_g) as [og|]; [|done]. cbn [fst].
  repeat (match goal with
          | |- context [if ?b then _ else _] => destruct b
          end; try by repeat apply resplit_alter).
Qed.

Lemma ruby_fold_deferred (idx : list nat) st :
  deferred_chars st.1 → deferred_chars (fold_left ruby_step idx st).1.
Proof.
  revert st. induction idx as [|i idx IH]; intros [gs o] H; [done|].
  cbn [fold_left]. apply IH.
  pose proof (ruby_step_deferred gs o i H) as H'.
  by destruct (ruby_step (gs, o) i).
Qed.

Lemma ruby_fold_resplit (glyphs : list Glyph) (idx : list nat) st :
  Forall2 resplit glyphs st.1 →
  Forall2 resplit glyphs (fold_left ruby_step idx st).1.
Proof.
  revert st. induction idx as [|i idx IH]; intros [gs o] H; [done|].
  cbn [fold_left]. apply IH.
  pose proof (ruby_step_resplit glyphs gs o i H) as H'.
  by destruct (ruby_step (gs, o) i).
Qed.

Lemma annotate_unicode_resplit (glyphs : list Glyph) :
  Forall2 resplit glyphs
    (annotate_unicode T break_tailor no_ideographs cjk glyphs).
Proof.
  unfold annotate_unicode. destruct glyphs as [|g0 glyphs]; [constructor|].
  set (gl := g0 :: glyphs).
  assert (Hrefl : Forall2 resplit gl gl).
  { apply Forall2_same_length_lookup. split; [done|].
    intros i a b Ha Hb. rewrite Ha in Hb. injection Hb as <-.
    apply resplit_refl. }
  pose proof (annotate_fold_resplit gl (seq 1 (length gl - 1))
                (gl, BC_WJ T, 0) Hrefl) as H.
  destruct (fold_left step (seq 1 (length gl - 1)) (gl, BC_WJ T, 0))
    as [[gs o] s]. cbn [fst] in H.
  apply ruby_fold_resplit. cbn [fst]. by apply resplit_alter.
Qed.

Lemma annotate_unicode_deferred (glyphs : list Glyph) :
  deferred_chars (annotate_unicode T break_tailor no_ideographs cjk glyphs).
Proof.
  unfold annotate_unicode. destruct glyphs as [|g0 glyphs].
  { intros i g Hl. done. }
  set (gl := g0 :: glyphs).
  assert (H1 : deferred_between 1 1 gl) by (intros i g Hi; lia).
  pose proof (annotate_fold_deferred (length gl - 1) 1 (gl, BC_WJ T, 0) H1)
    as H.
  assert (Hrefl : Forall2 resplit gl gl).
  { apply Forall2_same_length_lookup. split; [done|].
    intros i a b Ha Hb. rewrite Ha in Hb. injection Hb as <-.
    apply resplit_refl. }
  pose proof (annotate_fold_resplit gl (seq 1 (length gl - 1))
                (gl, BC_WJ T, 0) Hrefl) as Hlen.
  apply Forall2_length in Hlen.
  destruct (fold_left step (seq 1 (length gl - 1)) (gl, BC_WJ T, 0))
    as [[gs o] s]. cbn [fst] in H, Hlen.
  apply ruby_fold_deferred. cbn [fst].
  intros i g Hl Hdef _.
  apply lookup_alter_split in Hl as (g1 & Hg1 & Hch & Heq & Hne).
  destruct (decide (i = 0)) as [->|Hi]; [left; by apply Heq|].
  rewrite (Hne Hi) in *. apply (H i g1); [|done..].
  apply lookup_lt_Some in Hg1. lia.
Qed.

(** C5 (amended). After [annotate_unicode], whatever the tables, the
    tailoring, the [no_ideographs] flag and the profile, a glyph whose
    character is not 0 and whose effective break class is space or combining
    mark has split [SPLIT_NONE] or [SPLIT_INSTEAD], never [SPLIT_BEFORE]. *)
Theorem annotate_unicode_defers (glyphs : list Glyph) i g :
  glyphs !! i = Some g →
  deferring g → character g ≠ 0%Z →
  ∃ g', annotate_unicode T break_tailor no_ideographs cjk glyphs !! i
        = Some g'
    ∧ (split g' = SPLIT_NONE ∨ split g' = SPLIT_INSTEAD).
Proof.
  intros Hi Hdef Hch.
  destruct (Forall2_lookup_l _ _ _ _ _ (annotate_unicode_resplit glyphs) Hi)
    as (g' & Hg' & Hre).
  exists g'. split; [done|].
  apply (annotate_unicode_deferred glyphs i g' Hg').
  - unfold deferring in *. by rewrite (resplit_character _ _ Hre).
  - by rewrite (resplit_character _ _ Hre).
Qed.

End ClassifierFacts.

(** A displayable, whose character is 0 and whose class in the sample table
    is combining mark, gets a split-before from the closing loop. *)
Lemma annotate_unicode_displayable_counterexample :
  Classifier.effective_class Classifier.sample_pxi Samples.untailored false 0 0
  = BC_CM Classifier.sample_pxi
  ∧ split <$>
      Classifier.annotate_unicode Classifier.sample_pxi Samples.untailored
        false 0 [Samples.letter 97; Samples.glyph 0 SPLIT_NONE RUBY_NONE 1]
      !! 1
    = Some SPLIT_BEFORE.
Proof. split; reflexivity. Qed.

Lemma annotate_unicode_defers_witness :
  ∃ g',
    Classifier.annotate_unicode Classifier.sample_pxi Samples.untailored
      false 0 Samples.a_b_c !! 1 = Some g'
    ∧ (split g' = SPLIT_NONE ∨ split g' = SPLIT_INSTEAD).
Proof.
apply (annotate_unicode_defers Classifier.sample_pxi Samples.untailored
         false 0 Samples.a_b_c 1 Samples.space).
- reflexivity.
- left. reflexivity.
- discriminate.
Defined.


Section GreedyFit.

Import Greedy Breaks Fit.

Lemma drop_hanging_snoc (l : list Glyph) (g : Glyph) :
  drop_hanging (l ++ [g]) = if hanging g then drop_hanging l else l ++ [g].
Proof.
  induction l as [|a l IH]; simpl.
  - by destruct (hanging g).
  - rewrite IH. destruct (hanging g) eqn:Hg; [done|].
    by destruct l.
Qed.

Lemma line_advance_snoc (l : list Glyph) (g : Glyph) :
  (line_advance (l ++ [g]) == line_advance l + glyph_advance g)%Q.
Proof.
  induction l as [|a l IH]; cbn [line_advance app fold_right].
  - ring.
  - fold (line_advance (l ++ [g])). fold (line_advance l). rewrite IH. ring.
Qed.

Lemma Acc_nil : Acc [] 0 0.
Proof. split; cbn; ring. Qed.

Lemma Acc_step (l : list Glyph) (g : Glyph) x ign :
  Acc l x ign →
  Acc (l ++ [g]) (acc_step g (x, ign)).1 (acc_step g (x, ign)).2.
Proof.
  intros [H1 H2]. unfold Acc, acc_step.
  rewrite drop_hanging_snoc, !line_advance_snoc.
  unfold hanging, glyph_advance.
  destruct (ruby_skipped g) eqn:Hr; cbn [orb fst snd].
  - split; [done|]. rewrite <- H2. ring.
  - case_bool_decide; cbn [fst snd].
    + split; [done|]. rewrite <- H2. ring.
    + rewrite line_advance_snoc. unfold glyph_advance. rewrite Hr.
      rewrite <- H2. split; ring.
Qed.

Lemma Acc_single (g : Glyph) :
  hanging g = false → Acc [g] (advance g) 0.
Proof.
  intros Hg. unfold Acc. cbn [drop_hanging]. rewrite Hg.
  unfold line_advance, glyph_advance. cbn [fold_right].
  apply orb_false_elim in Hg as [-> _]. split; ring.
Qed.

Lemma same_profile_refl (l : list Glyph) : Forall2 same_profile l l.
Proof. induction l; constructor; done. Qed.

Lemma same_profile_demote (g : Glyph) :
  is_candidate (split g) = true → same_profile g (set_split SPLIT_NONE g).
Proof.
  intros Hc. split; [|done]. unfold hanging.
  change (ruby_skipped (set_split SPLIT_NONE g)) with (ruby_skipped g).
  f_equal. cbn. by destruct (split g).
Qed.

Lemma drop_hanging_profile (l l' : list Glyph) :
  Forall2 same_profile l l' →
  Forall2 same_profile (drop_hanging l) (drop_hanging l').
Proof.
  induction 1 as [|g g' l l' [Hh Ha] _ IH]; [constructor|].
  cbn [drop_hanging]. destruct IH as [|a a' r r' Ha' Hr'].
  - rewrite Hh. destruct (hanging g') eqn:Hg'; [constructor|].
    constructor; [by split; congruence|constructor].
  - constructor; [done|]. by constructor.
Qed.

Lemma line_advance_profile (l l' : list Glyph) :
  Forall2 same_profile l l' → line_advance l = line_advance l'.
Proof.
  induction 1 as [|g g' l l' [Hh Ha] _ IH]; [done|].
  cbn [line_advance fold_right]. fold (line_advance l) (line_advance l').
  by rewrite Ha, IH.
Qed.

Lemma Acc_profile (l l' : list Glyph) x ign :
  Forall2 same_profile l l' → Acc l x ign → Acc l' x ign.
Proof.
  intros H [H1 H2]. unfold Acc.
  rewrite <- (line_advance_profile _ _ (drop_hanging_profile _ _ H)).
  by rewrite <- (line_advance_profile _ _ H).
Qed.

(** Segmentation of a run without surviving splits. *)
Lemma seg_fold_plain {A} (cls : A → split_t) (Y : list A) Ls L :
  Forall (λ y, is_candidate (cls y) = false) Y →
  fold_left (seg_step cls) Y (Ls, L) = (Ls, L ++ Y).
Proof.
  intros H. revert L. induction H as [|y Y Hy _ IH]; intros L.
  - by rewrite app_nil_r.
  - cbn [fold_left]. unfold seg_step at 2. cbn [fst snd].
    destruct (cls y); try done; rewrite IH, <- app_assoc; done.
Qed.

Variables first_width rest_width : Z.

Abbreviation bud := (budget first_width rest_width).
Abbreviation good_lines := (Fit.good_lines first_width rest_width).
Abbreviation Closed := (Fit.Closed first_width rest_width).
Abbreviation GNone := (Fit.GNone first_width rest_width).
Abbreviation GSome := (Fit.GSome first_width rest_width).

Lemma plain_undemoted p : plain p → demoted p = false.
Proof.
  intros [Heq Hc]. unfold demoted. rewrite Heq, Hc. done.
Qed.

Lemma pending_undemoted p : pending p → demoted p = false.
Proof.
  intros (Heq & Hc & _). unfold demoted. rewrite Heq.
  destruct (split p.2); try done.
Qed.

Lemma good_line_undemoted W L :
  Forall (λ p, demoted p = false) L → good_line W L.
Proof.
  intros H (p & Hp & Hd). rewrite Forall_forall in H.
  specialize (H p Hp). congruence.
Qed.

Lemma good_lines_snoc Ls A :
  good_lines Ls → good_line (bud (length Ls)) A → good_lines (Ls ++ [A]).
Proof.
  intros HLs HA k L Hk.
  destruct (decide (k < length Ls)) as [Hlt|Hge].
  - rewrite lookup_app_l in Hk by done. by apply HLs.
  - rewrite lookup_app_r in Hk by lia.
    destruct (k - length Ls) as [|d] eqn:Hd; [|done].
    injection Hk as <-. by replace k with (length Ls) by lia.
Qed.

Lemma GNone_Closed ps W x ign : GNone ps W x ign → Closed ps W x ign.
Proof.
  intros (Ls & A & ? & ? & ? & Hund & ?). exists Ls, A.
  split_and!; try done. by apply good_line_undemoted.
Qed.

Lemma seg_fold_pending X pg Y Ls A :
  pending pg → Forall plain Y →
  fold_left (seg_step pair_split) X ([], []) = (Ls, A) →
  fold_left (seg_step pair_split) (X ++ pg :: Y) ([], [])
  = (Ls ++ [A], new_line pg Y).
Proof.
  intros (Heq & Hc & Hr) HY HX.
  rewrite fold_left_app, HX. cbn [fold_left].
  assert (HY' : Forall (λ y, is_candidate (pair_split y) = false) Y).
  { eapply Forall_impl; [exact HY|]. by intros y [_ ?]. }
  unfold seg_step at 2, new_line. cbn [fst snd].
  destruct (split pg.2) eqn:Hs; try done;
    by rewrite seg_fold_plain.
Qed.

(** Taking the pending candidate closes the line before it. *)
Lemma GSome_commit ps p W x splitx ign :
  GSome ps p W x splitx ign →
  GNone ps (inject_Z rest_width) splitx ign.
Proof.
  intros (X & pg & Y & Ls & A & -> & _ & Hp & HY & HX & HLs & HW & HA & _ & Hsx).
  exists (Ls ++ [A]), (new_line pg Y).
  split; [by apply seg_fold_pending|].
  split; [apply good_lines_snoc; [done|by rewrite <- HW]|].
  split; [rewrite length_app, Nat.add_comm; done|].
  split; [|done].
  assert (Forall (λ p, demoted p = false) Y).
  { eapply Forall_impl; [exact HY|]. apply plain_undemoted. }
  unfold new_line. destruct (split pg.2); try done;
    constructor; try done; by apply pending_undemoted.
Qed.

(** Dropping the pending candidate while the line still fits. *)
Lemma GSome_demote ps p W x splitx ign :
  GSome ps p W x splitx ign → (x <= W)%Q →
  ∃ ps', ps'.*1 = ps.*1
    ∧ ps'.*2 = alter (set_split SPLIT_NONE) p ps.*2
    ∧ Closed ps' W x ign.
Proof.
  intros (X & pg & Y & Ls & A & -> & Hlen & Hp & HY & HX & HLs & HW & HA & Hx & _)
    Hfit.
  exists (X ++ demote_pair pg :: Y). split; [|split].
  - by rewrite !fmap_app, !fmap_cons.
  - rewrite !fmap_app, !fmap_cons. subst p.
    replace (length X) with (length X.*2 + 0) by (rewrite length_fmap; lia).
    by rewrite alter_app_r.
  - exists Ls, (A ++ demote_pair pg :: Y).
    assert (HY' : Forall (λ y, is_candidate (pair_split y) = false)
                    (demote_pair pg :: Y)).
    { constructor; [done|]. eapply Forall_impl; [exact HY|]. by intros y [_ ?]. }
    split.
    { by rewrite fold_left_app, HX, seg_fold_plain. }
    split; [done|]. split; [done|].
    assert (Hacc : Acc (A ++ demote_pair pg :: Y).*2 x ign).
    { eapply Acc_profile; [|exact Hx].
      rewrite !fmap_app, !fmap_cons. apply Forall2_app.
      - apply same_profile_refl.
      - constructor; [|apply same_profile_refl].
        apply same_profile_demote. by destruct Hp as (_ & ? & _). }
    split; [|done]. intros _. destruct Hacc as [<- _]. done.
Qed.

(** A new candidate on an open line. *)
Lemma Closed_candidate ps W x ign (g : Glyph) :
  Closed ps W x ign →
  is_candidate (split g) = true → ruby_skipped g = false →
  GSome (ps ++ [(g, g)]) (length ps) W (x + (advance g + ign))
    (match split g with SPLIT_INSTEAD => 0 | _ => advance g end) 0.
Proof.
  intros (Ls & A & Hfold & HLs & HW & HA & Hacc) Hc Hr.
  exists ps, (g, g), [], Ls, A.
  assert (Hh : hanging g = false).
  { unfold hanging. rewrite Hr. cbn [orb]. by destruct (split g). }
  split_and!; try done.
  - rewrite fmap_app. cbn [fmap list_fmap snd].
    pose proof (Acc_step A.*2 g x ign Hacc) as H.
    unfold acc_step in H. rewrite Hr in H.
    rewrite bool_decide_eq_false_2 in H by (by destruct (split g)).
    apply H.
  - unfold new_line. cbn [snd].
    destruct (split g); try done; try apply Acc_nil; by apply Acc_single.
Qed.

Lemma acc_step_ign (g : Glyph) x x' ign :
  (acc_step g (x, ign)).2 = (acc_step g (x', ign)).2.
Proof.
  unfold acc_step. destruct (ruby_skipped g); [done|].
  by case_bool_decide.
Qed.

Lemma seg_fold_snoc_plain ps (g : Glyph) Ls A :
  is_candidate (split g) = false →
  fold_left (seg_step pair_split) ps ([], []) = (Ls, A) →
  fold_left (seg_step pair_split) (ps ++ [(g, g)]) ([], [])
  = (Ls, A ++ [(g, g)]).
Proof.
  intros Hc H. rewrite fold_left_app, H. cbn [fold_left].
  unfold seg_step. cbn [fst snd]. by destruct (split g).
Qed.

(** A glyph that is no split opportunity joins the open line. *)
Lemma GNone_plain ps W x ign (g : Glyph) :
  GNone ps W x ign → is_candidate (split g) = false →
  GNone (ps ++ [(g, g)]) W (acc_step g (x, ign)).1 (acc_step g (x, ign)).2.
Proof.
  intros (Ls & A & Hfold & HLs & HW & Hund & Hacc) Hc.
  exists Ls, (A ++ [(g, g)]). split_and!; try done.
  - by apply seg_fold_snoc_plain.
  - apply Forall_app. split; [done|]. constructor; [|done].
    by apply plain_undemoted.
  - rewrite fmap_app. by apply Acc_step.
Qed.

Lemma GSome_plain ps p W x splitx ign (g : Glyph) :
  GSome ps p W x splitx ign → is_candidate (split g) = false →
  GSome (ps ++ [(g, g)]) p W (acc_step g (x, ign)).1
    (acc_step g (splitx, ign)).1 (acc_step g (x, ign)).2.
Proof.
  intros (X & pg & Y & Ls & A & -> & Hlen & Hp & HY & HX & HLs & HW & HA
          & Hx & Hsx) Hc.
  exists X, pg, (Y ++ [(g, g)]), Ls, A. split_and!; try done.
  - by rewrite <- app_assoc.
  - apply Forall_app. split; [done|]. by constructor.
  - replace (A ++ pg :: Y ++ [(g, g)]) with ((A ++ pg :: Y) ++ [(g, g)])
      by (by rewrite <- app_assoc).
    rewrite fmap_app. by apply Acc_step.
  - replace (new_line pg (Y ++ [(g, g)])) with (new_line pg Y ++ [(g, g)])
      by (unfold new_line; by destruct (split pg.2)).
    rewrite fmap_app, (acc_step_ign g x splitx). by apply Acc_step.
Qed.

Variable glyphs : list Glyph.
Hypothesis Hclassified : classified glyphs.

Abbreviation Inv := (Fit.Inv first_width rest_width glyphs).

Lemma Qgt_bool_true a b : Qgt_bool a b = true → (b < a)%Q.
Proof.
  unfold Qgt_bool. intros H. apply negb_true_iff in H.
  apply Qnot_le_lt. rewrite <- Qle_bool_iff. congruence.
Qed.

Lemma Qgt_bool_false a b : Qgt_bool a b = false → (a <= b)%Q.
Proof.
  unfold Qgt_bool. intros H. apply negb_false_iff in H.
  by apply Qle_bool_iff.
Qed.

Lemma snoc_fst_snd (ps : list (Glyph * Glyph)) (l1 l2 : list Glyph) g :
  ps.*1 = l1 → ps.*2 = l2 →
  (ps ++ [(g, g)]).*1 = l1 ++ [g] ∧ (ps ++ [(g, g)]).*2 = l2 ++ [g].
Proof. intros <- <-. by rewrite !fmap_app. Qed.

Lemma greedy_step_inv i st :
  i < length glyphs → Inv i st →
  Inv (S i) (greedy_step (inject_Z rest_width) st i).
Proof.
  intros Hi (Hlen & Hdrop & ps & Hps1 & Hps2 & Hghost).
  destruct (lookup_lt_is_Some_2 glyphs i Hi) as [g Hg].
  assert (Hg' : st_glyphs st !! i = Some g).
  { rewrite <- (Nat.add_0_r i), <- lookup_drop, Hdrop, lookup_drop.
    by rewrite Nat.add_0_r. }
  assert (Hpslen : length ps = i).
  { rewrite <- (length_fmap fst), Hps1, length_take. lia. }
  assert (Htake : take (S i) glyphs = take i glyphs ++ [g])
    by by apply take_S_r.
  assert (Htake' : take (S i) (st_glyphs st) = take i (st_glyphs st) ++ [g])
    by by apply take_S_r.
  assert (Hdrop' : drop (S i) (st_glyphs st) = drop (S i) glyphs).
  { replace (S i) with (i + 1) by lia. by rewrite <- !drop_drop, Hdrop. }
  destruct (snoc_fst_snd ps _ _ g Hps1 Hps2) as [Hs1 Hs2].
  rewrite <- Htake in Hs1. rewrite <- Htake' in Hs2.
  (* the store after demoting a pending candidate *)
  assert (Hdem : ∀ p ps', p < i →
            ps'.*1 = ps.*1 →
            ps'.*2 = alter (set_split SPLIT_NONE) p ps.*2 →
            length (alter (set_split SPLIT_NONE) p (st_glyphs st))
            = length glyphs
            ∧ drop (S i) (alter (set_split SPLIT_NONE) p (st_glyphs st))
              = drop (S i) glyphs
            ∧ (ps' ++ [(g, g)]).*1 = take (S i) glyphs
            ∧ (ps' ++ [(g, g)]).*2
              = take (S i) (alter (set_split SPLIT_NONE) p (st_glyphs st))).
  { intros p ps' Hp H1 H2. split_and!.
    - by rewrite length_alter.
    - rewrite drop_alter_lt by lia. done.
    - rewrite fmap_app, H1, Hps1, Htake. done.
    - rewrite fmap_app, H2, Hps2, take_alter_lt by lia.
      rewrite Htake', alter_app_l; [done|]. rewrite length_take. lia. }
  unfold greedy_step. rewrite Hg'.
  destruct (ruby_skipped g) eqn:Hr.
  { (* ruby-top and alt-ruby glyphs are skipped *)
    assert (Hc : is_candidate (split g) = false).
    { rewrite (proj1 (Forall_forall _ _) Hclassified g); [done| |done].
      by eapply list_elem_of_lookup_2. }
    split_and!; try done. exists (ps ++ [(g, g)]). split_and!; try done.
    destruct (st_split_g st) as [p|].
    - pose proof (GSome_plain _ _ _ _ _ _ g Hghost Hc) as H.
      unfold acc_step in H. by rewrite Hr in H.
    - pose proof (GNone_plain _ _ _ _ g Hghost Hc) as H.
      unfold acc_step in H. by rewrite Hr in H. }
  case_bool_decide as Hign.
  { (* an ignored glyph defers its advance *)
    assert (Hc : is_candidate (split g) = false) by by rewrite Hign.
    split_and!; try done. exists (ps ++ [(g, g)]).
    cbn [st_glyphs st_split_g st_width st_x st_splitx st_ignored].
    split_and!; try done.
    destruct (st_split_g st) as [p|].
    - pose proof (GSome_plain _ _ _ _ _ _ g Hghost Hc) as H.
      unfold acc_step in H. rewrite Hr in H.
      by rewrite bool_decide_eq_true_2 in H.
    - pose proof (GNone_plain _ _ _ _ g Hghost Hc) as H.
      unfold acc_step in H. rewrite Hr in H.
      by rewrite bool_decide_eq_true_2 in H. }
  (* a counted glyph *)
  assert (Hstep : ∀ x ign, acc_step g (x, ign) = ((x + (advance g + ign))%Q, 0%Q)).
  { intros x ign. unfold acc_step. rewrite Hr.
    by rewrite bool_decide_eq_false_2. }
  destruct (st_split_g st) as [p|] eqn:Hsg.
  - assert (Hp : p < i).
    { destruct Hghost as (X & pg & Y & _ & _ & -> & <- & _).
      rewrite <- Hpslen, length_app. simpl. lia. }
    rewrite bool_decide_eq_true_2 by done. rewrite andb_true_r.
    destruct (Qgt_bool (st_x st) (st_width st)) eqn:Hover.
    + (* the line overflowed: the pending candidate is taken *)
      apply GSome_commit in Hghost.
      destruct (is_candidate (split g)) eqn:Hc.
      * pose proof (Closed_candidate _ _ _ _ g (GNone_Closed _ _ _ _ Hghost)
                      Hc Hr) as H.
        rewrite Hpslen in H.
        destruct (split g); try done;
          cbn [demote st_glyphs st_split_g st_width st_x st_splitx st_ignored];
          (split_and!; try done); exists (ps ++ [(g, g)]);
          (split_and!; try done).
      * pose proof (GNone_plain _ _ _ _ g Hghost Hc) as H.
        rewrite Hstep in H.
        destruct (split g); try done;
          cbn [demote st_glyphs st_split_g st_width st_x st_splitx st_ignored];
          (split_and!; try done); exists (ps ++ [(g, g)]);
          (split_and!; try done).
    + (* the line still fits *)
      apply Qgt_bool_false in Hover.
      destruct (is_candidate (split g)) eqn:Hc.
      * destruct (GSome_demote _ _ _ _ _ _ Hghost Hover)
          as (ps' & H1 & H2 & Hclosed).
        pose proof (Closed_candidate _ _ _ _ g Hclosed Hc Hr) as H.
        replace (length ps') with i in H
          by (by rewrite <- Hpslen, <- !(length_fmap fst ps'), H1, length_fmap).
        destruct (Hdem p ps' Hp H1 H2) as (D1 & D2 & D3 & D4).
        destruct (split g); try done;
          cbn [demote st_glyphs st_split_g st_width st_x st_splitx st_ignored];
          (split_and!; try done); exists (ps' ++ [(g, g)]);
          (split_and!; try done).
      * pose proof (GSome_plain _ _ _ _ _ _ g Hghost Hc) as H.
        rewrite !Hstep in H.
        destruct (split g); try done;
          cbn [demote st_glyphs st_split_g st_width st_x st_splitx st_ignored];
          (split_and!; try done); exists (ps ++ [(g, g)]);
          (split_and!; try done).
  - rewrite bool_decide_eq_false_2 by (by intros [? ?]).
    rewrite andb_false_r.
    destruct (is_candidate (split g)) eqn:Hc.
    + pose proof (Closed_candidate _ _ _ _ g (GNone_Closed _ _ _ _ Hghost)
                    Hc Hr) as H.
      rewrite Hpslen in H.
      destruct (split g); try done;
        cbn [demote st_glyphs st_split_g st_width st_x st_splitx st_ignored];
        (split_and!; try done); exists (ps ++ [(g, g)]);
        (split_and!; try done).
    + pose proof (GNone_plain _ _ _ _ g Hghost Hc) as H.
      rewrite Hstep in H.
      destruct (split g); try done;
        cbn [demote st_glyphs st_split_g st_width st_x st_splitx st_ignored];
        (split_and!; try done); exists (ps ++ [(g, g)]);
        (split_and!; try done).
Qed.

Lemma greedy_fold_inv (n a : nat) st :
  a + n ≤ length glyphs → Inv a st →
  Inv (a + n) (fold_left (greedy_step (inject_Z rest_width)) (seq a n) st).
Proof.
  revert a st. induction n as [|n IH]; intros a st Hle H.
  - by rewrite Nat.add_0_r.
  - cbn [seq fold_left]. replace (a + S n) with (S a + n) by lia.
    apply IH; [lia|]. apply greedy_step_inv; [lia|done].
Qed.

Lemma greedy_init_inv : Inv 0 (greedy_init glyphs first_width).
Proof.
  split_and!; try done. exists []. split_and!; try done.
  exists [], []. split_and!; done.
Qed.

(** The finished pass leaves every line closed. *)
Lemma linebreak_greedy_closed :
  ∃ W x ign,
    Closed (zip glyphs (linebreak_greedy glyphs first_width rest_width))
      W x ign.
Proof.
  pose proof (greedy_fold_inv (length glyphs) 0 _ (Nat.le_refl _)
                greedy_init_inv) as H.
  cbn [Nat.add] in H. unfold linebreak_greedy, greedy_loop.
  set (st := fold_left _ _ _) in *.
  destruct H as (Hlen & _ & ps & Hps1 & Hps2 & Hghost).
  rewrite firstn_all in Hps1. rewrite <- Hlen, firstn_all in Hps2.
  destruct (st_split_g st) as [p|].
  - destruct (Qgt_bool (st_x st) (st_width st)) eqn:Hover.
    + cbn [demote]. rewrite <- Hps1, <- Hps2, zip_fst_snd.
      do 3 eexists. eapply GNone_Closed, GSome_commit, Hghost.
    + apply Qgt_bool_false in Hover.
      destruct (GSome_demote _ _ _ _ _ _ Hghost Hover)
        as (ps' & H1 & H2 & Hclosed).
      cbn [demote]. rewrite <- Hps2, <- H2, <- Hps1, <- H1, zip_fst_snd.
      do 3 eexists. exact Hclosed.
  - replace (demote _ (st_glyphs st)) with (st_glyphs st)
      by (by destruct (Qgt_bool _ _)).
    rewrite <- Hps1, <- Hps2, zip_fst_snd.
    do 3 eexists. eapply GNone_Closed, Hghost.
Qed.


End GreedyFit.



(** * Further properties *)

Section UnparseFacts.

Import Tokenizer Unparse.

Lemma escape_braces_app (a b : unicode) :
  escape_braces (a ++ b) = escape_braces a ++ escape_braces b.
Proof.
  induction a as [|c a IH]; [done|]. simpl.
  destruct (c =? LBRACE)%Z; simpl; by rewrite IH.
Qed.

Lemma escape_braces_plain (s : unicode) : LBRACE ∉ s → escape_braces s = s.
Proof.
  induction s as [|c s IH]; [done|]. intros Hnot.
  apply not_elem_of_cons in Hnot as [Hc Hs]. simpl.
  destruct (Z.eqb_spec c LBRACE); [done|]. by rewrite IH.
Qed.

Lemma unparse_snoc (rv : list token) (t : token) :
  unparse (rv ++ [t]) = unparse rv ++ unparse_token t.
Proof.
  unfold unparse. rewrite map_app, concat_app. simpl. by rewrite app_nil_r.
Qed.

Lemma unparse_finish (buf : unicode) rv :
  unparse (if nonempty buf then finish_text false buf rv else rv)
  = unparse rv ++ escape_braces buf.
Proof.
  destruct buf as [|c buf]; [by rewrite app_nil_r|].
  cbn [nonempty]. unfold finish_text. rewrite andb_false_r.
  by rewrite unparse_snoc.
Qed.

(** One step of the scanner adds the character it reads to what the
    entries and the pending buffer spell. *)
Lemma tok_step_unparse state buf rv c state' buf' rv' :
  tok_step false (state, buf, rv) c = Some (state', buf', rv') →
  unparse rv' ++ pending_text state' buf'
  = (unparse rv ++ pending_text state buf) ++ [c].
Proof.
  unfold tok_step. destruct state.
  - destruct (Z.eqb_spec c NEWLINE) as [->|Hnl].
    { intros [= <- <- <-]. rewrite unparse_snoc, unparse_finish.
      cbn. by rewrite app_nil_r. }
    destruct (Z.eqb_spec c LBRACE) as [->|Hlb].
    { intros [= <- <- <-]. cbn. by rewrite app_assoc. }
    intros [= <- <- <-]. cbn [pending_text].
    rewrite escape_braces_app. cbn.
    destruct (Z.eqb_spec c LBRACE); [done|]. by rewrite app_assoc.
  - destruct (Z.eqb_spec c LBRACE) as [->|Hlb].
    { intros [= <- <- <-]. cbn [pending_text].
      rewrite escape_braces_app. cbn. by rewrite <- !app_assoc. }
    destruct (Z.eqb_spec c RBRACE) as [->|Hrb]; [done|].
    intros [= <- <- <-]. rewrite unparse_finish. cbn [pending_text].
    by rewrite <- !app_assoc.
  - destruct (Z.eqb_spec c RBRACE) as [->|Hrb].
    { intros [= <- <- <-]. rewrite unparse_snoc. cbn.
      rewrite app_nil_r. by rewrite <- !app_assoc. }
    intros [= <- <- <-]. cbn. by rewrite <- !app_assoc.
Qed.

Lemma tok_loop_unparse (cs : unicode) state buf rv state' buf' rv' :
  tok_loop false cs (state, buf, rv) = Some (state', buf', rv') →
  unparse rv' ++ pending_text state' buf'
  = (unparse rv ++ pending_text state buf) ++ cs.
Proof.
  revert state buf rv. induction cs as [|c cs IH]; intros state buf rv.
  - intros [= <- <- <-]. by rewrite app_nil_r.
  - cbn [tok_loop].
    destruct (tok_step false (state, buf, rv) c) as [[[s1 b1] r1]|] eqn:Hstep;
      [|done].
    intros Hloop. rewrite (IH _ _ _ Hloop), (tok_step_unparse _ _ _ _ _ _ _ Hstep).
    by rewrite <- !app_assoc.
Qed.

(** X1. When [tokenize], lenticular ruby off, returns a list of entries,
    writing the entries back gives the string it was called on: a text run
    with each of its opening braces doubled, a tag between braces, a
    paragraph break as a newline. The tokenizer drops and adds no
    character. *)
Theorem tokenize_unparse (s : unicode) (toks : list token) :
  tokenize false s = Ok toks → unparse toks = s.
Proof.
  unfold tokenize. destruct (nonempty s) eqn:Hne; cbn [negb].
  2:{ intros [= <-]. by destruct s. }
  destruct (contains LBRACE s) eqn:HL; cbn [negb andb].
  2:{ destruct (negb (contains NEWLINE s) && negb (contains LENT_OPEN s)).
      - intros [= <-]. unfold unparse. cbn. rewrite app_nil_r.
        apply escape_braces_plain. by apply contains_false.
      - destruct (tok_loop false s (TEXT_STATE, [], [])) as [[[st b] r]|] eqn:Hl;
          [|done].
        destruct st; try done. intros [= <-]. rewrite unparse_finish.
        exact (tok_loop_unparse _ _ _ _ _ _ _ Hl). }
  destruct (tok_loop false s (TEXT_STATE, [], [])) as [[[st b] r]|] eqn:Hl;
    [|done].
  destruct st; try done. intros [= <-]. rewrite unparse_finish.
  exact (tok_loop_unparse _ _ _ _ _ _ _ Hl).
Qed.

End UnparseFacts.

Lemma tokenize_unparse_witness :
  Unparse.unparse
    [(Tokenizer.TEXT, [97; 123]); (Tokenizer.TAG, [98]);
     (Tokenizer.PARAGRAPH, [])]%Z
  = [97; 123; 123; 123; 98; 125; 10]%Z.
Proof.
apply (tokenize_unparse [97; 123; 123; 123; 98; 125; 10]%Z). reflexivity.
Defined.

Section ShapeFacts.

Import Tokenizer Unparse.

Lemma finish_text_shaped (buf : unicode) rv :
  Forall well_shaped rv → NEWLINE ∉ buf →
  Forall well_shaped (if nonempty buf then finish_text false buf rv else rv).
Proof.
  intros Hrv Hbuf. destruct buf as [|c buf]; [done|].
  cbn [nonempty]. unfold finish_text. rewrite andb_false_r.
  apply Forall_app. split; [done|]. constructor; [|constructor].
  left. by split_and!.
Qed.

Lemma tok_step_shaped state buf rv c state' buf' rv' :
  tok_step false (state, buf, rv) c = Some (state', buf', rv') →
  Forall well_shaped rv → buffer_ok state buf →
  Forall well_shaped rv' ∧ buffer_ok state' buf'.
Proof.
  unfold tok_step. destruct state; cbn [buffer_ok].
  - destruct (Z.eqb_spec c NEWLINE) as [->|Hnl].
    { intros [= <- <- <-] Hrv Hbuf. split; [|apply not_elem_of_nil].
      apply Forall_app. split; [by apply finish_text_shaped|].
      constructor; [|constructor]. by right; right. }
    destruct (Z.eqb_spec c LBRACE) as [->|Hlb].
    { by intros [= <- <- <-] Hrv Hbuf. }
    intros [= <- <- <-] Hrv Hbuf. split; [done|]. cbn.
    rewrite elem_of_app, list_elem_of_singleton. intros [?|?]; congruence.
  - destruct (Z.eqb_spec c LBRACE) as [->|Hlb].
    { intros [= <- <- <-] Hrv Hbuf. split; [done|]. cbn.
      rewrite elem_of_app, list_elem_of_singleton. intros [?|?]; [done|].
      discriminate. }
    destruct (Z.eqb_spec c RBRACE) as [->|Hrb]; [done|].
    intros [= <- <- <-] Hrv Hbuf. split; [by apply finish_text_shaped|].
    cbn. split; [|by eauto].
    rewrite list_elem_of_singleton. congruence.
  - destruct (Z.eqb_spec c RBRACE) as [->|Hrb].
    { intros [= <- <- <-] Hrv [Hno Hhead]. split; [|apply not_elem_of_nil].
      apply Forall_app. split; [done|]. constructor; [|constructor].
      right; left. by split_and!. }
    intros [= <- <- <-] Hrv [Hno (c0 & r0 & -> & Hc1 & Hc2)].
    split; [done|]. cbn. split.
    + change (c0 :: r0 ++ [c]) with ((c0 :: r0) ++ [c]).
      rewrite elem_of_app, list_elem_of_singleton. intros [?|?]; congruence.
    + by exists c0, (r0 ++ [c]).
Qed.

Lemma tok_loop_shaped (cs : unicode) state buf rv state' buf' rv' :
  tok_loop false cs (state, buf, rv) = Some (state', buf', rv') →
  Forall well_shaped rv → buffer_ok state buf →
  Forall well_shaped rv' ∧ buffer_ok state' buf'.
Proof.
  revert state buf rv. induction cs as [|c cs IH]; intros state buf rv.
  - by intros [= <- <- <-].
  - cbn [tok_loop].
    destruct (tok_step false (state, buf, rv) c) as [[[s1 b1] r1]|] eqn:Hstep;
      [|done].
    intros Hloop Hrv Hbuf.
    destruct (tok_step_shaped _ _ _ _ _ _ _ Hstep Hrv Hbuf) as [H1 H2].
    by apply (IH _ _ _ Hloop).
Qed.

(** X2. Every entry that [tokenize], lenticular ruby off, returns is a
    text run that is not empty and holds no newline, or a tag whose body is
    not empty, starts with neither brace and holds no closing brace, or a
    paragraph break with the empty text. *)
Theorem tokenize_well_shaped (s : unicode) (toks : list token) :
  tokenize false s = Ok toks → Forall well_shaped toks.
Proof.
  unfold tokenize. destruct (nonempty s) eqn:Hne; cbn [negb].
  2:{ by intros [= <-]. }
  assert (Hloop : match tok_loop false s (TEXT_STATE, [], []) with
                  | Some (state, buf, rv) =>
                      match state with
                      | TEXT_STATE =>
                          Ok (if nonempty buf then finish_text false buf rv
                              else rv)
                      | _ => Raise (Open_text_tag s)
                      end
                  | None => Raise (Empty_text_tag s)
                  end = Ok toks → Forall well_shaped toks).
  { destruct (tok_loop false s (TEXT_STATE, [], [])) as [[[st b] r]|] eqn:Hl;
      [|done].
    destruct st; try done. intros [= <-].
    destruct (tok_loop_shaped _ _ _ _ _ _ _ Hl) as [H1 H2];
      [constructor|apply not_elem_of_nil|].
    by apply finish_text_shaped. }
  destruct (contains LBRACE s); cbn [negb andb]; [done|].
  destruct (contains NEWLINE s) eqn:HN; cbn [negb andb]; [done|].
  destruct (contains LENT_OPEN s); cbn [negb]; [done|].
  intros [= <-]. constructor; [|constructor]. left. split_and!; [done| |].
  - by destruct s.
  - by apply contains_false.
Qed.

End ShapeFacts.

Lemma tokenize_well_shaped_witness :
  Forall Unparse.well_shaped
    [(Tokenizer.TEXT, [97; 123]); (Tokenizer.TAG, [98]);
     (Tokenizer.PARAGRAPH, [])]%Z.
Proof.
apply (tokenize_well_shaped [97; 123; 123; 123; 98; 125; 10]%Z). reflexivity.
Defined.

Section LenticularFacts.

Import Tokenizer Unparse.

Lemma lent_step_prepend rv0 st c :
  lent_step (lent_prepend rv0 st) c = lent_prepend rv0 (lent_step st c).
Proof.
  destruct st as [[state buf] rv]. unfold lent_prepend, lent_step. cbn [fst snd].
  destruct state;
    repeat (match goal with
            | |- context [if ?b then _ else _] => destruct b
            end); cbn [fst snd]; by rewrite ?app_assoc.
Qed.

Lemma lent_fold_prepend rv0 (s : unicode) st :
  fold_left lent_step s (lent_prepend rv0 st)
  = lent_prepend rv0 (fold_left lent_step s st).
Proof.
  revert st. induction s as [|c s IH]; intros st; [done|].
  cbn [fold_left]. by rewrite lent_step_prepend, IH.
Qed.

Lemma lent_fold_text (pre buf : unicode) rv :
  LENT_OPEN ∉ pre →
  fold_left lent_step pre (L_TEXT_STATE, buf, rv)
  = (L_TEXT_STATE, buf ++ pre, rv).
Proof.
  revert buf. induction pre as [|c pre IH]; intros buf Hnot.
  - by rewrite app_nil_r.
  - apply not_elem_of_cons in Hnot as [Hc Hpre]. cbn [fold_left lent_step].
    destruct (Z.eqb_spec c LENT_OPEN); [done|].
    rewrite IH by done. by rewrite <- app_assoc.
Qed.

Lemma lent_fold_left (base buf : unicode) rv :
  LENT_CLOSE ∉ base → FULLWIDTH_VBAR ∉ base → VBAR ∉ base →
  buf ≠ [] ∨ head base ≠ Some LENT_OPEN →
  fold_left lent_step base (L_LEFT_STATE, buf, rv)
  = (L_LEFT_STATE, buf ++ base, rv).
Proof.
  revert buf. induction base as [|c base IH]; intros buf H1 H2 H3 Hhead.
  - by rewrite app_nil_r.
  - apply not_elem_of_cons in H1 as [? ?].
    apply not_elem_of_cons in H2 as [? ?].
    apply not_elem_of_cons in H3 as [? ?].
    cbn [fold_left lent_step].
    assert (Hesc : (c =? LENT_OPEN)%Z && negb (nonempty buf) = false).
    { destruct Hhead as [Hbuf|Hc].
      - destruct buf; [done|]. by rewrite andb_false_r.
      - destruct (Z.eqb_spec c LENT_OPEN) as [->|?]; [by destruct Hc|done]. }
    rewrite Hesc.
    destruct (Z.eqb_spec c LENT_CLOSE); [done|].
    destruct (Z.eqb_spec c FULLWIDTH_VBAR); [done|].
    destruct (Z.eqb_spec c VBAR); [done|]. cbn [orb].
    rewrite IH; try done.
    + by rewrite <- app_assoc.
    + left. by destruct buf.
Qed.

Lemma lent_fold_right (reading buf : unicode) rv :
  LENT_CLOSE ∉ reading →
  fold_left lent_step reading (L_RIGHT_STATE, buf, rv)
  = (L_RIGHT_STATE, buf ++ reading, rv).
Proof.
  revert buf. induction reading as [|c reading IH]; intros buf Hnot.
  - by rewrite app_nil_r.
  - apply not_elem_of_cons in Hnot as [Hc Hr]. cbn [fold_left lent_step].
    destruct (Z.eqb_spec c LENT_CLOSE); [done|].
    rewrite IH by done. by rewrite <- app_assoc.
Qed.

(** The scanner from the text state with nothing buffered. *)
Lemma lenticular_from_text (rv : list token) (rest : unicode)
    (st : lent_state * unicode * list token) :
  st = fold_left lent_step rest (L_TEXT_STATE, [], rv) →
  (let '(state, buf, rv') := st in
   if nonempty buf then
     match state with
     | L_TEXT_STATE => rv' ++ [(TEXT, buf)]
     | L_LEFT_STATE => rv' ++ [(TEXT, LENT_OPEN :: buf)]
     | L_RIGHT_STATE =>
         rv' ++ [(TAG, str_rt); (TEXT, buf); (TAG, str_end_rt)]
     end
   else rv') = rv ++ lenticular_bracket_ruby rest.
Proof.
  intros ->. unfold lenticular_bracket_ruby.
  replace (L_TEXT_STATE, [], rv)
    with (lent_prepend rv (L_TEXT_STATE, @nil Z, @nil token))
    by (unfold lent_prepend; cbn; by rewrite app_nil_r).
  rewrite lent_fold_prepend.
  destruct (fold_left lent_step rest (L_TEXT_STATE, [], [])) as [[state buf] r].
  unfold lent_prepend. cbn [fst snd].
  destruct (nonempty buf); [|done]. destruct state; by rewrite <- app_assoc.
Qed.

(** X3. [lenticular_bracket_ruby] on a string in which the first
    opening lenticular bracket starts a complete group: [pre] holds no
    opening bracket, [base] holds no closing bracket and no bar and starts
    with no opening bracket, [sep] is the full-width or the ASCII bar, and
    [reading] holds no closing bracket. The result is the text run [pre] if
    it is not empty, the six entries rb, [base], /rb, rt, [reading], /rt,
    and then the entries of what follows the closing bracket. *)
Theorem lenticular_ruby_group (pre base reading rest : unicode) (sep : Z) :
  LENT_OPEN ∉ pre → ruby_base base →
  sep = FULLWIDTH_VBAR ∨ sep = VBAR →
  LENT_CLOSE ∉ reading →
  lenticular_bracket_ruby
    (pre ++ LENT_OPEN :: base ++ sep :: reading ++ LENT_CLOSE :: rest)
  = text_run pre ++ ruby_group base reading ++ lenticular_bracket_ruby rest.
Proof.
  intros Hpre (B1 & B2 & B3 & B4) Hsep Hread.
  unfold lenticular_bracket_ruby at 1.
  rewrite fold_left_app, lent_fold_text by done. cbn [fold_left app].
  unfold lent_step at 2. change (LENT_OPEN =? LENT_OPEN)%Z with true. cbn match.
  rewrite fold_left_app, lent_fold_left by auto. cbn [fold_left app].
  unfold lent_step at 2.
  assert (Hs1 : (sep =? LENT_OPEN)%Z = false) by (by destruct Hsep as [-> | ->]).
  assert (Hs2 : (sep =? LENT_CLOSE)%Z = false) by (by destruct Hsep as [-> | ->]).
  assert (Hs3 : (sep =? FULLWIDTH_VBAR)%Z || (sep =? VBAR)%Z = true)
    by (by destruct Hsep as [-> | ->]).
  rewrite Hs1, Hs2, Hs3. cbn [andb].
  rewrite fold_left_app, lent_fold_right by done. cbn [fold_left app].
  unfold lent_step at 2. change (LENT_CLOSE =? LENT_CLOSE)%Z with true.
  cbn match.
  rewrite (lenticular_from_text _ rest _ eq_refl).
  unfold text_run, ruby_group. destruct (nonempty pre); by rewrite <- ?app_assoc.
Qed.

(** X4. [lenticular_bracket_ruby] on a string that ends in an opening
    lenticular bracket followed by [body], where [body] holds no bar and no
    closing bracket and starts with no opening bracket: the bracket and
    [body] come back as one text run, and an opening bracket that ends the
    string is dropped. *)
Theorem lenticular_unmatched (pre body : unicode) :
  LENT_OPEN ∉ pre → ruby_base body →
  lenticular_bracket_ruby (pre ++ LENT_OPEN :: body)
  = text_run pre ++ (if nonempty body then [(TEXT, LENT_OPEN :: body)] else []).
Proof.
  intros Hpre (B1 & B2 & B3 & B4). unfold lenticular_bracket_ruby.
  rewrite fold_left_app, lent_fold_text by done. cbn [fold_left app].
  unfold lent_step at 2. change (LENT_OPEN =? LENT_OPEN)%Z with true. cbn match.
  rewrite lent_fold_left by auto. cbn [app].
  unfold text_run. destruct (nonempty pre), (nonempty body); by rewrite ?app_nil_r.
Qed.

Lemma tok_loop_text (s buf : unicode) rv cfg :
  LBRACE ∉ s → NEWLINE ∉ s →
  tok_loop cfg s (TEXT_STATE, buf, rv) = Some (TEXT_STATE, buf ++ s, rv).
Proof.
  revert buf. induction s as [|c s IH]; intros buf H1 H2.
  - by rewrite app_nil_r.
  - apply not_elem_of_cons in H1 as [? ?].
    apply not_elem_of_cons in H2 as [? ?]. cbn [tok_loop tok_step].
    destruct (Z.eqb_spec c NEWLINE); [done|].
    destruct (Z.eqb_spec c LBRACE); [done|].
    rewrite IH by done. by rewrite <- app_assoc.
Qed.

(** X5. With lenticular ruby on, on a string that holds no opening
    brace and no newline but holds an opening lenticular bracket,
    [tokenize] does not raise and returns what [lenticular_bracket_ruby]
    returns on the string. *)
Theorem tokenize_lenticular (s : unicode) :
  LBRACE ∉ s → NEWLINE ∉ s → LENT_OPEN ∈ s →
  tokenize true s = Ok (lenticular_bracket_ruby s).
Proof.
  intros H1 H2 H3. unfold tokenize.
  assert (Hne : nonempty s = true) by (destruct s; [by apply elem_of_nil in H3|done]).
  rewrite Hne. cbn [negb].
  rewrite (proj2 (contains_true LENT_OPEN s) H3), andb_false_r.
  rewrite tok_loop_text by done. cbn [app]. rewrite Hne.
  unfold finish_text. by rewrite (proj2 (contains_true LENT_OPEN s) H3).
Qed.

End LenticularFacts.

Lemma lenticular_ruby_group_witness :
  Tokenizer.lenticular_bracket_ruby [97; 12304; 26481; 65372; 12392; 12305]%Z
  = [(Tokenizer.TEXT, [97]%Z); (Tokenizer.TAG, Tokenizer.str_rb);
     (Tokenizer.TEXT, [26481]%Z); (Tokenizer.TAG, Tokenizer.str_end_rb);
     (Tokenizer.TAG, Tokenizer.str_rt); (Tokenizer.TEXT, [12392]%Z);
     (Tokenizer.TAG, Tokenizer.str_end_rt)].
Proof.
apply (lenticular_ruby_group [97]%Z [26481]%Z [12392]%Z [] 65372%Z).
- apply contains_false. reflexivity.
- unfold Unparse.ruby_base. split_and!; try (apply contains_false; reflexivity).
  discriminate.
- left. reflexivity.
- apply contains_false. reflexivity.
Defined.

Lemma lenticular_unmatched_witness :
  Tokenizer.lenticular_bracket_ruby [97; 12304]%Z = [(Tokenizer.TEXT, [97]%Z)]
  ∧ Tokenizer.lenticular_bracket_ruby [97; 12304; 98]%Z
    = [(Tokenizer.TEXT, [97]%Z); (Tokenizer.TEXT, [12304; 98]%Z)].
Proof.
split.
- apply (lenticular_unmatched [97]%Z []).
  + apply contains_false. reflexivity.
  + unfold Unparse.ruby_base.
    split_and!; try (apply contains_false; reflexivity). discriminate.
- apply (lenticular_unmatched [97]%Z [98]%Z).
  + apply contains_false. reflexivity.
  + unfold Unparse.ruby_base.
    split_and!; try (apply contains_false; reflexivity). discriminate.
Defined.

Lemma tokenize_lenticular_witness :
  Tokenizer.tokenize true [12304; 26481; 124; 12392; 12305]%Z
  = Ok (Unparse.ruby_group [26481]%Z [12392]%Z).
Proof.
apply (tokenize_lenticular [12304; 26481; 124; 12392; 12305]%Z).
- apply contains_false. reflexivity.
- apply contains_false. reflexivity.
- apply contains_true. reflexivity.
Defined.

Section SimpleFacts.

Import Simple.

Lemma western_glyph_fields (g : Glyph) :
  ruby (western_glyph g) = ruby g ∧ character (western_glyph g) = character g.
Proof.
  unfold western_glyph.
  repeat (match goal with
          | |- context [if ?b then _ else _] => destruct b
          end); done.
Qed.

Lemma western_glyph_idem (g : Glyph) :
  western_glyph (western_glyph g) = western_glyph g.
Proof.
  destruct (western_glyph_fields g) as [Hr Hc].
  unfold western_glyph at 1. rewrite Hr, Hc. unfold western_glyph.
  repeat (match goal with
          | |- context [if ?b then _ else _] => destruct b
          end); done.
Qed.

(** X6. Running [annotate_western] a second time changes nothing. *)
Theorem annotate_western_idempotent (glyphs : list Glyph) :
  annotate_western (annotate_western glyphs) = annotate_western glyphs.
Proof.
  unfold annotate_western. rewrite map_map.
  apply map_ext. intros g. apply western_glyph_idem.
Qed.

(** X7. On the same glyph list, [annotate_western] and
    [annotate_anywhere] give glyphs that differ in their split at most; on
    a glyph that is not ruby, the one gives [SPLIT_INSTEAD] exactly when the
    other does, and [annotate_anywhere] always leaves a place to break
    ([SPLIT_BEFORE] or [SPLIT_INSTEAD]). *)
Theorem anywhere_extends_western (glyphs : list Glyph) :
  Forall2 (λ w a,
             Classifier.resplit w a
             ∧ (ruby w = RUBY_NONE →
                (split w = SPLIT_INSTEAD ↔ split a = SPLIT_INSTEAD)
                ∧ Breaks.is_candidate (split a) = true))
    (annotate_western glyphs) (annotate_anywhere glyphs).
Proof.
  unfold annotate_western, annotate_anywhere.
  apply Forall2_fmap, Forall_Forall2_diag, Forall_forall. intros g _.
  unfold western_glyph, anywhere_glyph.
  case_bool_decide as Hr.
  { split; [exists (split g); by destruct g|]. intros Hn. done. }
  split.
  - repeat (match goal with
            | |- context [if ?b then _ else _] => destruct b
            end); by eexists.
  - intros _. destruct (Z.eqb_spec (character g) 0) as [E0|N0].
    + rewrite E0. cbn. split; [split; discriminate | done].
    + destruct ((character g =? 32)%Z || (character g =? ZWSP)%Z); cbn.
      * done.
      * split; [split; discriminate | done].
Qed.

End SimpleFacts.

Section RubyFacts.

Import Classifier Ruby.

Variable T : LinebreakPxi.
Variable break_tailor : Z → Z.
Variable no_ideographs : bool.
Variable cjk : Z.

(** X8. Whatever the tables, the tailoring, the [no_ideographs] flag
    and the profile, [annotate_unicode] returns the glyphs it was given, in
    order, with nothing but their splits changed. *)
Theorem annotate_unicode_frame (glyphs : list Glyph) :
  Forall2 resplit glyphs
    (annotate_unicode T break_tailor no_ideographs cjk glyphs).
Proof. apply annotate_unicode_resplit. Qed.

Lemma ruby_step_lookup (gs : list Glyph) old_g pos i g' :
  (ruby_step (gs, old_g) pos).1 !! i = Some g' →
  ∃ g0, gs !! i = Some g0 ∧ ruby g' = ruby g0 ∧ (i ≠ pos → g' = g0).
Proof.
  unfold ruby_step.
  destruct (gs !! pos) as [g|] eqn:Hg; [|by eauto].
  destruct (gs !! old_g) as [og|]; [|by eauto]. cbn [fst].
  assert (H1 : ∀ (gs1 : list Glyph) v, (∀ g1, gs1 !! i = Some g1 →
                          ∃ g0, gs !! i = Some g0 ∧ ruby g1 = ruby g0
                                ∧ (i ≠ pos → g1 = g0)) →
                        ∀ g1, alter (set_split v) pos gs1 !! i = Some g1 →
                          ∃ g0, gs !! i = Some g0 ∧ ruby g1 = ruby g0
                                ∧ (i ≠ pos → g1 = g0)).
  { intros gs1 v IH g1 Hl.
    pose proof (lookup_alter_split _ _ _ _ _ Hl) as (g2 & Hg2 & _ & _ & Hne).
    destruct (IH g2 Hg2) as (g0 & Hg0 & Hr & Hne0).
    exists g0. split; [done|].
    destruct (decide (i = pos)) as [->|Hi].
    - split; [|done]. rewrite <- Hr.
      rewrite list_lookup_alter_eq, Hg2 in Hl. by injection Hl as <-.
    - rewrite (Hne Hi). auto. }
  assert (H0 : ∀ g1, gs !! i = Some g1 →
                 ∃ g0, gs !! i = Some g0 ∧ ruby g1 = ruby g0
                       ∧ (i ≠ pos → g1 = g0)) by eauto.
  revert g'.
  repeat (match goal with
          | |- context [if ?b then _ else _] => destruct b
          end); repeat apply H1; exact H0.
Qed.

Lemma ruby_step_settles (gs : list Glyph) old_g pos g og g' :
  gs !! pos = Some g → gs !! old_g = Some og →
  (ruby_step (gs, old_g) pos).1 !! pos = Some g' →
  ruby_settled og g'.
Proof.
  intros Hg Hog. unfold ruby_step. rewrite Hg, Hog. cbn [fst].
  set (gs1 := if (character g =? 0)%Z then _ else _).
  assert (Hruby : ∀ (gs' : list Glyph) v g1,
            alter (set_split v) pos gs' !! pos = Some g1 →
                    split g1 = v).
  { intros gs' v g1 Hl.
    apply lookup_alter_split in Hl as (_ & _ & _ & Heq & _). by apply Heq. }
  assert (Hr1 : ∀ g1, gs1 !! pos = Some g1 → ruby g1 = ruby g).
  { intros g1 Hl. subst gs1. destruct (character g =? 0)%Z.
    - rewrite list_lookup_alter_eq, Hg in Hl. by injection Hl as <-.
    - congruence. }
  destruct (ruby_skipped g) eqn:Hs.
  { intros Hl. split; intros; by eapply Hruby. }
  destruct (bool_decide (ruby g = RUBY_BOTTOM)
            && bool_decide (ruby og = RUBY_BOTTOM)) eqn:Hb.
  { intros Hl. split; intros; by eapply Hruby. }
  intros Hl. pose proof (Hr1 g' Hl) as Hr. split.
  - unfold ruby_skipped in *. rewrite Hr. congruence.
  - intros H1 H2. rewrite Hr in H1.
    rewrite !bool_decide_eq_true_2 in Hb by done. done.
Qed.

Lemma ruby_fold_settled (n k : nat) (gs : list Glyph) :
  k + n ≤ length gs → settled_before k gs →
  let st := fold_left ruby_step (seq k n) (gs, pred k) in
  length st.1 = length gs ∧ settled_before (k + n) st.1.
Proof.
  revert k gs. induction n as [|n IH]; intros k gs Hlen Hinv.
  - cbn. by rewrite Nat.add_0_r.
  - cbn [seq fold_left].
    destruct (lookup_lt_is_Some_2 gs k) as [g Hg]; [lia|].
    destruct (lookup_lt_is_Some_2 gs (pred k)) as [og Hog]; [lia|].
    assert (Hstep : ruby_step (gs, pred k) k
                    = ((ruby_step (gs, pred k) k).1, pred (S k))).
    { unfold ruby_step. by rewrite Hg, Hog. }
    assert (Hlen' : length (ruby_step (gs, pred k) k).1 = length gs).
    { unfold ruby_step. rewrite Hg, Hog. cbn [fst].
      repeat (match goal with
              | |- context [if ?b then _ else _] => destruct b
              end); by rewrite ?length_alter. }
    rewrite Hstep. replace (k + S n) with (S k + n) by lia.
    set (gs' := (ruby_step (gs, pred k) k).1) in *.
    destruct (IH (S k) gs') as [L1 L2]; [lia| |].
    + intros i g1 og1 Hi Hl1 Hl2.
      apply ruby_step_lookup in Hl2 as Hl2'.
      destruct Hl2' as (og0 & Hog0 & Hrog & Hneo).
      destruct (decide (i = k)) as [->|Hik].
      * pose proof (ruby_step_settles gs (pred k) k g og g1 Hg Hog Hl1)
          as [S1 S2].
        split; [done|]. intros B1 B2. apply S2; [done|].
        rewrite Hog in Hog0. injection Hog0 as <-. by rewrite <- Hrog.
      * apply ruby_step_lookup in Hl1 as (g0 & Hg0 & Hrg & Hne).
        rewrite (Hne Hik). rewrite (Hneo ltac:(lia)).
        apply (Hinv i g0 og0); [lia|done..].
    + split; [by rewrite L1|done].
Qed.

(** X9. After [annotate_unicode], a ruby-top or alt-ruby glyph has
    split [SPLIT_NONE], and so has a ruby-bottom glyph that follows a
    ruby-bottom glyph (the first glyph is compared with itself): ruby text
    is never broken inside. *)
Theorem annotate_unicode_ruby (glyphs : list Glyph) i g og :
  annotate_unicode T break_tailor no_ideographs cjk glyphs !! i = Some g →
  annotate_unicode T break_tailor no_ideographs cjk glyphs !! (pred i)
  = Some og →
  (ruby_skipped g = true → split g = SPLIT_NONE)
  ∧ (ruby g = RUBY_BOTTOM → ruby og = RUBY_BOTTOM → split g = SPLIT_NONE).
Proof.
  unfold annotate_unicode. destruct glyphs as [|g0 glyphs]; [done|].
  set (gl := g0 :: glyphs).
  pose proof (annotate_fold_resplit T break_tailor no_ideographs cjk gl
                (seq 1 (length gl - 1)) (gl, BC_WJ T, 0)) as Hre.
  destruct (fold_left _ (seq 1 (length gl - 1)) (gl, BC_WJ T, 0))
    as [[gs o] s]. cbn [fst] in Hre.
  assert (Hlen : length gs = length gl).
  { symmetry. eapply Forall2_length, Hre.
    apply Forall2_same_length_lookup. split; [done|].
    intros j a b Ha Hb. rewrite Ha in Hb. injection Hb as <-.
    apply resplit_refl. }
  set (gs0 := alter (set_split SPLIT_NONE) 0 gs).
  destruct (ruby_fold_settled (length gl) 0 gs0) as [_ Hs].
  { unfold gs0. rewrite length_alter. lia. }
  { intros j. lia. }
  cbn [Nat.add pred] in Hs. intros Hi Ho.
  apply (Hs i g og); [|done..].
  apply lookup_lt_Some in Hi.
  destruct (ruby_fold_settled (length gl) 0 gs0) as [L _].
  { unfold gs0. rewrite length_alter. lia. }
  { intros j. lia. }
  cbn [pred] in L. rewrite L in Hi. unfold gs0 in Hi.
  by rewrite length_alter, Hlen in Hi.
Qed.

End RubyFacts.

Lemma annotate_unicode_ruby_witness :
  split <$>
    Classifier.annotate_unicode Classifier.sample_pxi Samples.untailored
      false 0
      [Samples.letter 97;
       Samples.glyph 12354 SPLIT_BEFORE RUBY_TOP 1] !! 1
  = Some SPLIT_NONE.
Proof.
destruct (Classifier.annotate_unicode Classifier.sample_pxi Samples.untailored
            false 0
            [Samples.letter 97;
             Samples.glyph 12354 SPLIT_BEFORE RUBY_TOP 1] !! 1)
  as [g|] eqn:Hg; [|discriminate Hg].
destruct (annotate_unicode_ruby Classifier.sample_pxi Samples.untailored
            false 0
            [Samples.letter 97;
             Samples.glyph 12354 SPLIT_BEFORE RUBY_TOP 1] 1 g
            (Samples.letter 97) Hg eq_refl) as [H _].
cbn. f_equal. apply H.
revert Hg. vm_compute. intros [= <-]. reflexivity.
Defined.

Section ListFacts.

Import Breaks Copy.

Lemma linebreak_list_loop_characters (gs : list Glyph) rv line :
  Forall valid_code_point gs →
  ∃ rv' line',
    linebreak_list_loop gs rv line = Ok (rv', line')
    ∧ concat rv' ++ line' = (concat rv ++ line) ++ kept_characters gs.
Proof.
  intros Hvalid. revert rv line.
  induction Hvalid as [|g gs Hg _ IH]; intros rv line.
  - exists rv, line. split; [done|]. unfold kept_characters. cbn.
    by rewrite app_nil_r.
  - cbn [linebreak_list_loop]. rewrite (chr_valid g Hg).
    unfold kept_characters. rewrite filter_cons.
    destruct (split g) eqn:Hs.
    + destruct (IH rv (line ++ [character g])) as (rv' & l' & -> & Hc).
      exists rv', l'. split; [done|]. rewrite Hc.
      rewrite decide_True by done. cbn. by rewrite <- !app_assoc.
    + destruct (IH (rv ++ [line]) [character g]) as (rv' & l' & -> & Hc).
      exists rv', l'. split; [done|]. rewrite Hc.
      rewrite decide_True by done. cbn.
      rewrite concat_app. cbn. by rewrite app_nil_r, <- !app_assoc.
    + destruct (IH (rv ++ [line]) []) as (rv' & l' & -> & Hc).
      exists rv', l'. split; [done|]. rewrite Hc.
      rewrite decide_False by (by intros ?). cbn.
      rewrite concat_app. cbn. by rewrite !app_nil_r.
    + destruct (IH rv (line ++ [character g])) as (rv' & l' & -> & Hc).
      exists rv', l'. split; [done|]. rewrite Hc.
      rewrite decide_True by done. cbn. by rewrite <- !app_assoc.
Qed.

(** X10. On glyphs whose characters are code points, [linebreak_list]
    does not raise, and the lines it returns, put end to end, are the
    characters of the glyphs that are not [SPLIT_INSTEAD], in order: a
    break drops the split-instead glyph and nothing else. *)
Theorem linebreak_list_characters (gs : list Glyph) :
  Forall valid_code_point gs →
  ∃ lines, linebreak_list gs = Ok lines ∧ concat lines = kept_characters gs.
Proof.
  intros Hvalid.
  destruct (linebreak_list_loop_characters gs [] [] Hvalid)
    as (rv & line & Hloop & Hc).
  unfold linebreak_list. rewrite Hloop. eexists. split; [done|].
  cbn in Hc. rewrite <- Hc.
  destruct line; [by rewrite app_nil_r|].
  rewrite concat_app. cbn. by rewrite app_nil_r.
Qed.

End ListFacts.

Lemma linebreak_list_characters_witness :
  ∃ lines,
    Breaks.linebreak_list Samples.a_b_c = Ok lines
    ∧ concat lines = [97; 98; 99]%Z.
Proof.
apply (linebreak_list_characters Samples.a_b_c).
repeat constructor; unfold Breaks.valid_code_point; simpl; lia.
Defined.

Section GreedyFits.

Import Greedy Breaks Copy.

Variable glyphs : list Glyph.
Variables first_width rest_width : Z.

Hypothesis Hnonneg :
  Forall (λ g, ruby_skipped g = false → (0 <= advance g)%Q) glyphs.
Hypothesis Hfits : (line_advance glyphs <= inject_Z first_width)%Q.

Lemma line_advance_app (l1 l2 : list Glyph) :
  (line_advance (l1 ++ l2) == line_advance l1 + line_advance l2)%Q.
Proof.
  induction l1 as [|g l1 IH].
  - change (line_advance l2 == 0 + line_advance l2)%Q. ring.
  - change (glyph_advance g + line_advance (l1 ++ l2)
            == glyph_advance g + line_advance l1 + line_advance l2)%Q.
    rewrite IH. ring.
Qed.

Lemma line_advance_nonneg (l : list Glyph) :
  Forall (λ g, ruby_skipped g = false → (0 <= advance g)%Q) l →
  (0 <= line_advance l)%Q.
Proof.
  induction 1 as [|g l Hg _ IH]; cbn [line_advance fold_right]; [lra|].
  fold (line_advance l). unfold glyph_advance.
  destruct (ruby_skipped g); [lra|]. specialize (Hg eq_refl). lra.
Qed.

Lemma line_advance_take (i : nat) :
  (line_advance (take i glyphs) <= inject_Z first_width)%Q.
Proof.
  pose proof (line_advance_app (take i glyphs) (drop i glyphs)) as H.
  rewrite take_drop in H.
  pose proof (line_advance_nonneg (drop i glyphs)) as Hd.
  assert (0 <= line_advance (drop i glyphs))%Q.
  { apply Hd. rewrite <- (take_drop i glyphs) in Hnonneg.
    by apply Forall_app in Hnonneg as [_ ?]. }
  lra.
Qed.

Lemma fits_step i st :
  i < length glyphs → Fits glyphs first_width i st →
  Fits glyphs first_width (S i) (greedy_step (inject_Z rest_width) st i).
Proof.
  intros Hi (HW & Hx & Hign & Hlen & Hdrop & Hp & Hcand).
  destruct (lookup_lt_is_Some_2 glyphs i Hi) as [g Hg].
  assert (Hg' : st_glyphs st !! i = Some g).
  { rewrite <- (Nat.add_0_r i), <- lookup_drop, Hdrop, lookup_drop.
    by rewrite Nat.add_0_r. }
  assert (Hdrop' : drop (S i) (st_glyphs st) = drop (S i) glyphs).
  { replace (S i) with (i + 1) by lia. by rewrite <- !drop_drop, Hdrop. }
  assert (Hadv : (line_advance (take (S i) glyphs)
                  == line_advance (take i glyphs) + glyph_advance g)%Q).
  { rewrite (take_S_r _ _ _ Hg), line_advance_app.
    change (line_advance [g]) with (glyph_advance g + 0)%Q. lra. }
  assert (Hpos : ruby_skipped g = false → (0 <= advance g)%Q).
  { apply (proj1 (Forall_forall _ _) Hnonneg g).
    by eapply list_elem_of_lookup_2. }
  pose proof (line_advance_take i) as Hle.
  assert (Hold : ∀ j g0, st_glyphs st !! j = Some g0 → j < S i →
            ruby_skipped g0 = false → is_candidate (split g0) = true →
            j ≠ i → st_split_g st = Some j).
  { intros j g0 H1 H2 H3 H4 H5. apply (Hcand j g0); [done|lia|done..]. }
  unfold greedy_step. rewrite Hg'.
  destruct (ruby_skipped g) eqn:Hr.
  { replace (glyph_advance g) with 0%Q in Hadv
      by (unfold glyph_advance; by rewrite Hr).
    split_and!; try done.
    - rewrite Hadv, Hx. Unset Printing All. ring.
    - intros p Hsp. specialize (Hp p Hsp). lia.
    - intros j g0 H1 H2 H3 H4. apply (Hold j g0); try done.
      intros ->. congruence. }
  replace (glyph_advance g) with (advance g) in Hadv
    by (unfold glyph_advance; by rewrite Hr).
  specialize (Hpos eq_refl).
  case_bool_decide as Hig.
  { unfold Fits.
    cbn [st_glyphs st_split_g st_width st_x st_splitx st_ignored].
    split_and!; try done.
    - rewrite Hadv, <- Hx. lra.
    - lra.
    - intros p Hsp. specialize (Hp p Hsp). lia.
    - intros j g0 H1 H2 H3 H4. apply (Hold j g0); try done.
      intros ->. rewrite Hg' in H1. injection H1 as <-. by rewrite Hig in H4. }
  assert (Hno : Qgt_bool (st_x st) (st_width st) = false).
  { unfold Qgt_bool. apply negb_false_iff, Qle_bool_iff. rewrite HW. lra. }
  rewrite Hno. cbn [andb].
  assert (Hx1 : (st_x st + (advance g + st_ignored st) + 0
                 == line_advance (take (S i) glyphs))%Q).
  { rewrite Hadv, <- Hx. lra. }
  assert (Hdem : ∀ v, Fits glyphs first_width (S i)
            (mkGreedy (demote (st_split_g st) (st_glyphs st)) (st_width st)
               (Some i) (st_x st + (advance g + st_ignored st)) v 0)).
  { intros v.
    unfold Fits.
    cbn [st_glyphs st_split_g st_width st_x st_splitx st_ignored].
    split_and!; try done.
    - destruct (st_split_g st); cbn [demote]; [|done].
      by rewrite length_alter.
    - destruct (st_split_g st) as [p|] eqn:Hsp; cbn [demote]; [|done].
      specialize (Hp p eq_refl). by rewrite drop_alter_lt by lia.
    - intros p [= <-]. lia.
    - intros j g0 H1 H2 H3 H4. f_equal.
      destruct (decide (j = i)) as [|Hji]; [done|]. exfalso.
      destruct (st_split_g st) as [p|] eqn:Hsp; cbn [demote] in H1.
      + destruct (decide (p = j)) as [->|Hpj].
        * rewrite list_lookup_alter_eq in H1.
          destruct (st_glyphs st !! j); [|done]. injection H1 as <-.
          done.
        * rewrite list_lookup_alter_ne in H1 by done.
          pose proof (Hold j g0 H1 H2 H3 H4 Hji). congruence.
      + pose proof (Hold j g0 H1 H2 H3 H4 Hji). congruence. }
  destruct (split g) eqn:Hs; try apply Hdem; try (by destruct Hig).
  unfold Fits.
  cbn [st_glyphs st_split_g st_width st_x st_splitx st_ignored].
  split_and!; try done.
  - intros p Hsp. specialize (Hp p Hsp). lia.
  - intros j g0 H1 H2 H3 H4. apply (Hold j g0); try done.
    intros ->. rewrite Hg' in H1. injection H1 as <-. by rewrite Hs in H4.
Qed.

Lemma fits_fold (n a : nat) st :
  a + n ≤ length glyphs → Fits glyphs first_width a st →
  Fits glyphs first_width (a + n)
    (fold_left (greedy_step (inject_Z rest_width)) (seq a n) st).
Proof.
  revert a st. induction n as [|n IH]; intros a st Hle H.
  - by rewrite Nat.add_0_r.
  - cbn [seq fold_left]. replace (a + S n) with (S a + n) by lia.
    apply IH; [lia|]. apply fits_step; [lia|done].
Qed.


End GreedyFits.


Section ReverseFacts.

Import Breaks Copy.

Lemma map_reverse {A B} (f : A → B) (l : list A) :
  map f (reverse l) = reverse (map f l).
Proof. exact (fmap_reverse f l). Qed.

Lemma Forall_map_ext {A B} (f g : A → B) (l : list A) :
  Forall (λ a, f a = g a) l → map f l = map g l.
Proof. exact (Forall_fmap_ext_1 f g l). Qed.

Lemma reverse_fold_block (b : list Glyph) rv block :
  no_marker b →
  fold_left reverse_step b (rv, block)
  = (rv, block ++ map (set_rtl true) b).
Proof.
  intros H. revert block. induction H as [|g b Hg _ IH]; intros block.
  - by rewrite app_nil_r.
  - cbn [fold_left]. unfold reverse_step at 2.
    rewrite bool_decide_eq_false_2 by done.
    rewrite IH. by rewrite <- app_assoc.
Qed.

Lemma reverse_fold_blocks (blocks : list (list Glyph * Glyph)) last rv :
  Forall (λ bm, no_marker bm.1 ∧ split bm.2 = SPLIT_INSTEAD) blocks →
  no_marker last →
  fold_left reverse_step (join_blocks blocks last) (rv, [])
  = (rv ++ join_blocks (map mark_rtl blocks) [], map (set_rtl true) last).
Proof.
  intros Hb Hl. revert rv. induction Hb as [|[b m] blocks [H1 H2] _ IH];
    intros rv.
  - unfold join_blocks. cbn. rewrite reverse_fold_block by done.
    by rewrite app_nil_r.
  - unfold join_blocks in *. cbn [map concat fst snd] in *.
    rewrite <- !app_assoc. rewrite fold_left_app, reverse_fold_block by done.
    cbn [app fold_left]. unfold reverse_step at 2.
    rewrite bool_decide_eq_true_2 by done. rewrite IH.
    by rewrite <- !app_assoc.
Qed.

Lemma reverse_lines_join (blocks : list (list Glyph * Glyph)) last :
  Forall (λ bm, no_marker bm.1 ∧ split bm.2 = SPLIT_INSTEAD) blocks →
  no_marker last →
  reverse_lines (join_blocks blocks last)
  = join_blocks (map mark_rtl blocks) (reverse (map (set_rtl true) last)).
Proof.
  intros Hb Hl. unfold reverse_lines.
  rewrite reverse_fold_blocks by done. unfold join_blocks. cbn.
  by rewrite app_nil_r.
Qed.

Lemma no_marker_rtl (b : list Glyph) :
  no_marker b → no_marker (reverse (map (set_rtl true) b)).
Proof.
  unfold no_marker. intros H. apply Forall_reverse, Forall_fmap.
  eapply Forall_impl; [exact H|]. by intros g.
Qed.

Lemma flag_rtl_block (b : list Glyph) :
  no_marker b →
  reverse (map (set_rtl true) (reverse (map (set_rtl true) b)))
  = map flag_rtl b.
Proof.
  intros H. rewrite map_reverse, reverse_involutive, map_map.
  apply Forall_map_ext. eapply Forall_impl; [exact H|].
  intros g Hg. unfold flag_rtl. by rewrite bool_decide_eq_false_2.
Qed.

Lemma join_blocks_cons (b : list Glyph) m blocks last :
  join_blocks ((b, m) :: blocks) last = b ++ m :: join_blocks blocks last.
Proof. unfold join_blocks. cbn. by rewrite <- !app_assoc. Qed.

Lemma join_blocks_twice (blocks : list (list Glyph * Glyph)) last :
  Forall (λ bm, no_marker bm.1 ∧ split bm.2 = SPLIT_INSTEAD) blocks →
  no_marker last →
  join_blocks (map mark_rtl (map mark_rtl blocks))
    (reverse (map (set_rtl true) (reverse (map (set_rtl true) last))))
  = map flag_rtl (join_blocks blocks last).
Proof.
  intros Hb Hl. induction Hb as [|[b m] blocks [H1 H2] _ IH].
  - unfold join_blocks. cbn. by apply flag_rtl_block.
  - cbn [map]. unfold mark_rtl at 1 2. cbn [fst snd].
    rewrite !join_blocks_cons, IH, flag_rtl_block by done.
    rewrite map_app. cbn [map]. do 2 f_equal.
    unfold flag_rtl. by rewrite bool_decide_eq_true_2.
Qed.

(** X12. [reverse_lines] applied twice gives the glyphs back in their
    order, each glyph that is not [SPLIT_INSTEAD] with its [rtl] flag
    set. *)
Theorem reverse_lines_twice (gs : list Glyph) :
  reverse_lines (reverse_lines gs) = map flag_rtl gs.
Proof.
  destruct (reverse_lines_fold gs) as (blocks & last & -> & Hb & Hl & _).
  rewrite reverse_lines_join by done.
  rewrite reverse_lines_join.
  - by apply join_blocks_twice.
  - apply Forall_fmap. eapply Forall_impl; [exact Hb|].
    intros [b m] [H1 H2]. split; [by apply no_marker_rtl|done].
  - by apply no_marker_rtl.
Qed.

Lemma linebreak_list_loop_unbroken (b rest : list Glyph) rv line :
  unbroken b → Forall valid_code_point b →
  linebreak_list_loop (b ++ rest) rv line
  = linebreak_list_loop rest rv (line ++ map character b).
Proof.
  intros Hb Hv. revert line.
  induction Hb as [|g b Hg _ IH]; intros line.
  - by rewrite app_nil_r.
  - apply Forall_cons in Hv as [Hvg Hv]. cbn [app linebreak_list_loop].
    rewrite (chr_valid g Hvg). cbn [map].
    destruct (split g); try done; rewrite IH by done; by rewrite <- app_assoc.
Qed.

Lemma linebreak_list_join (blocks : list (list Glyph * Glyph)) last rv :
  Forall (λ bm, unbroken bm.1 ∧ split bm.2 = SPLIT_INSTEAD) blocks →
  unbroken last →
  Forall valid_code_point (join_blocks blocks last) →
  linebreak_list_loop (join_blocks blocks last) rv []
  = Ok (rv ++ map (λ bm, map character bm.1) blocks, map character last).
Proof.
  intros Hb Hl. revert rv.
  induction Hb as [|[b m] blocks [H1 H2] _ IH]; intros rv Hv.
  - unfold join_blocks in *. cbn in *.
    rewrite <- (app_nil_r last), linebreak_list_loop_unbroken by done.
    cbn. by rewrite !app_nil_r.
  - rewrite join_blocks_cons in *. apply Forall_app in Hv as [Hvb Hv].
    apply Forall_cons in Hv as [_ Hv]. cbn [fst snd] in *.
    rewrite linebreak_list_loop_unbroken by done.
    cbn [linebreak_list_loop]. rewrite H2, IH by done.
    cbn [map fst]. by rewrite <- app_assoc.
Qed.

Lemma unbroken_blocks (gs : list Glyph) :
  Forall (λ g, split g ≠ SPLIT_BEFORE) gs →
  ∃ blocks last,
    gs = join_blocks blocks last
    ∧ Forall (λ bm, unbroken bm.1 ∧ split bm.2 = SPLIT_INSTEAD) blocks
    ∧ unbroken last.
Proof.
  intros Hnb.
  destruct (reverse_lines_fold gs) as (blocks & last & -> & Hb & Hl & _).
  exists blocks, last. split; [done|].
  assert (Hun : ∀ b : list Glyph,
            no_marker b → Forall (λ g, split g ≠ SPLIT_BEFORE) b → unbroken b).
  { intros b H1 H2. unfold unbroken, no_marker in *.
    apply Forall_forall. intros g Hg.
    pose proof (proj1 (Forall_forall _ _) H1 g Hg).
    pose proof (proj1 (Forall_forall _ _) H2 g Hg).
    cbn beta in *. destruct (split g); try done; congruence. }
  unfold join_blocks in Hnb. apply Forall_app in Hnb as [Hnb1 Hnb2].
  split; [|by apply Hun].
  clear Hl Hnb2. induction Hb as [|[b m] blocks [H1 H2] _ IH]; [constructor|].
  cbn [map concat fst snd] in Hnb1. rewrite <- app_assoc in Hnb1.
  apply Forall_app in Hnb1 as [Hnb Hrest].
  apply Forall_cons in Hrest as [_ Hrest].
  constructor; [split; [by apply Hun|done]|by apply IH].
Qed.

Lemma unbroken_rtl (b : list Glyph) :
  unbroken b → unbroken (reverse (map (set_rtl true) b)).
Proof.
  unfold unbroken. intros H. apply Forall_reverse, Forall_fmap.
  eapply Forall_impl; [exact H|]. by intros g.
Qed.

Lemma valid_rtl (b : list Glyph) :
  Forall valid_code_point b →
  Forall valid_code_point (reverse (map (set_rtl true) b)).
Proof.
  intros H. apply Forall_reverse, Forall_fmap.
  eapply Forall_impl; [exact H|]. by intros g.
Qed.

Lemma characters_rtl (b : list Glyph) :
  map character (reverse (map (set_rtl true) b)) = reverse (map character b).
Proof. rewrite map_reverse, map_map. done. Qed.

(** X13. On glyphs whose characters are code points and none of which
    is [SPLIT_BEFORE], the lines [linebreak_list] reads from
    [reverse_lines glyphs] are the lines it reads from [glyphs], each
    reversed and in the same order. *)
Theorem reverse_lines_reverses_lines (gs : list Glyph) (lines : list unicode) :
  Forall valid_code_point gs →
  Forall (λ g, split g ≠ SPLIT_BEFORE) gs →
  linebreak_list gs = Ok lines →
  linebreak_list (reverse_lines gs) = Ok (map reverse lines).
Proof.
  intros Hv Hnb.
  destruct (unbroken_blocks gs Hnb) as (blocks & last & -> & Hb & Hl).
  assert (Hb' : Forall (λ bm, no_marker bm.1 ∧ split bm.2 = SPLIT_INSTEAD)
                  blocks).
  { eapply Forall_impl; [exact Hb|]. intros [b m] [H1 H2]. split; [|done].
    unfold no_marker, unbroken in *. eapply Forall_impl; [exact H1|].
    intros g Hg Hs. cbn beta in Hg. by rewrite Hs in Hg. }
  assert (Hl' : no_marker last).
  { unfold no_marker, unbroken in *. eapply Forall_impl; [exact Hl|].
    intros g Hg Hs. cbn beta in Hg. by rewrite Hs in Hg. }
  rewrite reverse_lines_join by done.
  unfold linebreak_list. rewrite linebreak_list_join by done.
  rewrite linebreak_list_join.
  - intros [= <-]. f_equal. cbn [app]. rewrite characters_rtl.
    assert (Hmap : map (λ bm, map character bm.1) (map mark_rtl blocks)
                   = map reverse (map (λ bm, map character bm.1) blocks)).
    { rewrite !map_map. apply map_ext. intros [b m]. cbn.
      apply characters_rtl. }
    rewrite Hmap. destruct last as [|g last]; [done|].
    cbn [map]. destruct (reverse (character g :: map character last)) eqn:E.
    + apply (f_equal length) in E. rewrite length_reverse in E. done.
    + rewrite map_app. cbn [map]. by rewrite E.
  - apply Forall_fmap. eapply Forall_impl; [exact Hb|].
    intros [b m] [H1 H2]. split; [by apply unbroken_rtl|done].
  - by apply unbroken_rtl.
  - rewrite <- reverse_lines_join by done.
    unfold join_blocks in Hv. apply Forall_app in Hv as [Hv1 Hv2].
    rewrite reverse_lines_join by done. unfold join_blocks.
    apply Forall_app. split; [|by apply valid_rtl].
    clear Hb Hb' Hl Hl' Hv2 Hnb.
    induction blocks as [|[b m] blocks IH]; [constructor|].
    cbn [map concat fst snd mark_rtl] in *. rewrite <- app_assoc in Hv1.
    apply Forall_app in Hv1 as [Hb Hrest].
    apply Forall_cons in Hrest as [Hm Hrest].
    rewrite <- app_assoc. apply Forall_app. split; [by apply valid_rtl|].
    constructor; [done|by apply IH].
Qed.

End ReverseFacts.

Lemma reverse_lines_reverses_lines_witness :
  Breaks.linebreak_list (Breaks.reverse_lines Samples.a_b_closers_c)
  = Ok (map reverse [[97]; [98; 41; 41]; [99]]%Z).
Proof.
apply (reverse_lines_reverses_lines Samples.a_b_closers_c).
- repeat constructor; unfold Breaks.valid_code_point; simpl; lia.
- repeat constructor; discriminate.
- reflexivity.
Defined.


Section CopyFacts.

Import Copy.

Lemma copy_fold_ok (source dest : list Glyph) (n k : nat) (done_ : list Glyph) :
  k + n ≤ length dest → k + n ≤ length source →
  length done_ = length dest →
  take k done_ = with_splits (take k source) (take k dest) →
  drop k done_ = drop k dest →
  fold_left (copy_step source) (seq k n) (Ok done_)
  = Ok (with_splits (take (k + n) source) (take (k + n) dest)
        ++ drop (k + n) dest).
Proof.
  revert k done_. induction n as [|n IH]; intros k cur Hk Hlen Hcur Htake Hdrop.
  - cbn [seq fold_left]. rewrite Nat.add_0_r, <- Htake, <- Hdrop.
    by rewrite take_drop.
  - cbn [seq fold_left].
    destruct (lookup_lt_is_Some_2 source k) as [s Hs]; [lia|].
    destruct (lookup_lt_is_Some_2 dest k) as [d Hd]; [lia|].
    assert (Hd' : cur !! k = Some d).
    { rewrite <- (Nat.add_0_r k), <- lookup_drop, Hdrop, lookup_drop.
      by rewrite Nat.add_0_r. }
    unfold copy_step at 2. rewrite Hs, Hd'.
    replace (k + S n) with (S k + n) by lia. apply IH.
    + lia.
    + lia.
    + by rewrite length_insert.
    + rewrite (take_S_r source k s Hs), (take_S_r dest k d Hd).
      unfold with_splits. rewrite zip_with_app.
      2:{ rewrite !length_take. lia. }
      cbn [zip_with]. fold (with_splits (take k source) (take k dest)).
      rewrite <- Htake.
      rewrite (take_S_r _ k (set_split (split s) d)).
      * by rewrite take_insert_ge by lia.
      * apply list_lookup_insert_eq. lia.
    + rewrite drop_insert_lt by lia.
      replace (S k) with (k + 1) by lia. by rewrite <- !drop_drop, Hdrop.
Qed.

Lemma copy_fold_raise (source : list Glyph) (idx : list nat) e :
  fold_left (copy_step source) idx (Raise e) = Raise e.
Proof. induction idx as [|i idx IH]; [done|]. apply IH. Qed.

(** X14. [copy_splits source dest] gives every glyph of [dest] the split
    of the glyph of [source] at the same position and changes nothing else
    when [dest] is not longer than [source]; it raises [IndexError] when
    [dest] is longer. *)
Theorem copy_splits_result (source dest : list Glyph) :
  (length dest ≤ length source →
   copy_splits source dest = Ok (with_splits source dest))
  ∧ (length source < length dest →
     copy_splits source dest = Raise list_index_out_of_range).
Proof.
  split; intros Hlen; unfold copy_splits.
  - rewrite (copy_fold_ok source dest (length dest) 0 dest); try done; try lia.
    cbn [Nat.add]. rewrite firstn_all, drop_all, app_nil_r.
    unfold with_splits. by rewrite zip_with_take_l.
  - assert (Hsplit : seq 0 (length dest)
                     = seq 0 (length source)
                       ++ length source
                          :: seq (S (length source))
                               (length dest - S (length source))).
    { replace (length dest)
        with (length source + S (length dest - S (length source))) at 1 by lia.
      by rewrite seq_app. }
    rewrite Hsplit, fold_left_app.
    rewrite (copy_fold_ok source dest (length source) 0 dest); try done; try lia.
    cbn [fold_left]. unfold copy_step at 2.
    rewrite (lookup_ge_None_2 source (length source)) by lia.
    apply copy_fold_raise.
Qed.

End CopyFacts.

Lemma copy_splits_result_witness :
  Copy.copy_splits Samples.a_b_c (map (set_split SPLIT_BEFORE) Samples.a_b_c)
  = Ok Samples.a_b_c
  ∧ Copy.copy_splits [] Samples.a_b_c = Raise Copy.list_index_out_of_range.
Proof.
split.
- apply (proj1 (copy_splits_result Samples.a_b_c
                  (map (set_split SPLIT_BEFORE) Samples.a_b_c))).
  simpl. lia.
- apply (proj2 (copy_splits_result [] Samples.a_b_c)). simpl. lia.
Defined.

Section IndexFacts.

Import Timing Indexing.

Lemma indexed_count_cons (g : Glyph) (gs : list Glyph) :
  indexed_count (g :: gs)
  = (if timed g then 1 + indexed_count gs else indexed_count gs)%Z.
Proof.
  unfold indexed_count. rewrite filter_cons.
  destruct (timed g); case_decide; try done. cbn [length]. lia.
Qed.

Lemma indexed_count_nonneg (gs : list Glyph) : (0 <= indexed_count gs)%Z.
Proof. unfold indexed_count. lia. Qed.

(** X16. When the indices to give fit a C [short], [assign_index] gives
    the glyphs whose time is not -1 the consecutive indices [index],
    [index + 1], ... in list order, leaves the other glyphs as they are,
    and returns [index] plus the number of glyphs it numbered. *)
Theorem assign_index_consecutive (index : Z) (gs : list Glyph) :
  (-32768 <= index)%Z → (index + indexed_count gs <= 32768)%Z →
  ∃ out, assign_index index gs = Ok ((index + indexed_count gs)%Z, out)
    ∧ length out = length gs
    ∧ ∀ i g, gs !! i = Some g →
        out !! i
        = Some (if timed g
                then set_index (index + indexed_count (take i gs)) g
                else g).
Proof.
  revert index. induction gs as [|g gs IH]; intros index Hlo Hhi.
  - exists []. change (indexed_count []) with 0%Z. rewrite Z.add_0_r.
    by split_and!.
  - rewrite indexed_count_cons in Hhi. cbn [assign_index].
    pose proof (indexed_count_nonneg gs) as Hn.
    destruct (timed g) eqn:Ht.
    + assert (Hfit : fits_short index = true).
      { unfold fits_short. apply andb_true_intro. split; lia. }
      rewrite Hfit.
      destruct (IH (index + 1)%Z) as (out & -> & Hlen & Hout); [lia|lia|].
      eexists. split_and!.
      * rewrite indexed_count_cons, Ht. do 2 f_equal. lia.
      * cbn [length]. by rewrite Hlen.
      * intros [|i] g' Hi.
        -- injection Hi as <-. cbn. rewrite Ht.
           change (indexed_count []) with 0%Z. by rewrite Z.add_0_r.
        -- rewrite lookup_cons in Hi |- *. rewrite (Hout i g' Hi).
           cbn [take]. rewrite indexed_count_cons, Ht.
           destruct (timed g'); [|done]. do 2 f_equal. lia.
    + destruct (IH index) as (out & -> & Hlen & Hout); [lia|lia|].
      eexists. split_and!.
      * by rewrite indexed_count_cons, Ht.
      * cbn [length]. by rewrite Hlen.
      * intros [|i] g' Hi.
        -- injection Hi as <-. cbn. by rewrite Ht.
        -- rewrite lookup_cons in Hi |- *. rewrite (Hout i g' Hi).
           cbn [take]. by rewrite indexed_count_cons, Ht.
Qed.

Lemma assign_times_loop_shape tpg t gs i g :
  gs !! i = Some g →
  ∃ g', (assign_times_loop tpg t gs).2 !! i = Some g'
    ∧ index g' = index g
    ∧ if ruby_skipped g then g' = set_time (-1)%Q g
      else duration g' = tpg
           ∧ (time g' == t + nat_Q (timed_count (take (S i) gs)) * tpg)%Q.
Proof.
  revert t i. induction gs as [|g0 gs IH]; intros t i Hi; [done|].
  destruct i as [|i].
  - injection Hi as ->. cbn [assign_times_loop].
    destruct (ruby_skipped g) eqn:Hr.
    + destruct (assign_times_loop tpg t gs). cbn.
      eexists. split; [done|]. by split.
    + destruct (assign_times_loop tpg (t + tpg) gs). cbn [snd].
      eexists. split; [done|]. split_and!; try done.
      cbn [take]. rewrite take_0, timed_count_cons, Hr.
      change (nat_Q (S (timed_count []))) with 1%Q. cbn [time set_duration set_time].
      ring.
  - cbn [lookup list_lookup] in Hi. cbn [assign_times_loop].
    destruct (ruby_skipped g0) eqn:Hr0.
    + destruct (IH t i Hi) as (g' & H1 & H2 & H3).
      destruct (assign_times_loop tpg t gs). cbn [snd] in *.
      exists g'. split; [done|]. split; [done|].
      destruct (ruby_skipped g); [done|].
      change (take (S (S i)) (g0 :: gs)) with (g0 :: take (S i) gs).
      by rewrite timed_count_cons, Hr0.
    + destruct (IH (t + tpg)%Q i Hi) as (g' & H1 & H2 & H3).
      destruct (assign_times_loop tpg (t + tpg) gs). cbn [snd] in *.
      exists g'. split; [done|]. split; [done|].
      destruct (ruby_skipped g); [done|].
      change (take (S (S i)) (g0 :: gs)) with (g0 :: take (S i) gs).
      rewrite timed_count_cons, Hr0. destruct H3 as [H3 H4].
      split; [done|]. rewrite H4, nat_Q_S. ring.
Qed.

(** X15. With the rate 0, [assign_times] gives every glyph that is
    neither ruby-top nor alt-ruby the start time [t] and the duration 0,
    gives the others the time -1 and changes nothing else of them, and
    returns [t]. Times are exact rationals here. *)
Theorem assign_times_instant (t : Q) (gs : list Glyph) :
  let out := (assign_times t 0 gs).2 in
  ((assign_times t 0 gs).1 == t)%Q
  ∧ length out = length gs
  ∧ ∀ i g, gs !! i = Some g →
      ∃ g', out !! i = Some g'
        ∧ if ruby_skipped g then g' = set_time (-1)%Q g
          else (time g' == t)%Q ∧ duration g' = 0%Q.
Proof.
  intros out. subst out. unfold assign_times.
  change (Qeq_bool 0 0) with true. cbn [negb]. split_and!.
  - rewrite assign_times_loop_final. ring.
  - apply assign_times_loop_length.
  - intros i g Hi.
    destruct (assign_times_loop_shape 0 t gs i g Hi) as (g' & H1 & _ & H3).
    exists g'. split; [done|]. destruct (ruby_skipped g); [done|].
    destruct H3 as [H3 H4]. split; [|done]. rewrite H4. ring.
Qed.

Lemma nat_Q_nonneg (n : nat) : (0 <= nat_Q n)%Q.
Proof. unfold nat_Q. change 0%Q with (inject_Z 0). rewrite <- Zle_Qle. lia. Qed.

Lemma timed_after_times tpg t gs :
  (0 <= tpg)%Q → (0 <= t)%Q →
  Forall2 (λ g g', timed g' = negb (ruby_skipped g) ∧ index g' = index g)
    gs (assign_times_loop tpg t gs).2.
Proof.
  intros Htpg Ht. apply Forall2_same_length_lookup. split.
  - by rewrite assign_times_loop_length.
  - intros i g g' Hi Hi'.
    destruct (assign_times_loop_shape tpg t gs i g Hi) as (g'' & H1 & H2 & H3).
    rewrite Hi' in H1. injection H1 as <-. split; [|done].
    unfold timed. destruct (ruby_skipped g).
    + by rewrite H3.
    + destruct H3 as [_ H3]. cbn [negb]. f_equal.
      destruct (Qeq_bool (time g') (-1)) eqn:E; [|done].
      apply Qeq_bool_iff in E.
      pose proof (nat_Q_nonneg (timed_count (take (S i) gs))). nra.
Qed.

Lemma indexed_timed_count (gs out : list Glyph) :
  Forall2 (λ g g', timed g' = negb (ruby_skipped g) ∧ index g' = index g)
    gs out →
  indexed_count out = Z.of_nat (timed_count gs).
Proof.
  induction 1 as [|g g' gs out [Hg _] _ IH]; [done|].
  rewrite indexed_count_cons, timed_count_cons, Hg, IH.
  destruct (ruby_skipped g); cbn [negb]; lia.
Qed.

(** X17. After [assign_times] with a start time and a rate that are not
    negative, [assign_index] numbers exactly the glyphs that are neither
    ruby-top nor alt-ruby, consecutively from [start], keeps the index of
    the others, and returns [start] plus their number (the indices fitting
    a C [short]). *)
Theorem assign_index_after_times (t gps : Q) (start : Z) (gs : list Glyph) :
  (0 <= t)%Q → (0 <= gps)%Q →
  (-32768 <= start)%Z → (start + Z.of_nat (timed_count gs) <= 32768)%Z →
  ∃ out,
    assign_index start (assign_times t gps gs).2
    = Ok ((start + Z.of_nat (timed_count gs))%Z, out)
    ∧ ∀ i g, gs !! i = Some g →
        ∃ g', out !! i = Some g'
          ∧ index g'
            = if ruby_skipped g then index g
              else (start + Z.of_nat (timed_count (take i gs)))%Z.
Proof.
  intros Ht Hgps Hlo Hhi. unfold assign_times.
  set (tpg := if Qeq_bool gps 0 then 0%Q else (1 / gps)%Q).
  assert (Htpg : (0 <= tpg)%Q).
  { subst tpg. destruct (Qeq_bool gps 0) eqn:E; [lra|].
    apply Qeq_bool_neq in E. apply Qlt_le_weak, Qlt_shift_div_l; lra. }
  pose proof (timed_after_times tpg t gs Htpg Ht) as HF.
  pose proof (indexed_timed_count _ _ HF) as Hcount.
  destruct (assign_index_consecutive start (assign_times_loop tpg t gs).2)
    as (out & Hout & Hlen & Hlook); [done|lia|].
  exists out. split; [by rewrite Hout, Hcount|].
  intros i g Hi.
  destruct (Forall2_lookup_l _ _ _ _ _ HF Hi) as (g1 & Hi1 & Hg1 & Hidx).
  rewrite (Hlook i g1 Hi1). eexists. split; [done|].
  rewrite Hg1. destruct (ruby_skipped g); cbn [negb]; [done|].
  cbn [index set_index]. f_equal.
  apply indexed_timed_count. by apply Forall2_take.
Qed.

Lemma max_times_loop_final (l : list Line) (m : Q) :
  (max_times_loop m l).1
  = fold_left max_time_step (concat (map glyphs l)) m.
Proof.
  revert m. induction l as [|l0 l IH]; intros m; [done|].
  cbn [max_times_loop map concat]. rewrite fold_left_app.
  specialize (IH (fold_left max_time_step (glyphs l0) m)).
  by destruct (max_times_loop (fold_left max_time_step (glyphs l0) m) l).
Qed.

Lemma max_times_loop_length (l : list Line) (m : Q) :
  length (max_times_loop m l).2 = length l.
Proof.
  revert m. induction l as [|l0 l IH]; intros m; [done|].
  cbn [max_times_loop].
  specialize (IH (fold_left max_time_step (glyphs l0) m)).
  destruct (max_times_loop (fold_left max_time_step (glyphs l0) m) l).
  cbn [snd length] in *. by rewrite IH.
Qed.

(** X18. After [max_times], the [max_time] of the lines never decreases
    from a line to a later one, and the value returned is the [max_time] of
    the last line, or 0 when there is no line. *)
Theorem max_times_nondecreasing (l : list Line) :
  let out := (max_times l).2 in
  length out = length l
  ∧ (∀ i j li lj, i ≤ j → out !! i = Some li → out !! j = Some lj →
       (max_time li <= max_time lj)%Q)
  ∧ (max_times l).1 = default 0%Q (max_time <$> last out).
Proof.
  intros out. subst out. unfold max_times. split_and!.
  - apply max_times_loop_length.
  - intros i j li lj Hij Hi Hj.
    destruct (lookup_lt_is_Some_2 l i) as [l1 H1].
    { rewrite <- (max_times_loop_length l 0). by eapply lookup_lt_Some. }
    destruct (lookup_lt_is_Some_2 l j) as [l2 H2].
    { rewrite <- (max_times_loop_length l 0). by eapply lookup_lt_Some. }
    rewrite (max_times_loop_lookup l 0 i l1 H1) in Hi. injection Hi as <-.
    rewrite (max_times_loop_lookup l 0 j l2 H2) in Hj. injection Hj as <-.
    cbn [max_time set_max_time].
    replace (take (S j) l)
      with (take (S i) l ++ take (S j - S i) (drop (S i) l)).
    2:{ rewrite take_take_drop. f_equal. lia. }
    rewrite map_app, concat_app, fold_left_app.
    apply max_time_fold_spec.
  - rewrite max_times_loop_final.
    destruct (decide (l = [])) as [->|Hne]; [done|].
    destruct (exists_last Hne) as (l' & la & ->).
    rewrite (last_lookup (max_times_loop 0 (l' ++ [la])).2).
    rewrite max_times_loop_length. rewrite length_app. cbn [length].
    replace (Init.Nat.pred (length l' + 1)) with (length l') by lia.
    rewrite (max_times_loop_lookup _ 0 (length l') la).
    2:{ by rewrite lookup_app_r, Nat.sub_diag by lia. }
    cbn. rewrite firstn_all2; [done|]. rewrite length_app. cbn. lia.
Qed.

End IndexFacts.

Lemma assign_index_consecutive_witness :
  ∃ out, Indexing.assign_index 0 Samples.placed_a_b = Ok (4%Z, out).
Proof.
destruct (assign_index_consecutive 0 Samples.placed_a_b) as (out & H & _);
  [vm_compute; discriminate | vm_compute; discriminate |].
exists out. exact H.
Defined.

Lemma assign_index_after_times_witness :
  ∃ out,
    Indexing.assign_index 0 (Timing.assign_times 0 10 Samples.placed_a_b).2
    = Ok (3%Z, out).
Proof.
destruct (assign_index_after_times 0 10 0 Samples.placed_a_b)
  as (out & H & _);
  [vm_compute; discriminate | vm_compute; discriminate
  | vm_compute; discriminate | vm_compute; discriminate |].
exists out. exact H.
Defined.

Section MovesFacts.

Import Align Moves.

Lemma set_x_x (g : Glyph) : set_x (x g) g = g.
Proof. by destruct g. Qed.

Lemma set_glyphs_glyphs (l : Line) : set_glyphs (glyphs l) l = l.
Proof. by destruct l. Qed.

Lemma moved_refl (g : Glyph) : moved g g.
Proof. split; [by rewrite set_x_x|done]. Qed.

Lemma moved_set_x (g : Glyph) v : ruby_skipped g = false → moved g (set_x v g).
Proof. intros Hr. split; [done|congruence]. Qed.

Lemma realigned_refl (l : Line) : realigned l l.
Proof.
  split; [by rewrite set_glyphs_glyphs|].
  apply Forall2_same_length_lookup. split; [done|].
  intros i g g' H1 H2. rewrite H1 in H2. injection H2 as <-. apply moved_refl.
Qed.

Lemma justify_loop_moved jps off (gs : list Glyph) :
  Forall2 moved gs (justify_loop jps off gs).
Proof.
  revert off. induction gs as [|g gs IH]; intros off; [constructor|].
  cbn [justify_loop]. destruct (ruby_skipped g) eqn:Hr.
  - constructor; [apply moved_refl|apply IH].
  - constructor; [by apply moved_set_x|apply IH].
Qed.

Lemma shift_loop_moved offset (gs : list Glyph) :
  Forall2 moved gs (shift_loop offset gs).
Proof.
  induction gs as [|g gs IH]; [constructor|].
  cbn [shift_loop map]. constructor; [|apply IH].
  destruct (ruby_skipped g) eqn:Hr; [apply moved_refl|by apply moved_set_x].
Qed.

Lemma align_line_realigned width text_align justify (l : Line) :
  realigned l (align_line width text_align justify l).
Proof.
  unfold align_line. destruct (measure (glyphs l)) as [spaces max_x].
  destruct (max_x >=? MAX_WIDTH)%Z; [apply realigned_refl|].
  destruct (justify && negb (spaces =? 0)%Z && negb (eop l)).
  - split; [done|]. apply justify_loop_moved.
  - split; [done|]. apply shift_loop_moved.
Qed.

(** X19. [align_and_justify] returns the lines it was given, in order,
    each with its glyphs in order; it changes nothing but the [x] of
    glyphs, and nothing of a ruby-top or alt-ruby glyph. *)
Theorem align_and_justify_frame (lines : list Line) (width : Z)
    (text_align : Q) (justify : bool) :
  Forall2 realigned lines (align_and_justify lines width text_align justify).
Proof.
  unfold align_and_justify.
  destruct (negb justify && Qeq_bool text_align 0).
  - apply Forall2_same_length_lookup. split; [done|].
    intros i l l' H1 H2. rewrite H1 in H2. injection H2 as <-.
    apply realigned_refl.
  - apply Forall2_fmap_r, Forall_Forall2_diag, Forall_forall.
    intros l _. apply align_line_realigned.
Qed.

Lemma c_int_Qeq (p q : Q) : (p == q)%Q → c_int p = c_int q.
Proof.
  unfold Qeq, c_int. intros H.
  rewrite <- (Z.quot_mul_cancel_r (Qnum p) _ (Z.pos (Qden q))) by lia.
  rewrite <- (Z.quot_mul_cancel_r (Qnum q) _ (Z.pos (Qden p))) by lia.
  rewrite H. f_equal. lia.
Qed.

Lemma c_int_zero (a : Z) (t : Q) : (t == 0)%Q → c_int (inject_Z a * t) = 0%Z.
Proof.
  intros H. rewrite (c_int_Qeq _ 0); [done|]. rewrite H. ring.
Qed.

Lemma shift_loop_zero (gs : list Glyph) : shift_loop 0 gs = gs.
Proof.
  induction gs as [|g gs IH]; [done|]. cbn [shift_loop map].
  fold (shift_loop 0 gs). rewrite IH.
  destruct (ruby_skipped g); [done|by rewrite set_x_same].
Qed.

(** X20. With [text_align] 0, whether justifying or not,
    [align_and_justify] leaves a line as it is when the line ends a
    paragraph or holds no space that is neither ruby-top nor alt-ruby. *)
Theorem align_left_keeps_unjustified (lines : list Line) (width : Z)
    (text_align : Q) (justify : bool) (i : nat) (l : Line) :
  (text_align == 0)%Q →
  lines !! i = Some l →
  eop l = true ∨ Forall not_counted_space (glyphs l) →
  align_and_justify lines width text_align justify !! i = Some l.
Proof.
  intros Ht Hi Hl. unfold align_and_justify.
  destruct (negb justify && Qeq_bool text_align 0); [done|].
  rewrite list_lookup_fmap, Hi. cbn. f_equal.
  unfold align_line.
  assert (Hsp : eop l = true ∨ (measure (glyphs l)).1 = 0%Z).
  { destruct Hl as [?|Hl]; [by left|right].
    unfold measure. by rewrite measure_step_spaces. }
  destruct (measure (glyphs l)) as [spaces max_x]. cbn [fst] in Hsp.
  destruct (max_x >=? MAX_WIDTH)%Z; [done|].
  replace (justify && negb (spaces =? 0)%Z && negb (eop l)) with false.
  - rewrite c_int_zero by done. by rewrite shift_loop_zero, set_glyphs_glyphs.
  - destruct Hsp as [->| ->]; by destruct justify; cbn; rewrite ?andb_false_r.
Qed.

Lemma spaces_in_cons (g : Glyph) (gs : list Glyph) :
  spaces_in (g :: gs)
  = (if ruby_skipped g then spaces_in gs
     else if (character g =? SPACE)%Z then 1 + spaces_in gs
     else spaces_in gs)%Z.
Proof.
  unfold spaces_in. rewrite filter_cons.
  destruct (counted_space g) eqn:E; case_decide; try done;
    unfold counted_space in E; destruct (ruby_skipped g);
    destruct (character g =? SPACE)%Z; try done.
  cbn [length]. lia.
Qed.

Lemma spaces_in_none (gs : list Glyph) :
  Forall not_counted_space gs → spaces_in gs = 0%Z.
Proof.
  induction 1 as [|g gs Hg _ IH]; [done|]. rewrite spaces_in_cons, IH.
  destruct (ruby_skipped g) eqn:Hr; [done|].
  destruct Hg as [?|Hg]; [congruence|].
  by destruct (Z.eqb_spec (character g) SPACE).
Qed.

Lemma spaces_in_nonneg (gs : list Glyph) : (0 <= spaces_in gs)%Z.
Proof. unfold spaces_in. lia. Qed.

Lemma measure_fold_spaces (gs : list Glyph) (st : Z * Z) :
  (fold_left measure_step gs st).1 = (st.1 + spaces_in gs)%Z.
Proof.
  revert st. induction gs as [|g gs IH]; intros st.
  - cbn. change (spaces_in []) with 0%Z. lia.
  - cbn [fold_left]. rewrite IH, spaces_in_cons. unfold measure_step.
    destruct (ruby_skipped g); [done|]. cbn [fst].
    destruct (character g =? SPACE)%Z; lia.
Qed.

Lemma justify_loop_app jps off (pre rest : list Glyph) :
  ∃ off' pre',
    (off' == off + inject_Z (spaces_in pre) * jps)%Q
    ∧ length pre' = length pre
    ∧ justify_loop jps off (pre ++ rest) = pre' ++ justify_loop jps off' rest.
Proof.
  revert off. induction pre as [|g pre IH]; intros off.
  - exists off, []. split_and!; try done.
    change (spaces_in []) with 0%Z. ring.
  - cbn [app justify_loop]. rewrite spaces_in_cons.
    destruct (ruby_skipped g).
    + destruct (IH off) as (off' & pre' & H1 & H2 & ->).
      exists off', (g :: pre'). split_and!; try done. cbn. by rewrite H2.
    + destruct (character g =? SPACE)%Z.
      * destruct (IH (off + jps)%Q) as (off' & pre' & H1 & H2 & ->).
        eexists off', (_ :: pre'). split_and!; [|by cbn; rewrite H2|done].
        rewrite H1, inject_Z_plus. ring.
      * destruct (IH off) as (off' & pre' & H1 & H2 & ->).
        eexists off', (_ :: pre'). split_and!; [done|by cbn; rewrite H2|done].
Qed.


End MovesFacts.

Lemma align_left_keeps_unjustified_witness :
  Align.align_and_justify [Samples.line_of Samples.a_b_c;
                           mkLine 0 0 0 Samples.placed_a_b 0 true] 30 0 true
  !! 1
  = Some (mkLine 0 0 0 Samples.placed_a_b 0 true).
Proof.
apply (align_left_keeps_unjustified _ 30 0 true 1); [reflexivity..|].
left. reflexivity.
Defined.


Section HorizontalFacts.

Import Horizontal.

Lemma fold_seq_invariant {St : Type} (P : nat → St → Prop)
    (step : St → nat → St) (N : nat) :
  (∀ i st, i < N → P i st → P (S i) (step st i)) →
  ∀ n a st, a + n ≤ N → P a st → P (a + n) (fold_left step (seq a n) st).
Proof.
  intros Hstep n. induction n as [|n IH]; intros a st Hn Ha.
  - by rewrite Nat.add_0_r.
  - cbn [seq fold_left]. replace (a + S n) with (S a + n) by lia.
    apply IH; [lia|]. apply Hstep; [lia|done].
Qed.

Lemma end_of_line_length s old (gs : list Glyph) :
  length (end_of_line s old gs) = length gs.
Proof.
  unfold end_of_line. destruct old; [|done].
  case_bool_decide; [by rewrite length_alter|done].
Qed.

Lemma end_of_line_lookup s old (gs : list Glyph) m g :
  gs !! m = Some g →
  ∃ g', end_of_line s old gs !! m = Some g' ∧ trimmed g g'
    ∧ (old ≠ Some m → g' = g).
Proof.
  intros Hm. unfold end_of_line. destruct old as [j|].
  - case_bool_decide.
    + destruct (decide (j = m)) as [->|Hne].
      * rewrite list_lookup_alter_eq, Hm. cbn.
        eexists. split; [done|]. split; [by right|done].
      * rewrite list_lookup_alter_ne by done.
        exists g. split; [done|]. split; [by left|done].
    + exists g. split; [done|]. split; [by left|done].
  - exists g. split; [done|]. split; [by left|done].
Qed.

Lemma place_step_length sx ri st i :
  length (pl_glyphs (place_step sx ri st i)) = length (pl_glyphs st).
Proof.
  unfold place_step. destruct (pl_glyphs st !! i) as [g|]; [|done].
  destruct (ruby_skipped g); [done|].
  case_bool_decide; cbn [pl_glyphs];
    by rewrite length_insert, end_of_line_length.
Qed.

(** The glyphs an iteration does not visit. *)
Lemma place_step_others sx ri st i m g :
  m ≠ i → pl_glyphs st !! m = Some g →
  ∃ g', pl_glyphs (place_step sx ri st i) !! m = Some g' ∧ trimmed g g'
    ∧ (pl_old_g st ≠ Some m → g' = g).
Proof.
  intros Hne Hm. unfold place_step.
  destruct (pl_glyphs st !! i) as [gi|];
    [|exists g; split; [done|]; split; [by left|done]].
  destruct (ruby_skipped gi);
    [exists g; split; [done|]; split; [by left|done]|].
  case_bool_decide; cbn [pl_glyphs];
    rewrite list_lookup_insert_ne by done; by apply end_of_line_lookup.
Qed.

Lemma laid_out_refl (g : Glyph) : cleared (split g) = split g → laid_out g g.
Proof.
  intros H. unfold laid_out. destruct (ruby_skipped g); [done|].
  split_and!; [by destruct g|done|by left].
Qed.

Lemma laid_out_trimmed (g g' g'' : Glyph) :
  ruby_skipped g = false → laid_out g g' → trimmed g' g'' → laid_out g g''.
Proof.
  unfold laid_out. intros Hr Hg Htr. rewrite Hr in Hg |- *.
  destruct Hg as (H1 & H2 & H3). destruct Htr as [E|E]; subst g''; [by split_and!|].
  assert (Hw : width g' = width g) by (by rewrite H1).
  split_and!.
  - clear H2 H3 Hr Hw. destruct g, g'.
    unfold set_advance, set_x, set_split in *. cbn in *. congruence.
  - done.
  - right. cbn. done.
Qed.

Lemma laid_out_fields (g g' : Glyph) :
  laid_out g g' →
  ruby_skipped g' = ruby_skipped g ∧ width g' = width g
  ∧ takes_room g' = takes_room g.
Proof.
  unfold laid_out, takes_room, ruby_skipped.
  destruct (bool_decide (ruby g = RUBY_TOP) || bool_decide (ruby g = RUBY_ALT))
    eqn:Hr.
  - intros ->. by rewrite Hr.
  - intros (H1 & H2 & _).
    assert (Hruby : ruby g' = ruby g) by (by rewrite H1).
    assert (Hw : width g' = width g) by (by rewrite H1).
    rewrite Hruby, Hr, H2. split_and!; try done.
    by destruct (split g).
Qed.

Lemma trimmed_fields (g g' : Glyph) :
  trimmed g g' →
  ruby_skipped g' = ruby_skipped g ∧ width g' = width g ∧ x g' = x g
  ∧ takes_room g' = takes_room g
  ∧ (advance g = width g → advance g' = width g).
Proof. by intros [->| ->]. Qed.

Section Placed.

Variable glyphs : list Glyph.
Variables start_x first_indent rest_indent : Q.

Lemma placing_init : Placing glyphs 0 (place_init glyphs start_x first_indent).
Proof.
  split_and!; [done| |intros m gm Hm; lia].
  intros i g Hi. exists g. split; [done|]. by case_bool_decide; [lia|].
Qed.

Lemma set_split_cleared (g : Glyph) :
  (if bool_decide (split g = SPLIT_IGNORE) then set_split SPLIT_NONE g else g)
  = set_split (cleared (split g)) g.
Proof. by destruct g as [? ? ? ? ? [] ? ? ? ? ? ? ? ? ? ? ?]. Qed.

(** The iteration at a glyph that is neither ruby-top nor alt-ruby. *)
Lemma place_step_visit st k gk :
  pl_glyphs st !! k = Some gk → ruby_skipped gk = false →
  let s := cleared (split gk) in
  let st' := place_step start_x rest_indent st k in
  if bool_decide (s = SPLIT_INSTEAD) then
    pl_glyphs st' !! k = Some (set_split s gk)
    ∧ pl_x st' = (start_x + rest_indent)%Q
    ∧ pl_maxx st' = pl_maxx st
    ∧ pl_old_g st' = pl_old_g st
  else
    let x0 := if bool_decide (s = SPLIT_BEFORE)
              then (start_x + rest_indent)%Q else pl_x st in
    let m1 := if Greedy.Qgt_bool (x0 + width gk) (pl_maxx st)
              then (x0 + width gk)%Q else pl_maxx st in
    let x1 := (x0 + advance gk)%Q in
    pl_glyphs st' !! k = Some (set_x (c_int (x0 + (1 # 2))) (set_split s gk))
    ∧ pl_x st' = (if Greedy.Qgt_bool x1 (inject_Z MAX_WIDTH)
                  then inject_Z MAX_WIDTH else x1)
    ∧ pl_maxx st' = (if Greedy.Qgt_bool (x0 + advance gk) m1
                     then (x0 + advance gk)%Q else m1)
    ∧ pl_old_g st' = Some k.
Proof.
  intros Hk Hr s st'. subst s st'. unfold place_step. rewrite Hk, Hr.
  rewrite set_split_cleared.
  change (split (set_split (cleared (split gk)) gk)) with (cleared (split gk)).
  assert (Hlt : k < length (end_of_line (cleared (split gk)) (pl_old_g st)
                              (pl_glyphs st))).
  { rewrite end_of_line_length. by eapply lookup_lt_Some. }
  case_bool_decide; cbn [pl_glyphs pl_x pl_maxx pl_old_g];
    by rewrite list_lookup_insert_eq.
Qed.

Lemma laid_out_visit (g : Glyph) v :
  ruby_skipped g = false →
  laid_out g (set_split (cleared (split g)) g)
  ∧ laid_out g (set_x v (set_split (cleared (split g)) g)).
Proof.
  intros Hr. unfold laid_out. rewrite Hr.
  split; (split_and!; [by destruct g|done|by left]).
Qed.

Lemma takes_room_cleared (g : Glyph) :
  ruby_skipped g = false →
  takes_room g = negb (bool_decide (cleared (split g) = SPLIT_INSTEAD)).
Proof.
  intros Hr. unfold takes_room. rewrite Hr.
  by destruct g as [? ? ? ? ? [] ? ? ? ? ? ? ? ? ? ? ?].
Qed.

Lemma placing_step k st :
  k < length glyphs → Placing glyphs k st →
  Placing glyphs (S k) (place_step start_x rest_indent st k).
Proof.
  intros Hk (Hlen & Hgl & Hold).
  destruct (lookup_lt_is_Some_2 glyphs k Hk) as [gk Hgk].
  destruct (Hgl k gk Hgk) as (gk' & Hk' & Hsame).
  rewrite bool_decide_eq_false_2 in Hsame by lia. subst gk'.
  assert (Holdk : pl_old_g st ≠ Some k).
  { intros E. rewrite E in Hold. lia. }
  split_and!.
  - by rewrite place_step_length.
  - intros i g Hi. destruct (Hgl i g Hi) as (g' & Hi' & Hg').
    destruct (decide (i = k)) as [->|Hne].
    + rewrite Hgk in Hi. injection Hi as <-.
      rewrite bool_decide_eq_true_2 by lia.
      destruct (ruby_skipped gk) eqn:Hr.
      { unfold place_step. rewrite Hk', Hr.
        exists gk. split; [done|]. unfold laid_out. by rewrite Hr. }
      pose proof (place_step_visit st k gk Hk' Hr) as Hv. cbn zeta in Hv.
      destruct (bool_decide (cleared (split gk) = SPLIT_INSTEAD));
        destruct Hv as (-> & _); eexists; (split; [done|]);
        by apply laid_out_visit.
    + destruct (place_step_others start_x rest_indent st k i g' Hne Hi')
        as (g'' & Hi'' & Htr & Hkeep).
      exists g''. split; [done|].
      destruct (decide (i < k)) as [Hlt|Hlt].
      * rewrite bool_decide_eq_true_2 in Hg' by lia.
        rewrite bool_decide_eq_true_2 by lia.
        destruct (ruby_skipped g) eqn:Hr; [|by eapply laid_out_trimmed].
        unfold laid_out in Hg' |- *. rewrite Hr in Hg' |- *. subst g'.
        apply Hkeep. intros E. rewrite E in Hold.
        destruct Hold as (_ & (gj & Hj & Hroom) & _).
        rewrite Hi in Hj. injection Hj as <-.
        unfold takes_room in Hroom. by rewrite Hr in Hroom.
      * rewrite bool_decide_eq_false_2 in Hg' by lia.
        rewrite bool_decide_eq_false_2 by lia. subst g'.
        apply Hkeep. intros E. rewrite E in Hold. lia.
  - assert (Hskip : takes_room gk = false →
              match pl_old_g st with
              | Some j =>
                  j < S k
                  ∧ (∃ gj, glyphs !! j = Some gj ∧ takes_room gj = true)
                  ∧ ∀ m gm, j < m < S k → glyphs !! m = Some gm →
                            takes_room gm = false
              | None => ∀ m gm, m < S k → glyphs !! m = Some gm →
                                takes_room gm = false
              end).
    { intros Hroom. destruct (pl_old_g st) as [j|].
      - destruct Hold as (Hj & Hgj & Hbetween). split_and!; [lia|done|].
        intros m gm Hm Hgm. destruct (decide (m = k)) as [->|];
          [congruence|apply (Hbetween m); [lia|done]].
      - intros m gm Hm Hgm. destruct (decide (m = k)) as [->|];
          [congruence|apply (Hold m); [lia|done]]. }
    destruct (ruby_skipped gk) eqn:Hr.
    { unfold place_step. rewrite Hk', Hr.
      apply Hskip. unfold takes_room. by rewrite Hr. }
    pose proof (place_step_visit st k gk Hk' Hr) as Hv. cbn zeta in Hv.
    pose proof (takes_room_cleared gk Hr) as Hroom.
    destruct (bool_decide (cleared (split gk) = SPLIT_INSTEAD)).
    + destruct Hv as (_ & _ & _ & ->). by apply Hskip.
    + destruct Hv as (_ & _ & _ & ->).
      split_and!; [lia|by exists gk|intros m gm Hm; lia].
Qed.

Lemma placing_loop :
  Placing glyphs (length glyphs)
    (place_loop glyphs start_x first_indent rest_indent).
Proof.
  unfold place_loop.
  apply (fold_seq_invariant (Placing glyphs) _ (length glyphs)
           (λ i st, placing_step i st) (length glyphs) 0); [lia|].
  apply placing_init.
Qed.

Lemma place_horizontal_glyphs :
  (place_horizontal glyphs start_x first_indent rest_indent).2
  = pl_glyphs (place_loop glyphs start_x first_indent rest_indent).
Proof. unfold place_horizontal. by destruct glyphs. Qed.

Lemma place_horizontal_width :
  (place_horizontal glyphs start_x first_indent rest_indent).1
  = pl_maxx (place_loop glyphs start_x first_indent rest_indent).
Proof. unfold place_horizontal. by destruct glyphs. Qed.

(** X22. [place_horizontal] leaves ruby-top and alt-ruby glyphs as they
    are; of another glyph it changes at most [x], the split, which becomes
    [SPLIT_NONE] when it was [SPLIT_IGNORE] and is kept otherwise, and the
    advance, which is kept or replaced by the width. No glyph that is
    placed keeps [SPLIT_IGNORE]. *)
Theorem place_horizontal_frame :
  Forall2 laid_out glyphs
    (place_horizontal glyphs start_x first_indent rest_indent).2.
Proof.
  rewrite place_horizontal_glyphs.
  destruct placing_loop as (Hlen & Hgl & _).
  apply Forall2_same_length_lookup. split; [done|].
  intros i g g' Hi Hi'. destruct (Hgl i g Hi) as (g'' & Hi'' & Hg).
  rewrite Hi' in Hi''. injection Hi'' as <-.
  rewrite bool_decide_eq_true_2 in Hg; [done|]. by eapply lookup_lt_Some.
Qed.

Lemma place_step_before k st i g'' :
  Placing glyphs k st → i ≠ k →
  pl_glyphs (place_step start_x rest_indent st k) !! i = Some g'' →
  ∃ g', pl_glyphs st !! i = Some g' ∧ trimmed g' g''.
Proof.
  intros (Hlen & _) Hne Hi.
  destruct (lookup_lt_is_Some_2 (pl_glyphs st) i) as [g' Hg'].
  { rewrite <- (place_step_length start_x rest_indent st k).
    by eapply lookup_lt_Some. }
  destruct (place_step_others start_x rest_indent st k i g' Hne Hg')
    as (g1 & Hg1 & Htr & _).
  rewrite Hi in Hg1. injection Hg1 as <-. by exists g'.
Qed.

Lemma placing_current k st gk :
  Placing glyphs k st → glyphs !! k = Some gk → pl_glyphs st !! k = Some gk.
Proof.
  intros (_ & Hgl & _) Hk. destruct (Hgl k gk Hk) as (g' & Hg' & E).
  rewrite bool_decide_eq_false_2 in E by lia. by subst g'.
Qed.

End Placed.

Lemma c_int_nonneg (q : Q) : (0 <= q)%Q → (0 <= c_int q)%Z.
Proof.
  unfold Qle, c_int. cbn. intros H. apply Z.quot_pos; lia.
Qed.

Lemma c_int_below (q : Q) : (0 <= q)%Q → (inject_Z (c_int q) <= q)%Q.
Proof.
  unfold Qle, c_int. cbn. intros H.
  pose proof (Z.mul_quot_le (Qnum q) (Z.pos (Qden q))). lia.
Qed.

Lemma c_int_bound (q : Q) (n : Z) :
  (0 <= n)%Z → (q <= inject_Z n + (1 # 2))%Q → (c_int q <= n)%Z.
Proof.
  intros Hn Hq. destruct (Qlt_le_dec q 0) as [Hneg|Hpos].
  - assert (c_int q <= 0)%Z; [|lia].
    unfold Qlt in Hneg. unfold c_int. cbn in Hneg.
    apply Z.quot_le_upper_bound; lia.
  - pose proof (c_int_below q Hpos) as Hb.
    assert (Hlt : (inject_Z (c_int q) < inject_Z (n + 1))%Q).
    { rewrite inject_Z_plus. change (inject_Z 1) with 1%Q. lra. }
    rewrite <- Zlt_Qlt in Hlt. lia.
Qed.

Lemma Qgt_bool_max (a m : Q) :
  let m' := if Greedy.Qgt_bool a m then a else m in
  (m <= m')%Q ∧ (a <= m')%Q.
Proof.
  cbn zeta. destruct (Greedy.Qgt_bool a m) eqn:E.
  - apply Qgt_bool_true in E. lra.
  - apply Qgt_bool_false in E. lra.
Qed.

Section Covered.

Variable glyphs : list Glyph.
Variables start_x first_indent rest_indent : Q.

Hypothesis Hfirst : (0 <= start_x + first_indent)%Q.
Hypothesis Hrest : (0 <= start_x + rest_indent)%Q.
Hypothesis Hadvance :
  Forall (λ g, ruby_skipped g = false → (0 <= advance g)%Q) glyphs.

Lemma covering_step k st :
  k < length glyphs → Placing glyphs k st → Covering k st →
  Covering (S k) (place_step start_x rest_indent st k).
Proof.
  intros Hk HP (Hx & Hm & Hgl).
  destruct (lookup_lt_is_Some_2 glyphs k Hk) as [gk Hgk].
  pose proof (placing_current glyphs k st gk HP Hgk) as Hk'.
  assert (Hold : ∀ m i g'', (pl_maxx st <= m)%Q → i < k →
            pl_glyphs (place_step start_x rest_indent st k) !! i = Some g'' →
            takes_room g'' = true →
            (0 <= x g'')%Z ∧ (inject_Z (x g'') + width g'' <= m + (1 # 2))%Q).
  { intros m i g'' Hmm Hi Hg'' Hroom.
    destruct (place_step_before glyphs start_x rest_indent k st i g'' HP)
      as (g' & Hg' & Htr); [lia|done|].
    destruct (trimmed_fields _ _ Htr) as (_ & Hw & Hxx & Hrm & _).
    rewrite Hrm in Hroom. destruct (Hgl i g' Hi Hg' Hroom) as [H1 H2].
    rewrite Hw, Hxx. split; [done|lra]. }
  destruct (ruby_skipped gk) eqn:Hr.
  { assert (E : place_step start_x rest_indent st k = st)
      by (unfold place_step; by rewrite Hk', Hr).
    rewrite E in Hold |- *. split_and!; try done.
    intros i g' Hi Hg' Hroom. destruct (decide (i = k)) as [->|Hne].
    - rewrite Hk' in Hg'. injection Hg' as <-.
      unfold takes_room in Hroom. by rewrite Hr in Hroom.
    - apply (Hold (pl_maxx st) i g'); [lra|lia|done|done]. }
  pose proof (place_step_visit start_x rest_indent st k gk Hk' Hr) as Hv.
  cbn zeta in Hv.
  assert (Hadv : (0 <= advance gk)%Q).
  { rewrite Forall_lookup in Hadvance. by apply (Hadvance k gk). }
  destruct (bool_decide (cleared (split gk) = SPLIT_INSTEAD)) eqn:Hinst.
  - destruct Hv as (Hg & Hpx & Hpm & _). unfold Covering.
    rewrite Hpx, Hpm. split_and!; try done.
    intros i g' Hi Hg' Hroom. destruct (decide (i = k)) as [->|Hne].
    + rewrite Hg in Hg'. injection Hg' as <-.
      unfold takes_room in Hroom. cbn [split set_split] in Hroom.
      rewrite Hinst in Hroom. by rewrite andb_false_r in Hroom.
    + apply (Hold (pl_maxx st) i g'); [lra|lia|done|done].
  - set (x0 := if bool_decide (cleared (split gk) = SPLIT_BEFORE)
               then (start_x + rest_indent)%Q else pl_x st) in *.
    assert (Hx0 : (0 <= x0)%Q) by (subst x0; by case_bool_decide).
    destruct Hv as (Hg & Hpx & Hpm & _). unfold Covering.
    rewrite Hpx, Hpm. clear Hpx Hpm.
    pose proof (Qgt_bool_max (x0 + width gk) (pl_maxx st)) as [M1 M2].
    cbn zeta in M1, M2.
    set (m1 := if Greedy.Qgt_bool (x0 + width gk) (pl_maxx st)
               then (x0 + width gk)%Q else pl_maxx st) in *.
    pose proof (Qgt_bool_max (x0 + advance gk) m1) as [M3 M4].
    cbn zeta in M3, M4.
    set (m2 := if Greedy.Qgt_bool (x0 + advance gk) m1
               then (x0 + advance gk)%Q else m1) in *.
    split_and!.
    + destruct (Greedy.Qgt_bool (x0 + advance gk) (inject_Z MAX_WIDTH));
        [done|lra].
    + lra.
    + intros i g' Hi Hg' Hroom. destruct (decide (i = k)) as [->|Hne].
      * rewrite Hg in Hg'. injection Hg' as <-. cbn [x set_x width set_split].
        assert (0 <= x0 + (1 # 2))%Q by lra.
        split; [by apply c_int_nonneg|].
        pose proof (c_int_below (x0 + (1 # 2))). lra.
      * apply (Hold m2 i g'); [lra|lia|done|done].
Qed.

Lemma covering_loop :
  Covering (length glyphs)
    (place_loop glyphs start_x first_indent rest_indent).
Proof.
  unfold place_loop.
  pose proof (fold_seq_invariant
                (λ k st, Placing glyphs k st ∧ Covering k st)
                (place_step start_x rest_indent) (length glyphs)) as H.
  apply (H (λ i st Hi '(conj HP HC),
            conj (placing_step glyphs start_x rest_indent i st Hi HP)
                 (covering_step i st Hi HP HC)) (length glyphs) 0); [lia|].
  split; [apply placing_init|]. split_and!; [done|done|].
  intros i g' Hi. lia.
Qed.


End Covered.

Section Limited.

Variable glyphs : list Glyph.
Variables start_x first_indent rest_indent : Q.

Hypothesis Hfirst : (start_x + first_indent <= inject_Z MAX_WIDTH)%Q.
Hypothesis Hrest : (start_x + rest_indent <= inject_Z MAX_WIDTH)%Q.

Lemma bounded_step k st :
  k < length glyphs → Placing glyphs k st → Bounded k st →
  Bounded (S k) (place_step start_x rest_indent st k).
Proof.
  intros Hk HP (Hx & Hgl).
  destruct (lookup_lt_is_Some_2 glyphs k Hk) as [gk Hgk].
  pose proof (placing_current glyphs k st gk HP Hgk) as Hk'.
  assert (Hold : ∀ i g'', i < k →
            pl_glyphs (place_step start_x rest_indent st k) !! i = Some g'' →
            takes_room g'' = true → (x g'' <= MAX_WIDTH)%Z).
  { intros i g'' Hi Hg'' Hroom.
    destruct (place_step_before glyphs start_x rest_indent k st i g'' HP)
      as (g' & Hg' & Htr); [lia|done|].
    destruct (trimmed_fields _ _ Htr) as (_ & _ & Hxx & Hrm & _).
    rewrite Hrm in Hroom. rewrite Hxx. by apply (Hgl i g'). }
  destruct (ruby_skipped gk) eqn:Hr.
  { assert (E : place_step start_x rest_indent st k = st)
      by (unfold place_step; by rewrite Hk', Hr).
    rewrite E in Hold |- *. split; [done|].
    intros i g' Hi Hg' Hroom. destruct (decide (i = k)) as [->|Hne].
    - rewrite Hk' in Hg'. injection Hg' as <-.
      unfold takes_room in Hroom. by rewrite Hr in Hroom.
    - apply (Hold i g'); [lia|done|done]. }
  pose proof (place_step_visit start_x rest_indent st k gk Hk' Hr) as Hv.
  cbn zeta in Hv.
  destruct (bool_decide (cleared (split gk) = SPLIT_INSTEAD)) eqn:Hinst.
  - destruct Hv as (Hg & Hpx & _). unfold Bounded. rewrite Hpx.
    split; [done|].
    intros i g' Hi Hg' Hroom. destruct (decide (i = k)) as [->|Hne].
    + rewrite Hg in Hg'. injection Hg' as <-.
      unfold takes_room in Hroom. cbn [split set_split] in Hroom.
      rewrite Hinst in Hroom. by rewrite andb_false_r in Hroom.
    + apply (Hold i g'); [lia|done|done].
  - set (x0 := if bool_decide (cleared (split gk) = SPLIT_BEFORE)
               then (start_x + rest_indent)%Q else pl_x st) in *.
    assert (Hx0 : (x0 <= inject_Z MAX_WIDTH)%Q)
      by (subst x0; by case_bool_decide).
    destruct Hv as (Hg & Hpx & _). unfold Bounded. rewrite Hpx. split.
    + destruct (Greedy.Qgt_bool (x0 + advance gk) (inject_Z MAX_WIDTH)) eqn:E;
        [lra|by apply Qgt_bool_false].
    + intros i g' Hi Hg' Hroom. destruct (decide (i = k)) as [->|Hne].
      * rewrite Hg in Hg'. injection Hg' as <-. cbn [x set_x].
        apply c_int_bound; [done|lra].
      * apply (Hold i g'); [lia|done|done].
Qed.

Lemma bounded_loop :
  Bounded (length glyphs)
    (place_loop glyphs start_x first_indent rest_indent).
Proof.
  unfold place_loop.
  pose proof (fold_seq_invariant
                (λ k st, Placing glyphs k st ∧ Bounded k st)
                (place_step start_x rest_indent) (length glyphs)) as H.
  apply (H (λ i st Hi '(conj HP HC),
            conj (placing_step glyphs start_x rest_indent i st Hi HP)
                 (bounded_step i st Hi HP HC)) (length glyphs) 0); [lia|].
  split; [apply placing_init|]. split; [done|].
  intros i g' Hi. lia.
Qed.

(** X24. When the two starting positions [start_x + first_indent] and
    [start_x + rest_indent] are at most the maximum width,
    [place_horizontal] places no glyph at an [x] beyond the maximum
    width. *)
Theorem place_horizontal_bounded :
  Forall (λ g', takes_room g' = true → (x g' <= MAX_WIDTH)%Z)
    (place_horizontal glyphs start_x first_indent rest_indent).2.
Proof.
  pose proof bounded_loop as (_ & Hgl).
  pose proof (placing_loop glyphs start_x first_indent rest_indent)
    as (Hlen & _).
  rewrite place_horizontal_glyphs.
  apply Forall_lookup. intros i g' Hi. apply (Hgl i g'); [|done].
  rewrite <- Hlen. by eapply lookup_lt_Some.
Qed.

End Limited.

Section LineEnd.

Variable glyphs : list Glyph.
Variables start_x first_indent rest_indent : Q.
Variables (j i : nat) (gj gi : Glyph).

Hypothesis Hj : glyphs !! j = Some gj.
Hypothesis Hi : glyphs !! i = Some gi.
Hypothesis Hji : j < i.
Hypothesis Hroom : takes_room gj = true.
Hypothesis Hruby : ruby_skipped gi = false.
Hypothesis Hbreak : split gi = SPLIT_BEFORE ∨ split gi = SPLIT_INSTEAD.
Hypothesis Hbetween :
  ∀ m gm, j < m < i → glyphs !! m = Some gm → takes_room gm = false.

Lemma trimming_step k st :
  k < length glyphs → Placing glyphs k st →
  (i < k → ∃ g', pl_glyphs st !! j = Some g' ∧ advance g' = width gj) →
  i < S k →
  ∃ g', pl_glyphs (place_step start_x rest_indent st k) !! j = Some g'
        ∧ advance g' = width gj.
Proof.
  intros Hk HP IH Hik.
  pose proof HP as (Hlen & Hgl & Hold).
  destruct (Hgl j gj Hj) as (g' & Hg' & Hlaid).
  rewrite bool_decide_eq_true_2 in Hlaid by lia.
  destruct (laid_out_fields _ _ Hlaid) as (_ & Hw & _).
  assert (Hne : j ≠ k) by lia.
  destruct (place_step_others start_x rest_indent st k j g' Hne Hg')
    as (g'' & Hg'' & Htr & _).
  exists g''. split; [done|].
  destruct (decide (i = k)) as [->|Hlt].
  - assert (E : pl_old_g st = Some j).
    { destruct (pl_old_g st) as [j'|].
      - destruct Hold as (Hj' & (gj' & Hgj' & Hroom') & Hnone). f_equal.
        destruct (Nat.lt_trichotomy j' j) as [Hlt|[->|Hlt]]; [|done|].
        + rewrite (Hnone j gj) in Hroom; [done|lia|done].
        + rewrite (Hbetween j' gj') in Hroom'; [done|lia|done].
      - rewrite (Hold j gj) in Hroom; [done|lia|done]. }
    pose proof (placing_current glyphs k st gi HP Hi) as Hk'.
    revert Hg''. unfold place_step. rewrite Hk', Hruby, set_split_cleared.
    change (split (set_split (cleared (split gi)) gi))
      with (cleared (split gi)).
    assert (Hs : cleared (split gi) ≠ SPLIT_NONE)
      by (destruct Hbreak as [-> | ->]; done).
    assert (Hend : end_of_line (cleared (split gi)) (pl_old_g st)
                     (pl_glyphs st) !! j
                   = Some (set_advance (width g') g')).
    { rewrite E. unfold end_of_line. rewrite bool_decide_eq_true_2 by done.
      by rewrite list_lookup_alter_eq, Hg'. }
    case_bool_decide; cbn [pl_glyphs];
      rewrite list_lookup_insert_ne by lia; rewrite Hend;
      intros [= <-]; by cbn.
  - destruct IH as (g1 & Hg1 & Hadv); [lia|].
    rewrite Hg' in Hg1. injection Hg1 as <-.
    destruct Htr as [->| ->]; [done|by cbn].
Qed.

(** X25. The last glyph of a line gets its width as its advance: when
    the glyph at [j] takes room, the glyph at [i > j] is neither ruby-top
    nor alt-ruby and carries [SPLIT_BEFORE] or [SPLIT_INSTEAD], and no
    glyph between them takes room, then after [place_horizontal] the
    advance of the glyph at [j] is its width. *)
Theorem place_horizontal_line_end :
  ∃ g', (place_horizontal glyphs start_x first_indent rest_indent).2 !! j
        = Some g'
        ∧ advance g' = width gj.
Proof.
  rewrite place_horizontal_glyphs. unfold place_loop.
  pose proof (fold_seq_invariant
                (λ k st, Placing glyphs k st
                         ∧ (i < k → ∃ g', pl_glyphs st !! j = Some g'
                                          ∧ advance g' = width gj))
                (place_step start_x rest_indent) (length glyphs)) as H.
  apply (H (λ k st Hk '(conj HP HC),
            conj (placing_step glyphs start_x rest_indent k st Hk HP)
                 (trimming_step k st Hk HP HC)) (length glyphs) 0).
  - lia.
  - split; [apply placing_init|lia].
  - by eapply lookup_lt_Some.
Qed.

End LineEnd.

End HorizontalFacts.


Lemma place_horizontal_bounded_witness :
  Forall (λ g', Horizontal.takes_room g' = true → (x g' <= MAX_WIDTH)%Z)
    (Horizontal.place_horizontal Samples.a_b_c 0 0 0).2.
Proof.
apply (place_horizontal_bounded Samples.a_b_c 0 0 0).
- vm_compute. discriminate.
- vm_compute. discriminate.
Defined.

Lemma place_horizontal_line_end_witness :
  ∃ g', (Horizontal.place_horizontal Samples.a_b_c 0 0 0).2 !! 0 = Some g'
        ∧ advance g' = 1%Q.
Proof.
apply (place_horizontal_line_end Samples.a_b_c 0 0 0 0 1
         (Samples.letter 97) Samples.space);
  [reflexivity | reflexivity | lia | reflexivity | reflexivity
  | by right | intros; lia].
Defined.

Section VerticalFacts.

Import Vertical.

Lemma stacked_snoc top ls bottom (l : Line) :
  stacked top ls bottom → line_y l = bottom →
  stacked top (ls ++ [l]) (bottom + height l).
Proof.
  revert top. induction ls as [|l0 ls IH]; intros top; cbn.
  - intros -> <-. done.
  - intros [H1 H2] H3. split; [done|by apply IH].
Qed.

Lemma stacked_ext top ls ls' bottom :
  Forall2 (λ l l', line_y l' = line_y l ∧ height l' = height l) ls ls' →
  stacked top ls bottom → stacked top ls' bottom.
Proof.
  intros H. revert top. induction H as [|l l' ls ls' [H1 H2] _ IH];
    intros top; cbn; [done|].
  intros [H3 H4]. rewrite H1, H2. split; [done|by apply IH].
Qed.

Section Stacking.

Variables spacing leading ruby_line_leading : Z.

Abbreviation end_line' := (end_line spacing leading ruby_line_leading).

(** What [end_line] does to the lines and to [y]. *)
Lemma end_line_line pos st :
  ∃ l, vt_rv (end_line' pos st) = vt_rv st ++ [l]
    ∧ line_y l = (vt_y st - leading)%Z
    ∧ (vt_y (end_line' pos st) - leading = line_y l + height l)%Z
    ∧ eop l = false
    ∧ vt_broke (end_line' pos st) = vt_broke st
    ∧ vt_sol (end_line' pos st) = pos.
Proof.
  unfold end_line.
  destruct (fold_left _ _ _) as [gs has_ruby].
  eexists. split; [done|]. cbn. destruct has_ruby; split_and!; try done; lia.
Qed.

Lemma fold_left_invariant {St A : Type} (P : St → Prop) (step : St → A → St) :
  (∀ st a, P st → P (step st a)) →
  ∀ l st, P st → P (fold_left step l st).
Proof.
  intros Hstep l. induction l as [|a l IH]; intros st Hst; [done|].
  cbn. apply IH. by apply Hstep.
Qed.

Lemma settle_fold_other yy asc (idx : list nat) acc i :
  i ∉ idx →
  (fold_left (settle_step yy asc) idx acc).1 !! i = acc.1 !! i.
Proof.
  revert acc. induction idx as [|a idx IH]; intros acc Hi; [done|].
  apply not_elem_of_cons in Hi as [Hne Hi]. cbn [fold_left].
  rewrite IH by done. unfold settle_step.
  destruct (acc.1 !! a) as [gg|]; [|done].
  destruct (ruby_skipped gg); [done|].
  destruct (ascent gg =? 0)%Z; cbn [fst];
    by rewrite list_lookup_insert_ne by done.
Qed.

Lemma lift_fold_other (idx : list nat) (gs : list Glyph) i :
  i ∉ idx →
  fold_left (lift_step ruby_line_leading) idx gs !! i = gs !! i.
Proof.
  revert gs. induction idx as [|a idx IH]; intros gs Hi; [done|].
  apply not_elem_of_cons in Hi as [Hne Hi]. cbn [fold_left].
  rewrite IH by done. unfold lift_step.
  destruct (gs !! a) as [gg|]; [|done].
  destruct (ruby_skipped gg); [done|].
  by rewrite list_lookup_insert_ne by done.
Qed.

(** [end_line] leaves the glyphs from [pos] on as they are. *)
Lemma end_line_other pos st i :
  pos ≤ i → vt_glyphs (end_line' pos st) !! i = vt_glyphs st !! i.
Proof.
  intros Hi. unfold end_line.
  assert (Hout : i ∉ seq (vt_sol st) (pos - vt_sol st)).
  { rewrite elem_of_seq. lia. }
  pose proof (settle_fold_other (vt_y st) (vt_ascent st) _
                (vt_glyphs st, false) i Hout) as H1.
  destruct (fold_left _ _ _) as [gs has_ruby]. cbn [fst] in H1.
  cbn [vt_glyphs]. destruct has_ruby; [|done].
  by rewrite lift_fold_other.
Qed.

Variable y0 : Z.

Lemma stacking_end_line pos st :
  Stacking y0 leading st → Stacking y0 leading (end_line' pos st).
Proof.
  intros (H1 & H2 & H3).
  destruct (end_line_line pos st) as (l & Hrv & Hy & Hh & He & Hb & _).
  unfold Stacking. rewrite Hrv, Hh, Hb. split_and!.
  - rewrite Hy. by apply stacked_snoc.
  - apply Forall_app. split; [done|]. by constructor.
  - intros _. by destruct (vt_rv st).
Qed.

Lemma stacking_step len st pos :
  Stacking y0 leading st →
  Stacking y0 leading
    (vertical_step spacing leading ruby_line_leading len st pos).
Proof.
  intros Hst. unfold vertical_step.
  destruct (vt_broke st) eqn:Hb; [done|].
  destruct (vt_glyphs st !! pos) as [g|] eqn:Hg; [|done].
  set (st1 := if bool_decide (split g ≠ SPLIT_NONE) then end_line' pos st
              else st).
  assert (H1 : Stacking y0 leading st1).
  { subst st1. case_bool_decide; [by apply stacking_end_line|done]. }
  assert (Hne : bool_decide (split g ≠ SPLIT_NONE) = true → vt_rv st1 ≠ []).
  { subst st1. intros ->.
    destruct (end_line_line pos st) as (l & -> & _). by destruct (vt_rv st). }
  assert (Hg1 : vt_glyphs st1 !! pos = Some g).
  { subst st1. case_bool_decide; [|done]. by rewrite end_line_other. }
  clearbody st1. rewrite Hg1.
  destruct H1 as (A1 & A2 & A3).
  destruct (bool_decide (split g ≠ SPLIT_NONE)) eqn:E1;
    destruct (bool_decide (split g = SPLIT_INSTEAD)) eqn:E2;
    cbn [andb]; split_and!; try done.
  intros _. by apply Hne.
Qed.

Lemma stacking_loop (glyphs : list Glyph) :
  Stacking y0 leading
    (fold_left (vertical_step spacing leading ruby_line_leading
                  (length glyphs))
       (seq 0 (length glyphs))
       (mkVertical glyphs (y0 + leading) 0 0 0 [] false)).
Proof.
  apply fold_left_invariant.
  - intros st pos. apply stacking_step.
  - split_and!; cbn; [lia|constructor|done].
Qed.

(** X26. [place_vertical] does not raise; the lines it returns are
    stacked without gap or overlap from the [y] it was given down to the
    [y] it returns (each line starts where the line before it ends, at its
    [y] plus its height); there is no line exactly when there is no glyph;
    and the last line, and only it, ends the paragraph. *)
Theorem place_vertical_stacks (glyphs : list Glyph) :
  ∃ gs rv y1,
    place_vertical glyphs y0 spacing leading ruby_line_leading
    = Ok (gs, rv, y1)
    ∧ stacked y0 rv y1
    ∧ (rv = [] ↔ glyphs = [])
    ∧ ∀ i l, rv !! i = Some l → eop l = bool_decide (S i = length rv).
Proof.
  unfold place_vertical. destruct glyphs as [|g0 gl] eqn:Egl.
  { exists [], [], y0. by split_and!. }
  rewrite <- Egl.
  pose proof (stacking_loop glyphs) as Hloop.
  set (st := fold_left _ _ _) in *.
  set (st' := if vt_broke st then st
              else end_line' (length glyphs) st).
  assert (H' : Stacking y0 leading st' ∧ vt_rv st' ≠ []).
  { subst st'. destruct (vt_broke st) eqn:Hb.
    - split; [done|]. by apply Hloop.
    - split; [by apply stacking_end_line|].
      destruct (end_line_line (length glyphs) st) as (l & -> & _).
      by destruct (vt_rv st). }
  clearbody st'. destruct H' as ((S1 & S2 & _) & Hne).
  unfold mark_eop. destruct (vt_rv st') as [|l0 rv0] eqn:Erv; [done|].
  rewrite <- Erv in *. clear Erv l0 rv0.
  eexists _, _, _. split; [done|]. split_and!.
  - eapply stacked_ext; [|exact S1].
    apply Forall2_same_length_lookup. split; [by rewrite length_alter|].
    intros i l l' Hl Hl'.
    destruct (decide (i = length (vt_rv st') - 1)) as [->|Hne'].
    + rewrite list_lookup_alter_eq, Hl in Hl'. by injection Hl' as <-.
    + rewrite list_lookup_alter_ne, Hl in Hl' by done. by injection Hl' as <-.
  - split; [|by rewrite Egl].
    intros E. apply (f_equal length) in E. rewrite length_alter in E.
    by destruct (vt_rv st').
  - intros i l. rewrite length_alter.
    destruct (decide (i = length (vt_rv st') - 1)) as [->|Hne'].
    + rewrite list_lookup_alter_eq.
      destruct (vt_rv st' !! (length (vt_rv st') - 1)) as [l1|] eqn:E1;
        [|done].
      intros [= <-]. cbn. symmetry. apply bool_decide_eq_true_2.
      apply lookup_lt_Some in E1. lia.
    + rewrite list_lookup_alter_ne by done. intros Hl.
      rewrite Forall_lookup in S2. rewrite (S2 i l Hl).
      symmetry. apply bool_decide_eq_false_2. lia.
Qed.

Lemma slice_step (f : Glyph → Glyph) (gs : list Glyph) a n g :
  gs !! a = Some g → a + S n ≤ length gs →
  take (S a) (<[a := f g]> gs)
  ++ map f (take n (drop (S a) (<[a := f g]> gs)))
  ++ drop (S a + n) (<[a := f g]> gs)
  = take a gs ++ map f (take (S n) (drop a gs)) ++ drop (a + S n) gs.
Proof.
  intros Ha Hn.
  rewrite (take_S_r _ a (f g)) by (apply list_lookup_insert_eq; lia).
  rewrite take_insert_ge by lia. rewrite !drop_insert_lt by lia.
  rewrite (drop_S gs g a Ha). cbn [take map].
  rewrite <- app_assoc. cbn [app].
  by replace (S a + n) with (a + S n) by lia.
Qed.

Lemma settle_fold_slice yy asc n a (gs : list Glyph) b :
  a + n ≤ length gs →
  fold_left (settle_step yy asc) (seq a n) (gs, b)
  = (take a gs ++ map (settle_glyph yy asc) (take n (drop a gs))
     ++ drop (a + n) gs,
     b || existsb ruby_skipped (take n (drop a gs))).
Proof.
  revert a gs b. induction n as [|n IH]; intros a gs b Hn.
  - cbn [seq fold_left]. rewrite take_0. cbn [map existsb app].
    by rewrite Nat.add_0_r, take_drop, orb_false_r.
  - destruct (lookup_lt_is_Some_2 gs a) as [g Hg]; [lia|].
    cbn [seq fold_left].
    assert (E : settle_step yy asc (gs, b) a
                = (<[a := settle_glyph yy asc g]> gs, b || ruby_skipped g)).
    { unfold settle_step, settle_glyph. cbn [fst snd]. rewrite Hg.
      destruct (ruby_skipped g).
      - by rewrite list_insert_id, orb_true_r.
      - rewrite orb_false_r. by destruct (ascent g =? 0)%Z. }
    rewrite E, IH by (rewrite length_insert; lia).
    rewrite slice_step by done. f_equal.
    rewrite drop_insert_lt by lia. rewrite (drop_S gs g a Hg).
    cbn [take existsb]. by rewrite orb_assoc.
Qed.

Lemma lift_fold_slice n a (gs : list Glyph) :
  a + n ≤ length gs →
  fold_left (lift_step ruby_line_leading) (seq a n) gs
  = take a gs ++ map (lift_glyph ruby_line_leading) (take n (drop a gs))
    ++ drop (a + n) gs.
Proof.
  revert a gs. induction n as [|n IH]; intros a gs Hn.
  - cbn [seq fold_left]. rewrite take_0. cbn [map app].
    by rewrite Nat.add_0_r, take_drop.
  - destruct (lookup_lt_is_Some_2 gs a) as [g Hg]; [lia|].
    cbn [seq fold_left].
    assert (E : lift_step ruby_line_leading gs a
                = <[a := lift_glyph ruby_line_leading g]> gs).
    { unfold lift_step, lift_glyph. rewrite Hg.
      destruct (ruby_skipped g); [by rewrite list_insert_id|done]. }
    rewrite E, IH by (rewrite length_insert; lia).
    by rewrite slice_step.
Qed.

Lemma app3_parts (A B C : list Glyph) a n :
  length A = a → length B = n →
  take a (A ++ B ++ C) = A
  ∧ take n (drop a (A ++ B ++ C)) = B
  ∧ drop (a + n) (A ++ B ++ C) = C.
Proof.
  intros Ha Hb. split_and!.
  - by rewrite take_app_length'.
  - rewrite drop_app_length' by done. by rewrite take_app_length'.
  - rewrite <- drop_drop, drop_app_length' by done.
    by rewrite drop_app_length'.
Qed.

Lemma end_line_slice pos st :
  vt_sol st ≤ pos ≤ length (vt_glyphs st) →
  let slice := take (pos - vt_sol st) (drop (vt_sol st) (vt_glyphs st)) in
  vt_glyphs (end_line' pos st)
  = take (vt_sol st) (vt_glyphs st)
    ++ map (line_glyph ruby_line_leading st pos) slice
    ++ drop pos (vt_glyphs st)
  ∧ ∃ l, vt_rv (end_line' pos st) = vt_rv st ++ [l]
      ∧ glyphs l = map (line_glyph ruby_line_leading st pos) slice
      ∧ baseline l
        = ((if existsb ruby_skipped slice
            then vt_y st + ruby_line_leading else vt_y st)
           + vt_ascent st)%Z.
Proof.
  intros Hpos slice. unfold end_line, line_glyph. fold slice.
  rewrite settle_fold_slice by lia. fold slice. cbn [orb].
  replace (vt_sol st + (pos - vt_sol st)) with pos by lia.
  assert (Hlen : length (take (vt_sol st) (vt_glyphs st)) = vt_sol st)
    by (rewrite length_take; lia).
  assert (Hsl : length slice = pos - vt_sol st).
  { subst slice. rewrite length_take, length_drop. lia. }
  set (A := take (vt_sol st) (vt_glyphs st)) in *.
  set (C := drop pos (vt_glyphs st)).
  set (B := map (settle_glyph (vt_y st) (vt_ascent st)) slice).
  assert (HB : length B = pos - vt_sol st) by (subst B; by rewrite length_map).
  destruct (existsb ruby_skipped slice).
  - rewrite lift_fold_slice.
    2:{ rewrite !length_app, Hlen, HB. lia. }
    destruct (app3_parts A B C _ _ Hlen HB) as (-> & -> & ->).
    set (B' := map (lift_glyph ruby_line_leading) B).
    assert (HB' : length B' = pos - vt_sol st)
      by (subst B'; by rewrite length_map).
    destruct (app3_parts A B' C _ _ Hlen HB') as (_ & E & _).
    cbn [vt_glyphs vt_rv]. subst B' B. rewrite map_map in E |- *.
    split; [done|]. eexists. split; [done|]. cbn [glyphs baseline].
    by rewrite E.
  - destruct (app3_parts A B C _ _ Hlen HB) as (_ & E & _).
    cbn [vt_glyphs vt_rv].
    split; [done|]. eexists. split; [done|]. cbn [glyphs baseline].
    by rewrite E.
Qed.

Lemma replaced_refl (g : Glyph) : replaced g g.
Proof. by destruct g. Qed.

Lemma replaced_line_glyph st pos (g g' : Glyph) :
  replaced g g' → replaced g (line_glyph ruby_line_leading st pos g').
Proof.
  unfold replaced, line_glyph, settle_glyph, lift_glyph. intros H.
  destruct g, g'. unfold set_ascent, set_y in *. cbn in *.
  injection H as -> -> -> -> -> -> -> -> -> -> -> -> -> -> ->.
  repeat (match goal with |- context [if ?b then _ else _] =>
            destruct b eqn:? end; cbn in *; try done).
Qed.

Lemma line_glyph_split st pos (g : Glyph) :
  split (line_glyph ruby_line_leading st pos g) = split g
  ∧ ruby_skipped (line_glyph ruby_line_leading st pos g) = ruby_skipped g.
Proof.
  unfold line_glyph, settle_glyph, lift_glyph.
  destruct (ruby_skipped g) eqn:Hr.
  - rewrite Hr. by destruct (existsb _ _).
  - destruct (ascent g =? 0)%Z;
      (destruct (existsb _ _); [|done]);
      change (ruby_skipped (set_ascent _ (set_y _ g))) with (ruby_skipped g);
      change (ruby_skipped (set_y _ g)) with (ruby_skipped g);
      by rewrite Hr.
Qed.

Lemma line_glyph_on_baseline st pos (l : Line) (g : Glyph) :
  baseline l
  = ((if existsb ruby_skipped
            (take (pos - vt_sol st) (drop (vt_sol st) (vt_glyphs st)))
      then vt_y st + ruby_line_leading else vt_y st)
     + vt_ascent st)%Z →
  on_baseline l (line_glyph ruby_line_leading st pos g).
Proof.
  intros Hb Hr. destruct (line_glyph_split st pos g) as [_ Hr'].
  rewrite Hr' in Hr. rewrite Hb.
  unfold line_glyph, settle_glyph, lift_glyph. rewrite Hr.
  destruct (ascent g =? 0)%Z;
    (destruct (existsb _ _);
     [change (ruby_skipped (set_ascent _ (set_y _ g))) with (ruby_skipped g);
      change (ruby_skipped (set_y _ g)) with (ruby_skipped g);
      rewrite Hr|]); cbn; lia.
Qed.

Lemma filter_unmarked (l : list Glyph) :
  Forall (λ g, split g ≠ SPLIT_INSTEAD) l →
  filter (λ g, split g ≠ SPLIT_INSTEAD) l = l.
Proof.
  induction 1 as [|g l Hg _ IH]; [done|].
  by rewrite filter_cons_True, IH.
Qed.

Section Lines.

Variable input : list Glyph.

Lemma lining_end_line k st :
  k ≤ length input → Lining input k st →
  Lining input k (end_line' k st)
  ∧ vt_sol (end_line' k st) = k
  ∧ vt_broke (end_line' k st) = vt_broke st
  ∧ drop k (vt_glyphs (end_line' k st)) = drop k (vt_glyphs st).
Proof.
  intros Hk (Hlen & Hsol & Hrep & Hcat & Hno & Hbase & Hbroke).
  destruct (end_line_slice k st) as (Hgs & l & Hrv & Hgl & Hbl); [lia|].
  destruct (end_line_line k st) as (l' & Hrv' & _ & _ & _ & Hb & Hs).
  set (slice := take (k - vt_sol st) (drop (vt_sol st) (vt_glyphs st))) in *.
  assert (HA : length (take (vt_sol st) (vt_glyphs st)) = vt_sol st)
    by (rewrite length_take; lia).
  assert (HB : length (map (line_glyph ruby_line_leading st k) slice) = k - vt_sol st).
  { subst slice. rewrite length_map, length_take, length_drop. lia. }
  destruct (app3_parts _ _ (drop k (vt_glyphs st)) _ _ HA HB)
    as (_ & _ & E3).
  replace (vt_sol st + (k - vt_sol st)) with k in E3 by lia.
  assert (Hfilter : filter (λ g, split g ≠ SPLIT_INSTEAD) (map (line_glyph ruby_line_leading st k) slice)
                    = map (line_glyph ruby_line_leading st k) slice).
  { apply filter_unmarked, Forall_forall. intros g Hg.
    apply list_elem_of_fmap in Hg as (g0 & -> & Hg0).
    rewrite Forall_forall in Hno.
    destruct (line_glyph_split st k g0) as [-> _]. by apply Hno. }
  assert (Htake : take k (vt_glyphs (end_line' k st))
                  = take (vt_sol st) (vt_glyphs st) ++ map (line_glyph ruby_line_leading st k) slice).
  { rewrite Hgs, app_assoc. apply take_app_length'.
    rewrite length_app, HA, HB. lia. }
  unfold Lining. split_and!; try done.
  - rewrite Hgs, !length_app, HA, HB, length_drop. lia.
  - lia.
  - rewrite Hgs.
    rewrite <- (take_drop (vt_sol st) input).
    rewrite <- (take_drop (k - vt_sol st) (drop (vt_sol st) input)).
    rewrite drop_drop.
    replace (vt_sol st + (k - vt_sol st)) with k by lia.
    apply Forall2_app; [by apply Forall2_take|].
    apply Forall2_app; [|by apply Forall2_drop].
    apply Forall2_fmap_r.
    eapply Forall2_impl; [apply Forall2_take, Forall2_drop, Hrep|].
    intros g g'. apply replaced_line_glyph.
  - rewrite Hs, Htake, Hrv, map_app, concat_app, filter_app, Hcat, Hfilter.
    cbn. by rewrite Hgl, app_nil_r.
  - rewrite Hs, Nat.sub_diag. constructor.
  - rewrite Hrv. apply Forall_app. split; [done|].
    constructor; [|constructor]. rewrite Hgl.
    apply Forall_forall. intros g Hg.
    apply list_elem_of_fmap in Hg as (g0 & -> & Hg0).
    by apply line_glyph_on_baseline.
  - rewrite Hb. intros Hbr. specialize (Hbroke Hbr). lia.
  - by rewrite Hgs at 1.
Qed.

Lemma lining_advance k st g asc ls :
  k < length input → Lining input k st →
  vt_glyphs st !! k = Some g → split g ≠ SPLIT_INSTEAD →
  Lining input (S k)
    (mkVertical (vt_glyphs st) (vt_y st) (vt_sol st) asc ls (vt_rv st) false).
Proof.
  intros Hk (Hlen & Hsol & Hrep & Hcat & Hno & Hbase & Hbroke) Hg Hs.
  unfold Lining. cbn [vt_glyphs vt_sol vt_rv vt_broke].
  split_and!; try done; [lia|].
  replace (S k - vt_sol st) with (S (k - vt_sol st)) by lia.
  rewrite (take_S_r _ _ g).
  - apply Forall_app. split; [done|]. by constructor.
  - rewrite lookup_drop. by replace (vt_sol st + (k - vt_sol st)) with k by lia.
Qed.

Lemma lining_skip k st g :
  k < length input → Lining input k st → vt_sol st = k →
  vt_glyphs st !! k = Some g → split g = SPLIT_INSTEAD →
  Lining input (S k)
    (mkVertical (vt_glyphs st) (vt_y st) (S (vt_sol st)) (vt_ascent st)
       (vt_line_spacing st) (vt_rv st) (length input <=? S k)).
Proof.
  intros Hk (Hlen & Hsol & Hrep & Hcat & Hno & Hbase & Hbroke) Hk' Hg Hs.
  unfold Lining. cbn [vt_glyphs vt_sol vt_rv vt_broke]. rewrite Hk' in *.
  split_and!; try done.
  - rewrite (take_S_r _ _ g Hg), filter_app, <- Hcat.
    rewrite filter_cons_False, filter_nil, app_nil_r; [done|].
    intros H. by apply H.
  - rewrite Nat.sub_diag. constructor.
  - intros H. apply Nat.leb_le in H. lia.
Qed.

Lemma lining_step k st :
  k < length input → Lining input k st →
  Lining input (S k)
    (vertical_step spacing leading ruby_line_leading (length input) st k).
Proof.
  intros Hk HL. pose proof HL as (Hlen & Hsol & _ & _ & _ & _ & Hbroke).
  unfold vertical_step.
  destruct (vt_broke st) eqn:Hb; [specialize (Hbroke eq_refl); lia|].
  destruct (lookup_lt_is_Some_2 (vt_glyphs st) k) as [g Hg]; [lia|].
  rewrite Hg. case_bool_decide as Hend.
  - destruct (lining_end_line k st) as (HL1 & Hs1 & Hb1 & Hd1); [lia|done|].
    assert (Hg1 : vt_glyphs (end_line' k st) !! k = Some g)
      by (by rewrite end_line_other).
    rewrite Hg1, (bool_decide_eq_true_2 _ Hend). cbn [andb].
    case_bool_decide as Hinst.
    + by apply (lining_skip k _ g).
    + by apply (lining_advance k _ g).
  - rewrite Hg.
    rewrite (bool_decide_eq_false_2 (split g ≠ SPLIT_NONE))
      by (intros H; by apply H).
    cbn [andb]. apply (lining_advance k st g); try done. by rewrite Hend.
Qed.

Lemma lining_loop :
  Lining input (length input)
    (fold_left
       (vertical_step spacing leading ruby_line_leading (length input))
       (seq 0 (length input))
       (mkVertical input (y0 + leading) 0 0 0 [] false)).
Proof.
  apply (fold_seq_invariant (Lining input) _ (length input)
           (λ i st, lining_step i st) (length input) 0); [lia|].
  unfold Lining. cbn. split_and!; try done.
  apply Forall_Forall2_diag, Forall_forall. intros g _. apply replaced_refl.
Qed.

(** The call on a list that is not empty: the state when the loop is left,
    from which the lines and the value returned are read. *)
Lemma place_vertical_lining :
  input ≠ [] →
  ∃ st,
    place_vertical input y0 spacing leading ruby_line_leading
    = Ok (vt_glyphs st, alter (set_eop true) (length (vt_rv st) - 1) (vt_rv st),
          (vt_y st - leading)%Z)
    ∧ Lining input (length input) st
    ∧ vt_sol st = length input.
Proof.
  intros Hne. unfold place_vertical.
  destruct input as [|g0 gl] eqn:Egl; [done|]. rewrite <- Egl. clear Hne.
  pose proof lining_loop as HL.
  pose proof (stacking_loop input) as HS.
  set (st := fold_left _ _ _) in *. clearbody st.
  destruct (vt_broke st) eqn:Hb.
  - exists st. destruct HS as (_ & _ & Hrv). specialize (Hrv Hb).
    unfold mark_eop. destruct (vt_rv st) as [|l0 rv0] eqn:Erv; [done|].
    rewrite <- Erv. split; [done|]. split; [done|].
    by apply HL.
  - destruct (lining_end_line (length input) st) as (HL1 & Hs1 & _); [lia|done|].
    exists (end_line' (length input) st).
    destruct (end_line_line (length input) st) as (l & Hrv & _).
    unfold mark_eop. rewrite Hrv.
    destruct (vt_rv st ++ [l]) as [|l0 rv0] eqn:Erv;
      [by destruct (vt_rv st)|].
    rewrite <- Erv. done.
Qed.

Lemma map_glyphs_eop (rv : list Line) i :
  map glyphs (alter (set_eop true) i rv) = map glyphs rv.
Proof.
  apply list_eq. intros j.
  change (map glyphs) with (fmap (M:=list) glyphs).
  rewrite !list_lookup_fmap. destruct (decide (i = j)) as [->|Hne].
  - rewrite list_lookup_alter_eq. by destruct (rv !! j).
  - by rewrite list_lookup_alter_ne.
Qed.

(** X27. [place_vertical] changes nothing of a glyph but [y] and
    [ascent], and the glyphs of the lines it returns, put end to end, are
    the glyphs that are not [SPLIT_INSTEAD], in order: every such glyph is
    on exactly one line, and the lines hold the glyphs as the call leaves
    them. *)
Theorem place_vertical_lines :
  ∃ gs rv y1,
    place_vertical input y0 spacing leading ruby_line_leading
    = Ok (gs, rv, y1)
    ∧ Forall2 replaced input gs
    ∧ concat (map glyphs rv) = filter (λ g, split g ≠ SPLIT_INSTEAD) gs.
Proof.
  destruct (decide (input = [])) as [E|Hne].
  { exists [], [], y0. rewrite E. split_and!; [done|constructor|done]. }
  destruct (place_vertical_lining Hne)
    as (st & -> & (Hlen & _ & Hrep & Hcat & _) & Hsol).
  eexists _, _, _. split; [done|]. split; [done|].
  rewrite map_glyphs_eop, Hcat, Hsol, <- Hlen. by rewrite firstn_all.
Qed.


End Lines.

End Stacking.


End VerticalFacts.

Section LinksFacts.

Import Links.

Lemma area_fold_runs (line : Line) (gs : list Glyph) (st : link_state) :
  let st' := fold_left (area_step line) gs st in
  map area_place
    (if negb (lk_hyperlink st' =? 0)%Z then emit line st' else lk_rv st')
  = map area_place (lk_rv st)
    ++ map (area_of line) (link_runs (lk_hyperlink st) (map hyperlink gs)).
Proof.
  cbn zeta. revert st. induction gs as [|g gs IH]; intros st.
  - cbn [fold_left map link_runs].
    destruct (lk_hyperlink st =? 0)%Z; cbn [negb map].
    + by rewrite app_nil_r.
    + unfold emit. by rewrite map_app.
  - cbn [fold_left map link_runs]. rewrite IH. clear IH.
    unfold area_step.
    destruct (negb (lk_hyperlink st =? 0)%Z
              && negb (hyperlink g =? lk_hyperlink st)%Z) eqn:E.
    + destruct (negb (hyperlink g =? 0)%Z); cbn [lk_rv lk_hyperlink];
        unfold emit; rewrite !map_app, <- !app_assoc; done.
    + destruct (negb (hyperlink g =? 0)%Z); cbn [lk_rv lk_hyperlink app];
        done.
Qed.

Lemma line_areas_runs (rv : list area) (line : Line) :
  map area_place (line_areas rv line)
  = map area_place rv
    ++ map (area_of line) (link_runs 0 (map hyperlink (glyphs line))).
Proof.
  unfold line_areas.
  by rewrite (area_fold_runs line (glyphs line) (mkLink 0 86400 0 1000000 rv)).
Qed.

Lemma link_runs_nonzero (hs : list Z) (current : Z) :
  Forall (λ h, h ≠ 0%Z) (link_runs current hs).
Proof.
  revert current. induction hs as [|h hs IH]; intros current; cbn.
  - destruct (Z.eqb_spec current 0); by repeat constructor.
  - apply Forall_app. split; [|apply IH].
    destruct (Z.eqb_spec current 0); cbn; [constructor|].
    destruct (h =? current)%Z; cbn; by repeat constructor.
Qed.

(** X29. [hyperlink_areas] returns, line after line, one area for each
    run of consecutive glyphs of the line that carry the same hyperlink
    other than 0, with that hyperlink and the [y] and the height of the
    line; a run does not go from one line to the next, and no area has the
    hyperlink 0. *)
Theorem hyperlink_areas_runs (l : list Line) :
  map area_place (hyperlink_areas l)
  = concat (map (λ line, map (area_of line)
                           (link_runs 0 (map hyperlink (glyphs line)))) l)
  ∧ Forall (λ a, area_hyperlink a ≠ 0%Z) (hyperlink_areas l).
Proof.
  assert (H : ∀ rv,
            map area_place (fold_left line_areas l rv)
            = map area_place rv
              ++ concat (map (λ line, map (area_of line)
                   (link_runs 0 (map hyperlink (glyphs line)))) l)).
  { induction l as [|line l IH]; intros rv; cbn [fold_left map concat].
    - by rewrite app_nil_r.
    - by rewrite IH, line_areas_runs, <- app_assoc. }
  unfold hyperlink_areas. split; [by rewrite H|].
  specialize (H []). cbn [map app] in H.
  apply Forall_forall. intros a Ha.
  assert (Hin : area_place a ∈ map area_place (fold_left line_areas l []))
    by (by apply list_elem_of_fmap_2).
  rewrite H in Hin. apply list_elem_of_In, in_concat in Hin.
  destruct Hin as (ps & Hps & Hin).
  apply in_map_iff in Hps as (line & <- & _).
  apply in_map_iff in Hin as (h & Hh & Hin).
  pose proof (link_runs_nonzero (map hyperlink (glyphs line)) 0) as Hnz.
  rewrite Forall_forall in Hnz. apply list_elem_of_In in Hin.
  specialize (Hnz h Hin). unfold area_of, area_place in Hh. congruence.
Qed.

Lemma c_int_above (q : Q) : (q < inject_Z (c_int q) + 1)%Q.
Proof.
  assert (H : (q < inject_Z (c_int q + 1))%Q).
  { unfold Qlt, c_int. cbn [Qnum Qden inject_Z]. rewrite Z.mul_1_r.
    pose proof (Z.quot_rem' (Qnum q) (Z.pos (Qden q))) as H1.
    destruct (Z.le_gt_cases 0 (Qnum q)) as [Hpos|Hneg].
    - pose proof (Z.rem_bound_pos (Qnum q) (Z.pos (Qden q)) Hpos). nia.
    - pose proof (Z.rem_nonpos (Qnum q) (Z.pos (Qden q))). nia. }
  by rewrite inject_Z_plus in H.
Qed.

Section OneLink.

Variables (line : Line) (h : Z) (rv : list area).

Hypothesis Hh : h ≠ 0%Z.

Lemma linked_step seen st g :
  hyperlink g = h → (0 <= width g)%Q →
  Linked h rv seen st → Linked h rv (seen ++ [g]) (area_step line st g).
Proof.
  intros Hg Hw (Hrv & Hcur & Hseen). unfold area_step.
  assert (E : negb (lk_hyperlink st =? 0)%Z
              && negb (hyperlink g =? lk_hyperlink st)%Z = false).
  { rewrite Hcur, Hg. destruct seen; [done|].
    by rewrite Z.eqb_refl, andb_false_r. }
  rewrite E, Hg. replace (h =? 0)%Z with false by (symmetry; by apply Z.eqb_neq).
  cbn [negb]. unfold Linked. cbn [lk_rv lk_hyperlink lk_min_x lk_max_x lk_time].
  split; [done|]. split; [by destruct seen|].
  set (mn := if (x g <? lk_min_x st)%Z then x g else lk_min_x st).
  set (mx := if Greedy.Qgt_bool (inject_Z (x g) + width g)
                    (inject_Z (lk_max_x st))
             then (x g + c_int (width g))%Z else lk_max_x st).
  set (t := if Greedy.Qgt_bool (time g) (lk_time st)
            then lk_time st else time g).
  assert (Hmn : (mn <= lk_min_x st)%Z ∧ (mn <= x g)%Z)
    by (subst mn; destruct (Z.ltb_spec (x g) (lk_min_x st)); lia).
  assert (Ht : (t <= lk_time st)%Q ∧ (t <= time g)%Q).
  { subst t. destruct (Greedy.Qgt_bool (time g) (lk_time st)) eqn:Et.
    - apply Qgt_bool_true in Et. lra.
    - apply Qgt_bool_false in Et. lra. }
  assert (Hmx : (lk_max_x st <= mx)%Z ∧ (x g + c_int (width g) <= mx)%Z).
  { subst mx.
    destruct (Greedy.Qgt_bool (inject_Z (x g) + width g)
                (inject_Z (lk_max_x st))) eqn:Em.
    - apply Qgt_bool_true in Em. split; [|lia].
      pose proof (c_int_above (width g)) as Ha.
      assert (Hlt : (inject_Z (lk_max_x st)
                     < inject_Z (x g + c_int (width g) + 1))%Q).
      { rewrite !inject_Z_plus. change (inject_Z 1) with 1%Q. lra. }
      rewrite <- Zlt_Qlt in Hlt. lia.
    - apply Qgt_bool_false in Em. split; [lia|].
      pose proof (c_int_below (width g) Hw) as Hb.
      assert (Hle : (inject_Z (x g + c_int (width g))
                     <= inject_Z (lk_max_x st))%Q).
      { rewrite inject_Z_plus. lra. }
      by rewrite <- Zle_Qle in Hle. }
  apply Forall_app. split.
  - eapply Forall_impl; [exact Hseen|]. intros g' (A1 & A2 & A3).
    split_and!; [lia|lia|lra].
  - constructor; [|constructor]. split_and!; [lia|lia|lra].
Qed.

Lemma linked_fold (gs seen : list Glyph) st :
  Forall (λ g, hyperlink g = h ∧ (0 <= width g)%Q) gs →
  Linked h rv seen st →
  Linked h rv (seen ++ gs) (fold_left (area_step line) gs st).
Proof.
  intros Hgs. revert seen st.
  induction Hgs as [|g gs [Hg Hw] _ IH]; intros seen st Hst.
  - by rewrite app_nil_r.
  - cbn [fold_left]. rewrite (cons_middle g), app_assoc.
    apply IH. by apply linked_step.
Qed.

End OneLink.

(** X30. For a line that is not empty and whose glyphs all carry the
    same hyperlink other than 0 and have widths that are not negative,
    [hyperlink_areas] returns one area, with that hyperlink and the [y] and
    height of the line; every glyph of the line starts at or after the left
    edge of the area and ends, its width truncated, at or before its right
    edge, and is shown no sooner than the area is valid. *)
Theorem hyperlink_area_covers (line : Line) (h : Z) :
  h ≠ 0%Z → glyphs line ≠ [] →
  Forall (λ g, hyperlink g = h ∧ (0 <= width g)%Q) (glyphs line) →
  ∃ a, hyperlink_areas [line] = [a]
    ∧ area_hyperlink a = h
    ∧ area_y a = line_y line ∧ area_h a = height line
    ∧ Forall (covered a) (glyphs line).
Proof.
  intros Hh Hne Hgs. unfold hyperlink_areas. cbn [fold_left].
  unfold line_areas.
  pose proof (linked_fold line h [] Hh (glyphs line) []
                (mkLink 0 86400 0 1000000 []) Hgs) as HL.
  cbn [app] in HL. destruct HL as (Hrv & Hcur & Hseen); [by split_and!|].
  set (st := fold_left _ _ _) in *. clearbody st.
  destruct (glyphs line) as [|g0 gl] eqn:Egl; [done|]. rewrite <- Egl in *.
  rewrite Hcur. replace (h =? 0)%Z with false by (symmetry; by apply Z.eqb_neq).
  cbn [negb]. unfold emit. rewrite Hrv, Hcur. cbn [app].
  eexists. split; [done|]. cbn. split_and!; try done.
  eapply Forall_impl; [exact Hseen|]. intros g (A1 & A2 & A3).
  unfold covered. cbn. split_and!; [done|lia|done].
Qed.

End LinksFacts.

Lemma hyperlink_area_covers_witness :
  ∃ a,
    Links.hyperlink_areas
      [Samples.line_of
         [mkGlyph 3 0 0 97 0 SPLIT_NONE RUBY_NONE 0 0 0 10 10 1 7 false 0 0;
          mkGlyph 13 0 0 98 0 SPLIT_NONE RUBY_NONE 0 0 0 10 10 2 7 false 0 0]]
    = [a]
    ∧ Links.area_hyperlink a = 7%Z.
Proof.
destruct (hyperlink_area_covers
            (Samples.line_of
               [mkGlyph 3 0 0 97 0 SPLIT_NONE RUBY_NONE 0 0 0 10 10 1 7
                  false 0 0;
                mkGlyph 13 0 0 98 0 SPLIT_NONE RUBY_NONE 0 0 0 10 10 2 7
                  false 0 0]) 7)
  as (a & H1 & H2 & _).
- discriminate.
- discriminate.
- repeat (apply Forall_cons_2;
          [split; [reflexivity | vm_compute; discriminate]|]).
  apply Forall_nil_2.
- exists a. split; [exact H1 | exact H2].
Defined.
